(** * Binary codecs of the routing and traffic sections

    A shallow embedding of [indexer/routing.hpp] (restriction section:
    [RoutingHeader], [RestrictionSerializer]) and of
    [traffic/traffic_info.cpp] (traffic keys, traffic values,
    [CombineColorings], [ExtractTrafficKeys], [GetSpeedGroup], the
    [Receive...] members of [TrafficInfo] and the helpers they call),
    together with the properties the specification states about them and
    further properties read off the code.

    Integers of the program are modelled as [Z] with the wrap-around of the
    C++ type written out ([u8], [u16], [u32], [u64], [i32]); a byte is a [Z]
    in [0, 256); a vector is a [list]; the [std::map] of a coloring is a
    [gmap].  Functions that can throw, abort on a [CHECK] or trip an
    [ASSERT] return a [result]. *)

From Stdlib Require Import ZArith List Lia Bool String Sorted DecimalString.
From stdpp Require Import base tactics option list gmap.

Local Open Scope Z_scope.

(** ** Failures and the result monad *)

(** How a call can end other than by returning.  The source has no error
    codes: a byte source throws when it is read past its end, [CHECK]
    aborts with its message, [ASSERT] aborts in builds that keep
    assertions. *)
Inductive failure : Type :=
| ReaderException
| CheckFailure (msg : string)
| AssertFailure
| CoderOverflow
| OutOfRange.

Inductive result (A : Type) : Type :=
| Ok (a : A)
| Err (e : failure).

Arguments Ok {A} a.
Arguments Err {A} e.

#[global] Instance result_ret : MRet result := fun A a => Ok a.
#[global] Instance result_bind : MBind result := fun A B f m =>
  match m with
  | Ok a => f a
  | Err e => Err e
  end.

(** ** Fixed-width integers *)

Definition u8 (x : Z) : Z := x mod 2 ^ 8.
Definition u16 (x : Z) : Z := x mod 2 ^ 16.
Definition u32 (x : Z) : Z := x mod 2 ^ 32.
Definition u64 (x : Z) : Z := x mod 2 ^ 64.

(** [static_cast<int32_t>]: the two's complement reading of the low 32 bits. *)
Definition i32 (x : Z) : Z := (x + 2 ^ 31) mod 2 ^ 32 - 2 ^ 31.

Definition is_u8 (x : Z) : Prop := 0 <= x < 2 ^ 8.
Definition is_u16 (x : Z) : Prop := 0 <= x < 2 ^ 16.
Definition is_u32 (x : Z) : Prop := 0 <= x < 2 ^ 32.
Definition is_u64 (x : Z) : Prop := 0 <= x < 2 ^ 64.

(** ** The assertion macros ([base/assert.hpp]) *)

(** Modelled from the spec: [CHECK] and its variants [CHECK_EQUAL],
    [CHECK_LESS] and [CHECK_GREATER] are macros of [base/assert.hpp].  A
    failed [CHECK] ends the call in every build (section 7: validation failures must be reported); [msg] is
    the message of the macro, or the text of its condition when the macro
    is given none. *)
Definition CHECK (cond : bool) (msg : string) : result unit :=
  if cond then Ok tt else Err (CheckFailure msg).

(** Modelled from the spec: [ASSERT] and [ASSERT_EQUAL] are macros of
    [base/assert.hpp].  A failed [ASSERT] ends the call only in a build
    that keeps assertions (section 7: debug-mode implementations may
    additionally halt); the build is the parameter [debug]. *)
Definition ASSERT (debug : bool) (cond : bool) : result unit :=
  if debug && negb cond then Err AssertFailure else Ok tt.

(** ** Bit I/O ([coding/bit_streams.hpp]) *)

(** Modelled from the spec: section 4.1, bits fill a byte from its least
    significant end.  The byte of at most eight bits, the first of them the
    least significant, the missing ones zero. *)
Definition byte_of_bits (bs : list bool) : Z :=
  fold_right (fun b acc => Z.b2z b + 2 * acc) 0 bs.

(** Modelled from the spec: section 4.1.  The eight bits of a byte, the
    least significant first. *)
Definition bits_of_byte (x : Z) : list bool :=
  map (Z.testbit x) [0; 1; 2; 3; 4; 5; 6; 7].

(** Modelled from the spec: [BitWriter] is declared in
    [coding/bit_streams.hpp]; section 4.1 gives its state as a byte sink, an
    8-bit buffer and a fill count.  [bw_buf] holds the bits of the byte
    under construction, oldest first: its length is the fill count. *)
Record BitWriter : Type := mkBitWriter {
  bw_sink : list Z;
  bw_buf : list bool
}.

(** Modelled from the spec: the constructor of [BitWriter] binds it to a
    sink, with an empty buffer. *)
Definition BitWriter_new (sink : list Z) : BitWriter :=
  mkBitWriter sink [].

(** Modelled from the spec: section 4.1, one bit is appended to the
    buffer, and a complete byte is spilled to the sink. *)
Definition write_bit (w : BitWriter) (b : bool) : BitWriter :=
  let buf := bw_buf w ++ [b] in
  if (length buf =? 8)%nat
  then mkBitWriter (bw_sink w ++ [byte_of_bits buf]) []
  else mkBitWriter (bw_sink w) buf.

(** Modelled from the spec: a sequence of bits written in order. *)
Definition write_bits (w : BitWriter) (bs : list bool) : BitWriter :=
  fold_left write_bit bs w.

(** Modelled from the spec: section 4.1, the low [k] bits of [value], the
    least significant first. *)
Definition lsb_bits (value : Z) (k : nat) : list bool :=
  map (fun i => Z.testbit value (Z.of_nat i)) (seq 0 k).

(** Modelled from the spec: [BitWriter::Write(value, k)] of section 4.1
    appends the low [k] bits of [value], least significant first. *)
Definition BitWriter_Write (w : BitWriter) (value : Z) (k : nat) : BitWriter :=
  write_bits w (lsb_bits value k).

(** Modelled from the spec: the destructor of [BitWriter]; by section 4.1
    a partial byte is padded with zero bits and flushed.  The result is
    the sink as the writer leaves it. *)
Definition BitWriter_drop (w : BitWriter) : list Z :=
  match bw_buf w with
  | [] => bw_sink w
  | _ :: _ => bw_sink w ++ [byte_of_bits (bw_buf w)]
  end.

(** Modelled from the spec: [BitReader] is declared in
    [coding/bit_streams.hpp]; by section 4.1 it pulls bytes from a source
    and hands out their bits from the least significant end.  [br_buf]
    holds the bits of the current byte not handed out yet. *)
Record BitReader : Type := mkBitReader {
  br_src : list Z;
  br_buf : list bool
}.

(** Modelled from the spec: the constructor of [BitReader] binds it to a
    source; no byte is pulled before a bit is asked for. *)
Definition BitReader_new (src : list Z) : BitReader :=
  mkBitReader src [].

(** Modelled from the spec: section 4.1, one bit is taken from the
    current byte, or from the next byte of the source when the current one
    is used up; reading past the end of the source is a failure. *)
Definition read_bit (r : BitReader) : result (bool * BitReader) :=
  match br_buf r with
  | b :: buf => Ok (b, mkBitReader (br_src r) buf)
  | [] =>
      match br_src r with
      | [] => Err ReaderException
      | x :: src =>
          Ok (hd false (bits_of_byte x), mkBitReader src (tl (bits_of_byte x)))
      end
  end.

(** Modelled from the spec: [BitReader::Read(k)] of section 4.1 pulls [k]
    bits, the first of them the least significant of the result. *)
Fixpoint BitReader_Read (r : BitReader) (k : nat) : result (Z * BitReader) :=
  match k with
  | O => Ok (0, r)
  | S k' =>
      '(b, r1) ← read_bit r;
      '(v, r2) ← BitReader_Read r1 k';
      Ok (Z.b2z b + 2 * v, r2)
  end.

(** Modelled from the spec: the destructor of [BitReader]; by section 4.1
    the unread bits of the current byte are lost and the source stays
    after the last byte pulled.  The result is the source as the reader
    leaves it. *)
Definition BitReader_drop (r : BitReader) : list Z := br_src r.

(** ** Universal integer codes ([coding/elias_coder.hpp]) *)

(** Modelled from the spec: the bit length [L = floor(log2 n) + 1] of
    section 4.2. *)
Definition bit_length (n : Z) : nat := S (Z.to_nat (Z.log2 n)).

(** Modelled from the spec: section 4.2, the low [k] bits of [value], the
    most significant first. *)
Definition msb_bits (value : Z) (k : nat) : list bool :=
  rev (lsb_bits value k).

(** Modelled from the spec: section 4.2, every bit of a codeword goes out
    through one [Write(bit, 1)]. *)
Definition emit_bits (w : BitWriter) (bs : list bool) : BitWriter :=
  fold_left (fun w b => BitWriter_Write w (Z.b2z b) 1) bs w.

(** Modelled from the spec: section 4.2, zero is not representable and a
    value of 2^64 or more overflows. *)
Definition encodable (n : Z) : bool := (1 <=? n) && (n <? 2 ^ 64).

(** Modelled from the spec: the gamma code of section 4.2, [L - 1] zero
    bits and then [n] in [L] bits, most significant first. *)
Definition gamma_bits (n : Z) : list bool :=
  repeat false (bit_length n - 1) ++ msb_bits n (bit_length n).

(** Modelled from the spec: the delta code of section 4.2, the gamma code
    of [L] and then the low [L - 1] bits of [n], most significant first. *)
Definition delta_bits (n : Z) : list bool :=
  gamma_bits (Z.of_nat (bit_length n)) ++ msb_bits n (bit_length n - 1).

Module GammaCoder.

(** Modelled from the spec: [coding::GammaCoder::Encode] is declared in
    [coding/elias_coder.hpp]; by sections 4.2 and 8 it returns failure for
    zero and on overflow, here without writing a bit, and success after
    writing the gamma code. *)
Definition Encode (w : BitWriter) (value : Z) : bool * BitWriter :=
  if encodable value then (true, emit_bits w (gamma_bits value))
  else (false, w).

(** Modelled from the spec: section 4.2, the count [z] of leading zero
    bits, from 0 to 63.  The bits are read up to and including the one bit
    that ends the zeros; a 64th zero bit is a failure. *)
Fixpoint leading_zeros (fuel z : nat) (r : BitReader)
  : result (nat * BitReader) :=
  match fuel with
  | O => Err CoderOverflow
  | S fuel' =>
      '(v, r1) ← BitReader_Read r 1;
      if v =? 0 then leading_zeros fuel' (S z) r1 else Ok (z, r1)
  end.

(** Modelled from the spec: section 4.2, [k] further bits read most
    significant first and appended to [acc]. *)
Fixpoint read_msb (k : nat) (acc : Z) (r : BitReader)
  : result (Z * BitReader) :=
  match k with
  | O => Ok (acc, r)
  | S k' =>
      '(v, r1) ← BitReader_Read r 1;
      read_msb k' (2 * acc + v) r1
  end.

(** Modelled from the spec: [coding::GammaCoder::Decode]; by section 4.2
    the leading zeros are counted and then [z + 1] bits are read, most
    significant first.  The one bit that ends the zeros is the first of
    these [z + 1] bits. *)
Definition Decode (r : BitReader) : result (Z * BitReader) :=
  '(z, r1) ← leading_zeros 64 0 r;
  read_msb z 1 r1.

End GammaCoder.

Module DeltaCoder.

(** Modelled from the spec: [coding::DeltaCoder::Encode] is declared in
    [coding/elias_coder.hpp]; by sections 4.2 and 8 it returns failure for
    zero and on overflow, here without writing a bit, and success after
    writing the delta code. *)
Definition Encode (w : BitWriter) (value : Z) : bool * BitWriter :=
  if encodable value then
    let '(_, w1) := GammaCoder.Encode w (Z.of_nat (bit_length value)) in
    (true, emit_bits w1 (msb_bits value (bit_length value - 1)))
  else (false, w).

(** Modelled from the spec: [coding::DeltaCoder::Decode]; by section 4.2
    the length [L] is gamma-decoded, [L - 1] bits are read most significant
    first, and the leading one is put in front.  A length above 64 does
    not fit the 64-bit result and is a failure. *)
Definition Decode (r : BitReader) : result (Z * BitReader) :=
  '(len, r1) ← GammaCoder.Decode r;
  if len <=? 64 then GammaCoder.read_msb (Z.to_nat (len - 1)) 1 r1
  else Err CoderOverflow.

End DeltaCoder.

(** ** Zig-zag ([base/bits.hpp]) *)

Module bits.

(** Modelled from the spec: [bits::ZigZagEncode] is declared in
    [base/bits.hpp]; the glossary gives it as [(n << 1) ^ (n >> 31)] on a
    signed 32-bit [n], with an unsigned 32-bit result. *)
Definition ZigZagEncode (x : Z) : Z :=
  u32 (Z.lxor (Z.shiftl x 1) (Z.shiftr x 31)).

(** Modelled from the spec: [bits::ZigZagDecode] is declared in
    [base/bits.hpp]; section 8 asks that it undo [ZigZagEncode], which
    [(x >> 1) ^ -(x & 1)] does, from an unsigned to a signed 32-bit
    value. *)
Definition ZigZagDecode (x : Z) : Z :=
  i32 (Z.lxor (Z.shiftr x 1) (- Z.land x 1)).

End bits.

(** ** Byte-level primitives ([coding/write_to_sink.hpp],
    [coding/reader.hpp], [coding/varint.hpp]) *)

(** Modelled from the spec: sections 3 and 6.1, the [width] bytes of a
    fixed-width integer, the least significant first. *)
Fixpoint le_bytes (width : nat) (v : Z) : list Z :=
  match width with
  | O => []
  | S width' => v mod 256 :: le_bytes width' (v / 256)
  end.

(** Modelled from the spec: sections 3 and 6.1, the integer of bytes given
    least significant first. *)
Fixpoint le_value (bs : list Z) : Z :=
  match bs with
  | [] => 0
  | b :: bs' => b + 256 * le_value bs'
  end.

(** Modelled from the spec: [WriteToSink] is declared in
    [coding/write_to_sink.hpp]; it appends an integer of [width] bytes to
    the sink, little-endian by sections 3 and 6.1. *)
Definition WriteToSink (width : nat) (sink : list Z) (v : Z) : list Z :=
  sink ++ le_bytes width v.

(** Modelled from the spec: [ReadPrimitiveFromSource<T>] is declared in
    [coding/reader.hpp]; it takes the [width] bytes of a [T] from the
    source, little-endian, and throws when the source is shorter
    (section 7, end of input). *)
Definition ReadPrimitiveFromSource (width : nat) (src : list Z)
  : result (Z * list Z) :=
  if (width <=? length src)%nat
  then Ok (le_value (firstn width src), skipn width src)
  else Err ReaderException.

(** Modelled from the spec: section 4.4, the bytes of a variable-length
    unsigned integer: base 128, seven bits a byte from the least
    significant group, bit 7 set on every byte but the last. *)
Fixpoint varuint_bytes (fuel : nat) (v : Z) : list Z :=
  match fuel with
  | O => []
  | S fuel' =>
      if v <? 128 then [v]
      else (v mod 128 + 128) :: varuint_bytes fuel' (v / 128)
  end.

(** Modelled from the spec: [WriteVarUint] is declared in
    [coding/varint.hpp]; the callers pass a [size_t], 64 bits wide, which
    takes at most ten groups. *)
Definition WriteVarUint (sink : list Z) (v : Z) : list Z :=
  sink ++ varuint_bytes 10 (u64 v).

(** Modelled from the spec: section 4.4, the groups of seven bits are
    read up to the first byte without bit 7; the source ending before
    that is a failure. *)
Fixpoint read_varuint (src : list Z) (shift acc : Z) : result (Z * list Z) :=
  match src with
  | [] => Err ReaderException
  | b :: src' =>
      let acc' := acc + (b mod 128) * 2 ^ shift in
      if b <? 128 then Ok (acc', src')
      else read_varuint src' (shift + 7) acc'
  end.

(** Modelled from the spec: [ReadVarUint<T>] is declared in
    [coding/varint.hpp]; the result has the unsigned type [T] of [width]
    bits the caller names. *)
Definition ReadVarUint (width : Z) (src : list Z) : result (Z * list Z) :=
  '(v, src') ← read_varuint src 0 0;
  Ok (v mod 2 ^ width, src').

(** ** Bit streams and the bytes that carry them *)

(** The bytes a writer on an empty sink leaves when the bits [bs] are
    written to it and it is dropped. *)
Definition bytes_of_bits (bs : list bool) : list Z :=
  BitWriter_drop (write_bits (BitWriter_new []) bs).

(** What [Encode] puts on the wire for [v]: nothing when it refuses. *)
Definition gamma_code (v : Z) : list bool :=
  if encodable v then gamma_bits v else [].

Definition delta_code (v : Z) : list bool :=
  if encodable v then delta_bits v else [].

(** [reader_at r bs tail]: the reader [r] has the bits [bs] of a padded bit
    stream still to hand out, and the bytes [tail] follow that stream in the
    source.  Either the unread bits of the current byte are a prefix of
    [bs] and the source holds the bytes of the rest, or the current byte is
    the last one of the stream and its unread bits are [bs] and padding. *)
Inductive reader_at : BitReader -> list bool -> list Z -> Prop :=
| reader_at_mid buf bs tail :
    (length buf < 8)%nat ->
    reader_at (mkBitReader (bytes_of_bits bs ++ tail) buf) (buf ++ bs) tail
| reader_at_last bs pad tail :
    (length (bs ++ repeat false pad) < 8)%nat ->
    reader_at (mkBitReader tail (bs ++ repeat false pad)) bs tail.

(** The bits a reader can still hand out: those left of the current byte
    and eight for every byte left in the source. *)
Definition bits_left (r : BitReader) : nat :=
  (length (br_buf r) + 8 * length (br_src r))%nat.

(** * [indexer/routing.hpp] *)

Module routing.

Inductive RestrictionType : Type := No | Only.

Definition type_rank (t : RestrictionType) : Z :=
  match t with No => 0 | Only => 1 end.

Definition type_eqb (a b : RestrictionType) : bool :=
  type_rank a =? type_rank b.

Record Restriction : Type := mkRestriction {
  m_type : RestrictionType;
  m_featureIds : list Z
}.

(** Modelled from the spec: [kInvalidFeatureId] is defined in [routing.cpp];
    section 3 gives it as the largest 32-bit value. *)
Definition kInvalidFeatureId : Z := 2 ^ 32 - 1.

(** Modelled from the spec: [Restriction::IsValid] is defined in
    [routing.cpp]; by section 3 a restriction that holds the sentinel or
    fewer than two feature ids is invalid. *)
Definition IsValid (r : Restriction) : bool :=
  (2 <=? length (m_featureIds r))%nat
  && forallb (fun fid => negb (fid =? kInvalidFeatureId)) (m_featureIds r).

(** The [operator<] of [std::vector]: the lexicographic order. *)
Fixpoint featureIds_lt (a b : list Z) : bool :=
  match a, b with
  | [], [] => false
  | [], _ :: _ => true
  | _ :: _, [] => false
  | x :: a', y :: b' =>
      if x <? y then true
      else if y <? x then false
      else featureIds_lt a' b'
  end.

(** Modelled from the spec: [Restriction::operator<] is defined in
    [routing.cpp]; section 3 gives the order as lexicographic on the type
    rank, then the feature ids, with [No] before [Only]. *)
Definition Restriction_lt (a b : Restriction) : bool :=
  if type_eqb (m_type a) (m_type b)
  then featureIds_lt (m_featureIds a) (m_featureIds b)
  else type_rank (m_type a) <? type_rank (m_type b).

(** [std::is_sorted]: no element is less than its predecessor. *)
Fixpoint is_sorted (rs : list Restriction) : bool :=
  match rs with
  | [] => true
  | r :: rest =>
      match rest with
      | [] => true
      | r' :: _ => negb (Restriction_lt r' r) && is_sorted rest
      end
  end.

End routing.

Module feature.

Import routing.

(** ** [RoutingHeader] *)

Record RoutingHeader : Type := mkRoutingHeader {
  m_version : Z;
  m_reserved : Z;
  m_noRestrictionCount : Z;
  m_onlyRestrictionCount : Z
}.

Module RoutingHeader_.

Definition Serialize (h : RoutingHeader) (sink : list Z) : list Z :=
  let sink := WriteToSink 2 sink (m_version h) in
  let sink := WriteToSink 2 sink (m_reserved h) in
  let sink := WriteToSink 4 sink (m_noRestrictionCount h) in
  WriteToSink 4 sink (m_onlyRestrictionCount h).

Definition Deserialize (src : list Z) : result (RoutingHeader * list Z) :=
  '(version, src) ← ReadPrimitiveFromSource 2 src;
  '(reserved, src) ← ReadPrimitiveFromSource 2 src;
  '(noCount, src) ← ReadPrimitiveFromSource 4 src;
  '(onlyCount, src) ← ReadPrimitiveFromSource 4 src;
  Ok (mkRoutingHeader version reserved noCount onlyCount, src).

Definition Reset : RoutingHeader := mkRoutingHeader 0 0 0 0.

End RoutingHeader_.

(** ** [RestrictionSerializer] *)

Module RestrictionSerializer.

(** The inner loop of [SerializeSingleType]: one delta code for each feature
    id.  The difference is taken on [int32_t], wrapping as section 4.3 has
    it; the bias is added on [uint32_t]; the answer of [Encode] is not
    looked at. *)
Fixpoint SerializeLinks (bits : BitWriter) (prevLinkFeatureId : Z)
  (featureIds : list Z) : BitWriter :=
  match featureIds with
  | [] => bits
  | fid :: rest =>
      let delta :=
        bits.ZigZagEncode (i32 (i32 fid - i32 prevLinkFeatureId)) in
      let '(_, bits) := DeltaCoder.Encode bits (u32 (delta + 1)) in
      SerializeLinks bits fid rest
  end.

(** The body of the outer loop from the construction of the bit writer to
    its destruction at the end of the iteration. *)
Definition SerializeRestriction (prevFisrtLinkFeatureId : Z)
  (restriction : Restriction) (sink : list Z) : list Z :=
  let bits := BitWriter_new sink in
  let '(_, bits) :=
    DeltaCoder.Encode bits
      (u64 (Z.of_nat (length (m_featureIds restriction)) - 1)) in
  let bits :=
    SerializeLinks bits prevFisrtLinkFeatureId (m_featureIds restriction) in
  BitWriter_drop bits.

(** The outer loop of [SerializeSingleType].  The read of
    [m_featureIds[0]] comes after the [CHECK] that there are two links at
    least. *)
Fixpoint SerializeLoop (type : RestrictionType) (prevFisrtLinkFeatureId : Z)
  (rs : list Restriction) (sink : list Z) : result (list Z) :=
  match rs with
  | [] => Ok sink
  | restriction :: rest =>
      _ ← CHECK (type_eqb type (m_type restriction)) "type == it->m_type";
      _ ← CHECK (IsValid restriction) "restriction.IsValid()";
      _ ← CHECK (1 <? length (m_featureIds restriction))%nat
            "No meaning in zero or one link restrictions.";
      let sink := SerializeRestriction prevFisrtLinkFeatureId restriction sink in
      SerializeLoop type (hd 0 (m_featureIds restriction)) rest sink
  end.

Definition SerializeSingleType (rs : list Restriction) (sink : list Z)
  : result (list Z) :=
  match rs with
  | [] => Ok sink
  | first :: _ =>
      _ ← CHECK (is_sorted rs) "is_sorted(begin, end)";
      SerializeLoop (m_type first) 0 rs sink
  end.

(** [Serialize(begin, firstOnlyIt, end, sink)] on the vector [rs], with
    [begin] its start, [end] its end and [firstOnlyIt] at index
    [firstOnly]. *)
Definition Serialize (rs : list Restriction) (firstOnly : nat)
  (sink : list Z) : result (list Z) :=
  sink ← SerializeSingleType (firstn firstOnly rs) sink;
  SerializeSingleType (skipn firstOnly rs) sink.

(** The inner loop of [DeserializeSingleType].  [None] stands for the
    [return false] on a zero biased delta. *)
Fixpoint DeserializeLinks (linkNumber : nat) (bits : BitReader)
  (prevLinkFeatureId : Z) : result (option (list Z) * BitReader) :=
  match linkNumber with
  | O => Ok (Some [], bits)
  | S linkNumber' =>
      '(decoded, bits) ← DeltaCoder.Decode bits;
      let biasedDelta := u32 decoded in
      if biasedDelta =? 0 then Ok (None, bits)
      else
        let delta := u32 (biasedDelta - 1) in
        let fid := u32 (bits.ZigZagDecode delta + prevLinkFeatureId) in
        '(rest, bits) ← DeserializeLinks linkNumber' bits fid;
        Ok (option_map (cons fid) rest, bits)
  end.

(** One iteration of the outer loop of [DeserializeSingleType], from the
    construction of the bit reader to its destruction.  [None] stands
    for [return false].  With a link number of zero the read of
    [m_featureIds[0]] is out of range. *)
Definition DeserializeRestriction (type : RestrictionType)
  (prevFisrtLinkFeatureId : Z) (src : list Z)
  : result (option Restriction * list Z) :=
  let bits := BitReader_new src in
  '(decoded, bits) ← DeltaCoder.Decode bits;
  let biasedLinkNumber := u32 decoded in
  if biasedLinkNumber =? 0 then Ok (None, BitReader_drop bits)
  else
    let linkNumber := u32 (biasedLinkNumber + 1) in
    '(links, bits) ←
      DeserializeLinks (Z.to_nat linkNumber) bits prevFisrtLinkFeatureId;
    match links with
    | None => Ok (None, BitReader_drop bits)
    | Some [] => Err OutOfRange
    | Some (fid :: fids) =>
        Ok (Some (mkRestriction type (fid :: fids)), BitReader_drop bits)
    end.

(** The outer loop of [DeserializeSingleType]: the boolean it returns, the
    restriction vector and the source as the call leaves them. *)
Fixpoint DeserializeLoop (type : RestrictionType) (count : nat)
  (prevFisrtLinkFeatureId : Z) (restrictions : list Restriction)
  (src : list Z) : result (bool * list Restriction * list Z) :=
  match count with
  | O => Ok (true, restrictions, src)
  | S count' =>
      '(decoded, src) ← DeserializeRestriction type prevFisrtLinkFeatureId src;
      match decoded with
      | None => Ok (false, restrictions, src)
      | Some restriction =>
          DeserializeLoop type count'
            (hd 0 (m_featureIds restriction))
            (restrictions ++ [restriction]) src
      end
  end.

Definition DeserializeSingleType (type : RestrictionType) (count : Z)
  (restrictions : list Restriction) (src : list Z)
  : result (bool * list Restriction * list Z) :=
  DeserializeLoop type (Z.to_nat count) 0 restrictions src.

(** [Deserialize] returns nothing: what its caller sees is the restriction
    vector and the source.  The booleans of the two calls are dropped. *)
Definition Deserialize (header : RoutingHeader)
  (restrictions : list Restriction) (src : list Z)
  : result (list Restriction * list Z) :=
  '(_, restrictions, src) ←
    DeserializeSingleType No (m_noRestrictionCount header) restrictions src;
  '(_, restrictions, src) ←
    DeserializeSingleType Only (m_onlyRestrictionCount header) restrictions src;
  Ok (restrictions, src).

(** ** The wire format of a restriction

    The codeword stream the serializer writes for one restriction, and the
    bytes of a group: one block of whole bytes for each restriction. *)

Fixpoint links_bits (prevLinkFeatureId : Z) (featureIds : list Z)
  : list bool :=
  match featureIds with
  | [] => []
  | fid :: rest =>
      delta_code
        (u32 (bits.ZigZagEncode (i32 (i32 fid - i32 prevLinkFeatureId)) + 1))
      ++ links_bits fid rest
  end.

Definition restriction_bits (prevFisrtLinkFeatureId : Z)
  (restriction : Restriction) : list bool :=
  delta_code (u64 (Z.of_nat (length (m_featureIds restriction)) - 1))
  ++ links_bits prevFisrtLinkFeatureId (m_featureIds restriction).

Fixpoint restriction_blocks (prevFisrtLinkFeatureId : Z)
  (rs : list Restriction) : list (list Z) :=
  match rs with
  | [] => []
  | restriction :: rest =>
      bytes_of_bits (restriction_bits prevFisrtLinkFeatureId restriction)
      :: restriction_blocks (hd 0 (m_featureIds restriction)) rest
  end.

(** ** Restrictions the format can carry *)

(** A restriction of at least two and fewer than 2^32 links, each a
    32-bit feature id other than [kInvalidFeatureId]. *)
Definition well_formed (restriction : Restriction) : Prop :=
  (2 <= length (m_featureIds restriction))%nat
  /\ Z.of_nat (length (m_featureIds restriction)) < 2 ^ 32
  /\ Forall (fun fid => 0 <= fid < kInvalidFeatureId)
             (m_featureIds restriction).

(** The difference of a feature id to its predecessor is not 2^31 modulo
    2^32: its zig-zag code plus one fits 32 bits. *)
Definition delta_fits (prevLinkFeatureId fid : Z) : Prop :=
  u32 (fid - prevLinkFeatureId) <> 2 ^ 31.

Fixpoint links_fit (prevLinkFeatureId : Z) (featureIds : list Z) : Prop :=
  match featureIds with
  | [] => True
  | fid :: rest => delta_fits prevLinkFeatureId fid /\ links_fit fid rest
  end.

(** Every link of every restriction of a group fits, along the chain of
    predecessors the serializer follows: the first link of a restriction
    follows the first link of the restriction before it, the first
    restriction follows [prevFisrtLinkFeatureId]. *)
Fixpoint group_fits (prevFisrtLinkFeatureId : Z) (rs : list Restriction)
  : Prop :=
  match rs with
  | [] => True
  | restriction :: rest =>
      links_fit prevFisrtLinkFeatureId (m_featureIds restriction)
      /\ group_fits (hd 0 (m_featureIds restriction)) rest
  end.

(** The value of [prevFisrtLinkFeatureId] when the loop reaches the
    restriction of index [k]. *)
Fixpoint first_link_before (prevFisrtLinkFeatureId : Z)
  (rs : list Restriction) (k : nat) : Z :=
  match k, rs with
  | S k', restriction :: rest =>
      first_link_before (hd 0 (m_featureIds restriction)) rest k'
  | _, _ => prevFisrtLinkFeatureId
  end.

(** ** Groups the serializer takes *)

(** A group [SerializeSingleType] runs through without tripping a
    [CHECK]: sorted, and made of valid restrictions of one type. *)
Definition accepted (rs : list Restriction) : Prop :=
  is_sorted rs = true
  /\ exists type,
       Forall (fun r => m_type r = type /\ IsValid r = true) rs.

(** What the deserializer puts into a restriction: the type it was asked
    for and two or more 32-bit feature ids. *)
Definition decoded_as (type : RestrictionType) (r : Restriction) : Prop :=
  m_type r = type
  /\ (2 <= length (m_featureIds r))%nat
  /\ Forall is_u32 (m_featureIds r).

End RestrictionSerializer.

End feature.


(** * [traffic/traffic_info.cpp] *)

Module traffic.

(** A [SpeedGroup] is kept as its numeric code, which fits three bits. *)
Definition SpeedGroup : Type := Z.

(** ** The helpers of the anonymous namespace *)

(** [platform::HttpClient] is an external collaborator: a request is what
    its three accessors answer once it has been run. *)
Record HttpClient : Type := mkHttpClient {
  RunHttpRequest : bool;
  ErrorCode : Z;
  ServerResponse : list Z
}.

(** [ss << version] on a [uint64_t]: the decimal digits. *)
Definition decimal (version : Z) : string :=
  NilEmpty.string_of_uint (N.to_uint (Z.to_N version)).

Definition string_empty (s : string) : bool :=
  match s with
  | EmptyString => true
  | String _ _ => false
  end.

Section Remote.

(** The request the platform builds and runs for a URL. *)
Variable request_for : string -> HttpClient.

(** [TRAFFIC_DATA_BASE_URL] comes from [private.h],
    [TRAFFIC_FILE_EXTENSION] from [defines.hpp] and [UrlEncode] from
    [coding/url_encode.hpp]: none of them is fixed here. *)
Variable TRAFFIC_DATA_BASE_URL : string.
Variable TRAFFIC_FILE_EXTENSION : string.
Variable UrlEncode : string -> string.

(** [ReadRemoteFile(url, contents, errorCode)]: the boolean it returns,
    and [contents] and [errorCode] as the call leaves them.  [errorCode]
    is written on every path, so its value on entry is not a parameter. *)
Definition ReadRemoteFile (url : string) (contents : list Z)
  : bool * list Z * Z :=
  let request := request_for url in
  if negb (RunHttpRequest request) then
    (false, contents, ErrorCode request)
  else
    let errorCode := ErrorCode request in
    let contents := ServerResponse request in
    if negb (errorCode =? 200) then (false, contents, errorCode)
    else (true, contents, errorCode).

Definition MakeRemoteURL (name : string) (version : Z) : string :=
  if string_empty TRAFFIC_DATA_BASE_URL then EmptyString
  else
    let ss := TRAFFIC_DATA_BASE_URL in
    let ss :=
      if negb (version =? 0)
      then String.append (String.append ss (decimal version)) "/"
      else ss in
    String.append (String.append ss (UrlEncode name)) TRAFFIC_FILE_EXTENSION.

End Remote.

Module TrafficInfo.

Record RoadSegmentId : Type := mkRoadSegmentId {
  m_fid : Z;
  m_idx : Z;
  m_dir : Z
}.

#[global] Instance RoadSegmentId_eq_dec : EqDecision RoadSegmentId.
Proof. solve_decision. Defined.

#[global] Instance RoadSegmentId_countable : Countable RoadSegmentId.
Proof.
  refine (inj_countable'
            (fun k => (m_fid k, m_idx k, m_dir k))
            (fun t => mkRoadSegmentId t.1.1 t.1.2 t.2) _).
  intros []; reflexivity.
Defined.

(** Modelled from the spec: the direction constants are declared in
    [traffic_info.hpp]; section 3 gives forward as 0 and reverse as 1. *)
Definition kForwardDirection : Z := 0.
Definition kReverseDirection : Z := 1.

Definition kLatestKeysVersion : Z := 0.
Definition kLatestValuesVersion : Z := 0.

(** [while (j < keys.size() && keys[i].m_fid == keys[j].m_fid) ++j]: the
    keys from [i] up to [j], and the keys from [j] on. *)
Fixpoint same_fid_run (fid : Z) (keys : list RoadSegmentId)
  : list RoadSegmentId * list RoadSegmentId :=
  match keys with
  | [] => ([], [])
  | k :: rest =>
      if m_fid k =? fid then
        let '(run, tail) := same_fid_run fid rest in (k :: run, tail)
      else ([], keys)
  end.

(** The scan of a run for a key in reverse direction. *)
Definition is_one_way (run : list RoadSegmentId) : bool :=
  forallb (fun k => negb (m_dir k =? kReverseDirection)) run.

(** The grouping loop of [SerializeTrafficKeys]: the vectors [fids],
    [numSegs] and [oneWay].  Every iteration moves [i] past at least one
    key, so [length keys] iterations are enough. *)
Fixpoint GroupKeys (fuel : nat) (keys : list RoadSegmentId)
  : result (list Z * list Z * list bool) :=
  match fuel with
  | O => Ok ([], [], [])
  | S fuel' =>
      match keys with
      | [] => Ok ([], [], [])
      | first :: _ =>
          let '(run, rest) := same_fid_run (m_fid first) keys in
          let ow := is_one_way run in
          let numDirs := if ow then 1 else 2 in
          let numSegsForThisFid := Z.of_nat (length run) in
          _ ← CHECK (0 <? numDirs) "numDirs > 0";
          _ ← CHECK (numSegsForThisFid mod numDirs =? 0)
                "numSegsForThisFid % numDirs == 0";
          '(fids, numSegs, oneWay) ← GroupKeys fuel' rest;
          Ok (m_fid first :: fids,
              numSegsForThisFid / numDirs :: numSegs,
              ow :: oneWay)
      end
  end.

(** [for (size_t j ...) for (uint8_t dir ...) result.push_back(key)]; the
    constructor of the key takes [j] as a [uint16_t]. *)
Definition ExpandGroup (fid numSegs : Z) (oneWay : bool)
  : list RoadSegmentId :=
  let numDirs := if oneWay then 1 else 2 in
  flat_map
    (fun j => map (fun dir => mkRoadSegmentId fid (u16 j) (u8 dir))
                  (seqZ 0 numDirs))
    (seqZ 0 numSegs).

Fixpoint ExpandKeys (fids numSegs : list Z) (oneWay : list bool)
  : list RoadSegmentId :=
  match fids, numSegs, oneWay with
  | fid :: fids', s :: numSegs', ow :: oneWay' =>
      ExpandGroup fid s ow ++ ExpandKeys fids' numSegs' oneWay'
  | _, _, _ => []
  end.

Fixpoint DecodeFids (n : nat) (bitReader : BitReader) (prevFid : Z)
  : result (list Z * BitReader) :=
  match n with
  | O => Ok ([], bitReader)
  | S n' =>
      '(v, bitReader) ← GammaCoder.Decode bitReader;
      let prevFid := u32 (prevFid + u64 (v - 1)) in
      '(fids, bitReader) ← DecodeFids n' bitReader prevFid;
      Ok (prevFid :: fids, bitReader)
  end.

Fixpoint DecodeNumSegs (n : nat) (bitReader : BitReader)
  : result (list Z * BitReader) :=
  match n with
  | O => Ok ([], bitReader)
  | S n' =>
      '(v, bitReader) ← GammaCoder.Decode bitReader;
      '(numSegs, bitReader) ← DecodeNumSegs n' bitReader;
      Ok (u64 (v - 1) :: numSegs, bitReader)
  end.

Fixpoint DecodeOneWay (n : nat) (bitReader : BitReader)
  : result (list bool * BitReader) :=
  match n with
  | O => Ok ([], bitReader)
  | S n' =>
      '(v, bitReader) ← BitReader_Read bitReader 1;
      '(oneWay, bitReader) ← DecodeOneWay n' bitReader;
      Ok ((0 <? v) :: oneWay, bitReader)
  end.

(** [DeserializeTrafficKeys] up to the end of the block of the bit reader:
    the three vectors, and the source as the bit reader leaves it.  The
    vectors grow as they are read; that the code sizes them to [n]
    elements before the first read, which the allocator can refuse for a
    huge [n], is not modelled. *)
Definition ReadKeyGroups (data : list Z)
  : result (list Z * list Z * list bool * list Z) :=
  '(version, src) ← ReadPrimitiveFromSource 1 data;
  _ ← CHECK (version =? kLatestKeysVersion)
        "Unsupported version of traffic values.";
  '(n, src) ← ReadVarUint 64 src;
  let bitReader := BitReader_new src in
  '(fids, bitReader) ← DecodeFids (Z.to_nat n) bitReader 0;
  '(numSegs, bitReader) ← DecodeNumSegs (Z.to_nat n) bitReader;
  '(oneWay, bitReader) ← DecodeOneWay (Z.to_nat n) bitReader;
  Ok (fids, numSegs, oneWay, BitReader_drop bitReader).

Fixpoint ReadValues (n : nat) (bitReader : BitReader)
  : result (list SpeedGroup * BitReader) :=
  match n with
  | O => Ok ([], bitReader)
  | S n' =>
      '(v, bitReader) ← BitReader_Read bitReader 3;
      '(values, bitReader) ← ReadValues n' bitReader;
      Ok (v :: values, bitReader)
  end.

(** [DeserializeTrafficValues] after the inflation, up to the assertion:
    the values, and the source as the bit reader leaves it. *)
Definition ReadValueStream (decompressedData : list Z)
  : result (list SpeedGroup * list Z) :=
  '(version, src) ← ReadPrimitiveFromSource 1 decompressedData;
  _ ← CHECK (version =? kLatestValuesVersion)
        "Unsupported version of traffic keys.";
  '(n, src) ← ReadVarUint 32 src;
  '(values, bitReader) ← ReadValues (Z.to_nat n) (BitReader_new src);
  Ok (values, br_src bitReader).

Section Build.

(** Whether the build keeps [ASSERT]. *)
Variable debug : bool.

Fixpoint EncodeFids (bitWriter : BitWriter) (prevFid : Z) (fids : list Z)
  : result BitWriter :=
  match fids with
  | [] => Ok bitWriter
  | fid :: fids' =>
      let fidDiff := u32 (fid - prevFid) in
      let '(ok, bitWriter) := GammaCoder.Encode bitWriter (u32 (fidDiff + 1)) in
      _ ← ASSERT debug ok;
      EncodeFids bitWriter fid fids'
  end.

Fixpoint EncodeNumSegs (bitWriter : BitWriter) (numSegs : list Z)
  : result BitWriter :=
  match numSegs with
  | [] => Ok bitWriter
  | s :: numSegs' =>
      let '(ok, bitWriter) := GammaCoder.Encode bitWriter (u64 (s + 1)) in
      _ ← ASSERT debug ok;
      EncodeNumSegs bitWriter numSegs'
  end.

Definition EncodeOneWay (bitWriter : BitWriter) (oneWay : list bool)
  : BitWriter :=
  fold_left
    (fun w (val : bool) => BitWriter_Write w (if val then 1 else 0) 1)
    oneWay bitWriter.

(** The vector [result] is taken empty on entry. *)
Definition SerializeTrafficKeys (keys : list RoadSegmentId)
  : result (list Z) :=
  '(fids, numSegs, oneWay) ← GroupKeys (length keys) keys;
  let memWriter := WriteToSink 1 [] kLatestKeysVersion in
  let memWriter := WriteVarUint memWriter (Z.of_nat (length fids)) in
  let bitWriter := BitWriter_new memWriter in
  bitWriter ← EncodeFids bitWriter 0 fids;
  bitWriter ← EncodeNumSegs bitWriter numSegs;
  let bitWriter := EncodeOneWay bitWriter oneWay in
  Ok (BitWriter_drop bitWriter).

Definition DeserializeTrafficKeys (data : list Z)
  : result (list RoadSegmentId) :=
  '(fids, numSegs, oneWay, src) ← ReadKeyGroups data;
  _ ← ASSERT debug (length src =? 0)%nat;
  Ok (ExpandKeys fids numSegs oneWay).

(** [coding::ZLib] is an external library: [Deflate] and [Inflate] stand for
    the bytes each hands to its output iterator.  Neither caller looks at
    the boolean they return. *)
Variable Deflate : list Z -> list Z.
Variable Inflate : list Z -> list Z.

(** The vector [result] is taken empty on entry. *)
Definition SerializeTrafficValues (values : list SpeedGroup) : list Z :=
  let buf := WriteToSink 1 [] kLatestValuesVersion in
  let buf := WriteVarUint buf (Z.of_nat (length values)) in
  let bitWriter :=
    fold_left (fun w v => BitWriter_Write w (u8 v) 3) values
      (BitWriter_new buf) in
  let buf := BitWriter_drop bitWriter in
  Deflate buf.

Definition DeserializeTrafficValues (data : list Z)
  : result (list SpeedGroup) :=
  let decompressedData := Inflate data in
  '(values, src) ← ReadValueStream decompressedData;
  _ ← ASSERT debug (length src =? 0)%nat;
  Ok values.

End Build.

(** ** The wire format of the keys *)

Fixpoint fids_bits (prevFid : Z) (fids : list Z) : list bool :=
  match fids with
  | [] => []
  | fid :: fids' =>
      gamma_code (u32 (u32 (fid - prevFid) + 1)) ++ fids_bits fid fids'
  end.

Definition numSegs_bits (numSegs : list Z) : list bool :=
  flat_map (fun s => gamma_code (u64 (s + 1))) numSegs.

(** ** The wire format of the values *)

Definition values_bits (values : list SpeedGroup) : list bool :=
  flat_map (fun v => lsb_bits (u8 v) 3) values.

(** ** Key vectors the format can carry *)

(** Modelled from the spec: [RoadSegmentId::operator<] is declared in
    [traffic_info.hpp]; section 3 gives the order as lexicographic on the
    feature id, the segment index and the direction. *)
Definition key_lt (a b : RoadSegmentId) : Prop :=
  m_fid a < m_fid b
  \/ (m_fid a = m_fid b
      /\ (m_idx a < m_idx b \/ (m_idx a = m_idx b /\ m_dir a < m_dir b))).

(** The keys of the feature [fid] with [numSegs] segments, in the order
    [ExtractTrafficKeys] lists them: the segments from index 0 up, each in
    forward direction only for a one-way road, each in forward and then in
    reverse direction otherwise. *)
Definition group_keys (fid : Z) (numSegs : nat) (oneWay : bool)
  : list RoadSegmentId :=
  flat_map
    (fun i : nat =>
       if oneWay
       then [mkRoadSegmentId fid (Z.of_nat i) kForwardDirection]
       else [mkRoadSegmentId fid (Z.of_nat i) kForwardDirection;
             mkRoadSegmentId fid (Z.of_nat i) kReverseDirection])
    (seq 0 numSegs).

(** A key vector made of such groups, one for each feature, the feature
    ids ascending from [lo] and below [2^32 - 1], each group of at least
    one and at most 2^16 segments. *)
Inductive properly_grouped : Z -> list RoadSegmentId -> Prop :=
| properly_grouped_nil lo : properly_grouped lo []
| properly_grouped_cons lo fid numSegs oneWay rest :
    lo <= fid < 2 ^ 32 - 1 ->
    1 <= Z.of_nat numSegs <= 2 ^ 16 ->
    properly_grouped (fid + 1) rest ->
    properly_grouped lo (group_keys fid numSegs oneWay ++ rest).

(** [run] is the group of the feature id [fid] in [pre ++ run ++ post]:
    all the keys of [fid] that stand together there, the key before them
    and the key after them being keys of other features. *)
Definition fid_group (fid : Z) (pre run post : list RoadSegmentId) : Prop :=
  run <> []
  /\ Forall (fun k => m_fid k = fid) run
  /\ (forall pre' k, pre = pre' ++ [k] -> m_fid k <> fid)
  /\ (forall k post', post = k :: post' -> m_fid k <> fid).

(** The three vectors of such a key vector. *)
Inductive key_vectors : Z -> list Z -> list Z -> list bool -> Prop :=
| key_vectors_nil lo : key_vectors lo [] [] []
| key_vectors_cons lo fid s ow fids numSegs oneWay :
    lo <= fid < 2 ^ 32 - 1 ->
    1 <= s <= 2 ^ 16 ->
    key_vectors (fid + 1) fids numSegs oneWay ->
    key_vectors lo (fid :: fids) (s :: numSegs) (ow :: oneWay).

(** ** The order of the keys *)

(** Modelled from the spec: [RoadSegmentId::operator<] is declared in
    [traffic_info.hpp]; section 3 gives the order as lexicographic on the
    feature id, the segment index and the direction. *)
Definition RoadSegmentId_lt (a b : RoadSegmentId) : bool :=
  if negb (m_fid a =? m_fid b) then m_fid a <? m_fid b
  else if negb (m_idx a =? m_idx b) then m_idx a <? m_idx b
  else m_dir a <? m_dir b.

(** [std::is_sorted]: no key is less than its predecessor. *)
Fixpoint is_sorted (keys : list RoadSegmentId) : bool :=
  match keys with
  | [] => true
  | k :: rest =>
      match rest with
      | [] => true
      | k' :: _ => negb (RoadSegmentId_lt k' k) && is_sorted rest
      end
  end.

(** A key whose fields hold what [ExtractTrafficKeys] puts there: a 32-bit
    feature id below [2^32 - 1], a 16-bit segment index and one of the two
    directions. *)
Definition key_in_range (k : RoadSegmentId) : Prop :=
  0 <= m_fid k < 2 ^ 32 - 1
  /\ 0 <= m_idx k < 2 ^ 16
  /\ (m_dir k = kForwardDirection \/ m_dir k = kReverseDirection).

(** ** [ExtractTrafficKeys] *)

Section Extract.

Variable debug : bool.

(** The features of an mwm file and the car model are external
    collaborators: [ForEachFromDat] stands for the features
    [feature::ForEachFromDat] hands to its callback, each with its feature
    id, in the order of the calls; [IsRoad] and [IsOneWay] stand for the
    answers of [routing::CarModel::AllLimitsInstance()]. *)
Variable FeatureType : Type.
Variable ForEachFromDat : string -> list (FeatureType * Z).
Variable IsRoad : FeatureType -> bool.
Variable IsOneWay : FeatureType -> bool.
Variable GetPointsCount : FeatureType -> Z.

(** The callback: the keys of one feature are appended to [result].  The
    number of points is cast to [uint16_t]; [i + 1 < numPoints] is
    evaluated on [int], so [i] runs from 0 to [numPoints - 2]. *)
Definition ExtractFeatureKeys (result : list RoadSegmentId)
  (visit : FeatureType * Z) : list RoadSegmentId :=
  let '(ft, fid) := visit in
  if negb (IsRoad ft) then result
  else
    let numPoints := u16 (GetPointsCount ft) in
    let numDirs := if IsOneWay ft then 1 else 2 in
    result ++
    flat_map
      (fun i => map (fun dir => mkRoadSegmentId fid i dir) (seqZ 0 numDirs))
      (seqZ 0 (numPoints - 1)).

Definition ExtractTrafficKeys (mwmPath : string)
  : result (list RoadSegmentId) :=
  let result := fold_left ExtractFeatureKeys (ForEachFromDat mwmPath) [] in
  _ ← ASSERT debug (is_sorted result);
  Ok result.

End Extract.

(** ** The [TrafficInfo] object *)

Module Availability.

Inductive t : Type :=
| IsAvailable
| NoData
| ExpiredData
| ExpiredApp
| Unknown.

End Availability.

(** What [m_mwmId.GetInfo()] points to, as far as this file reads it. *)
Record MwmInfo : Type := mkMwmInfo {
  GetCountryName : string;
  GetVersion : Z
}.

(** The data members.  [m_mwmId] is kept as the answer of
    [m_mwmId.GetInfo()]: [None] for a null pointer. *)
Record TrafficInfo : Type := mkTrafficInfo {
  m_coloring : gmap RoadSegmentId SpeedGroup;
  m_keys : list RoadSegmentId;
  m_availability : Availability.t;
  m_currentDataVersion : Z;
  m_mwmId : option MwmInfo
}.

Definition with_keys (this : TrafficInfo) (keys : list RoadSegmentId)
  : TrafficInfo :=
  mkTrafficInfo (m_coloring this) keys (m_availability this)
    (m_currentDataVersion this) (m_mwmId this).

Definition with_availability (this : TrafficInfo)
  (availability : Availability.t) : TrafficInfo :=
  mkTrafficInfo (m_coloring this) (m_keys this) availability
    (m_currentDataVersion this) (m_mwmId this).

Definition with_coloring (this : TrafficInfo)
  (coloring : gmap RoadSegmentId SpeedGroup) : TrafficInfo :=
  mkTrafficInfo coloring (m_keys this) (m_availability this)
    (m_currentDataVersion this) (m_mwmId this).

(** [std::map::emplace]: nothing is stored when the key is there. *)
Definition emplace (coloring : gmap RoadSegmentId SpeedGroup)
  (key : RoadSegmentId) (value : SpeedGroup)
  : gmap RoadSegmentId SpeedGroup :=
  match coloring !! key with
  | Some _ => coloring
  | None => <[key := value]> coloring
  end.

(** [for (size_t i = 0; i < m_keys.size(); ++i)
    m_coloring.emplace(m_keys[i], values[i])], run on two vectors of the
    same size. *)
Fixpoint EmplaceLoop (keys : list RoadSegmentId) (values : list SpeedGroup)
  (coloring : gmap RoadSegmentId SpeedGroup)
  : gmap RoadSegmentId SpeedGroup :=
  match keys, values with
  | key :: keys', value :: values' =>
      EmplaceLoop keys' values' (emplace coloring key value)
  | _, _ => coloring
  end.

Section Object.

Variable debug : bool.

(** Modelled from the spec: the enumerators of [SpeedGroup] are declared in
    [traffic/speed_groups.hpp]; [Unknown] is the value kept for a road
    segment without data. *)
Variable Unknown : SpeedGroup.

Variable Inflate : list Z -> list Z.
Variable request_for : string -> HttpClient.
Variable TRAFFIC_DATA_BASE_URL : string.
Variable TRAFFIC_FILE_EXTENSION : string.
Variable UrlEncode : string -> string.

(** [strings::to_int64(s, version)] of [base/string_utils.hpp]: from the
    bytes handed over and the value [version] has on entry, the boolean it
    returns and the value it leaves in [version]. *)
Variable to_int64 : list Z -> Z -> bool * Z.

Definition GetSpeedGroup (this : TrafficInfo) (id : RoadSegmentId)
  : SpeedGroup :=
  match m_coloring this !! id with
  | None => Unknown
  | Some color => color
  end.

(** The boolean [ReceiveTrafficKeys] returns and the object as it leaves
    it.  Only [Reader::Exception] is caught; the version of the mwm is an
    [int64_t] handed over as a [uint64_t]. *)
Definition ReceiveTrafficKeys (this : TrafficInfo)
  : result (bool * TrafficInfo) :=
  match m_mwmId this with
  | None => Ok (false, this)
  | Some info =>
      let url :=
        MakeRemoteURL TRAFFIC_DATA_BASE_URL TRAFFIC_FILE_EXTENSION UrlEncode
          (GetCountryName info) (u64 (GetVersion info)) in
      if string_empty url then Ok (false, this)
      else
        let '(ok, contents, errorCode) :=
          ReadRemoteFile request_for (String.append url ".keys") [] in
        if negb ok then Ok (false, this)
        else if negb (errorCode =? 200) then Ok (false, this)
        else
          match DeserializeTrafficKeys debug contents with
          | Ok keys => Ok (true, with_keys this keys)
          | Err ReaderException => Ok (false, this)
          | Err e => Err e
          end
  end.

(** [ReceiveTrafficValues(values)]: the object as the call leaves it, and
    [Some] of the vector [values] when it returns true, [None] when it
    returns false.  Its caller hands over an empty vector and does not
    look at it after a false. *)
Definition ReceiveTrafficValues (this : TrafficInfo)
  : result (option (list SpeedGroup) * TrafficInfo) :=
  match m_mwmId this with
  | None => Ok (None, this)
  | Some info =>
      let url :=
        MakeRemoteURL TRAFFIC_DATA_BASE_URL TRAFFIC_FILE_EXTENSION UrlEncode
          (GetCountryName info) (u64 (GetVersion info)) in
      if string_empty url then Ok (None, this)
      else
        let '(ok, contents, errorCode) :=
          ReadRemoteFile request_for url [] in
        if negb ok then
          if errorCode =? 404 then
            let '(_, version) := to_int64 contents 0 in
            if (GetVersion info <? version)
               && (version <=? m_currentDataVersion this)
            then Ok (None, with_availability this Availability.ExpiredData)
            else if m_currentDataVersion this <? version
            then Ok (None, with_availability this Availability.ExpiredApp)
            else Ok (None, with_availability this Availability.NoData)
          else Ok (None, with_availability this Availability.Unknown)
        else
          match DeserializeTrafficValues debug Inflate contents with
          | Ok values =>
              Ok (Some values,
                  with_availability this Availability.IsAvailable)
          | Err ReaderException =>
              Ok (None, with_availability this Availability.NoData)
          | Err e => Err e
          end
  end.

Definition ReceiveTrafficData (this : TrafficInfo)
  : result (bool * TrafficInfo) :=
  '(received, this) ← ReceiveTrafficValues this;
  match received with
  | None => Ok (false, this)
  | Some values =>
      if negb (length (m_keys this) =? length values)%nat then
        Ok (false,
            with_coloring (with_availability this Availability.NoData) ∅)
      else
        Ok (true,
            with_coloring this
              (EmplaceLoop (m_keys this) values (m_coloring this)))
  end.

End Object.

End TrafficInfo.

Import TrafficInfo.

Section Colorings.

Variable debug : bool.

(** Modelled from the spec: the enumerators of [SpeedGroup] are declared in
    [traffic/speed_groups.hpp]; [Unknown] is the value kept for a road
    segment without data. *)
Variable Unknown : SpeedGroup.

(** The loop of [CombineColorings]: the map [result] and the counter
    [numUnexpectedKeys], a [size_t].  The counters [numKnown] and
    [numUnknown] only feed the log line. *)
Fixpoint CombineLoop (keys : list RoadSegmentId)
  (knownColors result : gmap RoadSegmentId SpeedGroup)
  (numUnexpectedKeys : Z) : gmap RoadSegmentId SpeedGroup * Z :=
  match keys with
  | [] => (result, numUnexpectedKeys)
  | key :: keys' =>
      match knownColors !! key with
      | None =>
          CombineLoop keys' knownColors (<[key := Unknown]> result)
            numUnexpectedKeys
      | Some color =>
          CombineLoop keys' knownColors (<[key := color]> result)
            (u64 (numUnexpectedKeys - 1))
      end
  end.

Definition CombineColorings (keys : list RoadSegmentId)
  (knownColors : gmap RoadSegmentId SpeedGroup)
  : result (gmap RoadSegmentId SpeedGroup) :=
  let '(result, numUnexpectedKeys) :=
    CombineLoop keys knownColors ∅ (Z.of_nat (size knownColors)) in
  _ ← ASSERT debug (numUnexpectedKeys =? 0);
  Ok result.

End Colorings.

End traffic.

(** * Properties

    The properties follow the layers of the code: bits and bytes, the
    universal codes and the fixed-width arithmetic first; then the
    restriction section (C1, C4), the traffic keys (C2, C8), the traffic
    values with the tests of the version and of surplus bytes (C3, C6,
    C7), the routing header (C5) and the colorings (C9).  The alignment of
    the restrictions (C10) follows further down, with what the
    deserializer does on any source. *)

(** ** The result monad *)

Lemma bind_Ok {A B} (f : A -> result B) (a : A) : (Ok a ≫= f) = f a.
Proof. reflexivity. Qed.

Lemma bind_Err {A B} (f : A -> result B) (e : failure) :
  (Err e ≫= f) = Err e.
Proof. reflexivity. Qed.

(** Rewrite with the equation [H] of a call and continue past its bind. *)
Ltac step_bind H := rewrite H; rewrite bind_Ok; cbn beta iota.

Lemma CHECK_true msg : CHECK true msg = Ok tt.
Proof. reflexivity. Qed.

Lemma ASSERT_true debug : ASSERT debug true = Ok tt.
Proof. unfold ASSERT. now rewrite andb_false_r. Qed.

(** ** Bits and bytes *)

#[local] Arguments bits_of_byte : simpl never.
#[local] Arguments byte_of_bits : simpl never.
#[local] Arguments bytes_of_bits : simpl never.
#[local] Arguments bit_length : simpl never.

Ltac case_bools :=
  repeat match goal with b : bool |- _ => destruct b end.

Lemma bits_of_byte_of_bits (bs : list bool) :
  (length bs <= 8)%nat ->
  bits_of_byte (byte_of_bits bs) = bs ++ repeat false (8 - length bs).
Proof.
  intros Hlen.
  do 9 (destruct bs as [|? bs]; [case_bools; reflexivity|]).
  simpl in Hlen. lia.
Qed.

(** ** The bit writer *)

Lemma write_bits_app w (a b : list bool) :
  write_bits w (a ++ b) = write_bits (write_bits w a) b.
Proof. apply fold_left_app. Qed.

Lemma write_bits_cons w b (bs : list bool) :
  write_bits w (b :: bs) = write_bits (write_bit w b) bs.
Proof. reflexivity. Qed.

Lemma write_bit_sink sink buf b :
  write_bit (mkBitWriter sink buf) b =
  mkBitWriter (sink ++ bw_sink (write_bit (mkBitWriter [] buf) b))
              (bw_buf (write_bit (mkBitWriter [] buf) b)).
Proof.
  unfold write_bit; simpl.
  destruct (length (buf ++ [b]) =? 8)%nat; simpl; [reflexivity|].
  now rewrite app_nil_r.
Qed.

Lemma write_bits_sink (bs : list bool) : forall sink buf,
  write_bits (mkBitWriter sink buf) bs =
  mkBitWriter (sink ++ bw_sink (write_bits (mkBitWriter [] buf) bs))
              (bw_buf (write_bits (mkBitWriter [] buf) bs)).
Proof.
  induction bs as [|b bs IH]; intros sink buf.
  - simpl. now rewrite app_nil_r.
  - rewrite !write_bits_cons.
    rewrite (write_bit_sink sink), IH.
    destruct (write_bit (mkBitWriter [] buf) b) as [s1 b1] eqn:E; simpl.
    rewrite (IH s1 b1); simpl.
    now rewrite app_assoc.
Qed.

Lemma write_bits_short (bs : list bool) : forall sink buf,
  (length (buf ++ bs) < 8)%nat ->
  write_bits (mkBitWriter sink buf) bs = mkBitWriter sink (buf ++ bs).
Proof.
  induction bs as [|b bs IH]; intros sink buf Hlen.
  - simpl. now rewrite app_nil_r.
  - rewrite write_bits_cons. unfold write_bit; simpl.
    rewrite length_app in *; simpl in *.
    destruct (Nat.eqb_spec (length buf + 1) 8); [lia|].
    rewrite IH.
    + now rewrite <- app_assoc.
    + rewrite !length_app; simpl; lia.
Qed.

Lemma write_bits_byte (c : list bool) sink :
  length c = 8%nat ->
  write_bits (mkBitWriter sink []) c = mkBitWriter (sink ++ [byte_of_bits c]) [].
Proof.
  intros Hlen.
  destruct (exists_last (l := c)) as (c' & x & ->).
  { intros ->; discriminate. }
  rewrite length_app in Hlen; simpl in Hlen.
  rewrite write_bits_app, write_bits_short by (simpl; lia).
  simpl. unfold write_bit; simpl.
  rewrite length_app; simpl.
  destruct (Nat.eqb_spec (length c' + 1) 8); [reflexivity|lia].
Qed.

Lemma BitWriter_drop_sink sink w :
  BitWriter_drop (mkBitWriter (sink ++ bw_sink w) (bw_buf w)) =
  sink ++ BitWriter_drop w.
Proof.
  unfold BitWriter_drop; simpl.
  destruct (bw_buf w); [reflexivity|]. now rewrite app_assoc.
Qed.

(** Writing to a fresh writer on [sink] and dropping it appends the bytes
    of the bits to [sink]. *)
Lemma BitWriter_drop_write_bits sink (bs : list bool) :
  BitWriter_drop (write_bits (BitWriter_new sink) bs) = sink ++ bytes_of_bits bs.
Proof.
  unfold BitWriter_new, bytes_of_bits.
  rewrite write_bits_sink, BitWriter_drop_sink. reflexivity.
Qed.

Lemma bytes_of_bits_cons8 (c rest : list bool) :
  length c = 8%nat ->
  bytes_of_bits (c ++ rest) = byte_of_bits c :: bytes_of_bits rest.
Proof.
  intros Hlen. unfold bytes_of_bits, BitWriter_new.
  rewrite write_bits_app, write_bits_byte by assumption.
  rewrite write_bits_sink, BitWriter_drop_sink. reflexivity.
Qed.

Lemma bytes_of_bits_small (bs : list bool) :
  (0 < length bs < 8)%nat -> bytes_of_bits bs = [byte_of_bits bs].
Proof.
  intros Hlen. unfold bytes_of_bits, BitWriter_new.
  rewrite write_bits_short by (simpl; lia). simpl.
  unfold BitWriter_drop; simpl.
  destruct bs; [simpl in Hlen; lia|reflexivity].
Qed.

(** The bytes of a bit stream hold the stream followed by fewer than eight
    zero bits. *)
Lemma bits_of_bytes_of_bits_aux n : forall bs : list bool,
  (length bs <= 8 * n)%nat ->
  exists pad k,
    (pad < 8)%nat /\ (length bs + pad = 8 * k)%nat
    /\ length (bytes_of_bits bs) = k
    /\ flat_map bits_of_byte (bytes_of_bits bs) = bs ++ repeat false pad.
Proof.
  induction n as [|n IH]; intros bs Hlen.
  - destruct bs; [|simpl in Hlen; lia].
    exists 0%nat, 0%nat. repeat split; lia.
  - destruct (le_lt_dec 8 (length bs)) as [Hge|Hlt].
    + assert (Hc : length (firstn 8 bs) = 8%nat) by (rewrite length_firstn; lia).
      destruct (IH (skipn 8 bs)) as (pad & k & Hpad & Hk & Hbytes & Hbits).
      { rewrite length_skipn. lia. }
      exists pad, (S k).
      rewrite <- (firstn_skipn 8 bs) at 2 3 4.
      rewrite bytes_of_bits_cons8 by exact Hc.
      rewrite length_skipn in Hk.
      repeat split; [exact Hpad|lia|simpl; lia|].
      cbn [flat_map]. rewrite Hbits, bits_of_byte_of_bits by lia.
      rewrite Hc. cbn [Nat.sub repeat].
      now rewrite app_nil_r, app_assoc.
    + destruct bs as [|b bs].
      * exists 0%nat, 0%nat. repeat split; lia.
      * exists (8 - length (b :: bs))%nat, 1%nat.
        rewrite bytes_of_bits_small by (simpl in *; lia).
        repeat split; [simpl; lia|simpl in *; lia|].
        cbn [flat_map]. rewrite bits_of_byte_of_bits by lia.
        now rewrite app_nil_r.
Qed.

Lemma bits_of_bytes_of_bits (bs : list bool) :
  exists pad k,
    (pad < 8)%nat /\ (length bs + pad = 8 * k)%nat
    /\ length (bytes_of_bits bs) = k
    /\ flat_map bits_of_byte (bytes_of_bits bs) = bs ++ repeat false pad.
Proof. apply (bits_of_bytes_of_bits_aux (length bs)). lia. Qed.

Lemma emit_bits_write_bits w (bs : list bool) :
  emit_bits w bs = write_bits w bs.
Proof.
  revert w. induction bs as [|b bs IH]; intros w; [reflexivity|].
  change (emit_bits w (b :: bs))
    with (emit_bits (BitWriter_Write w (Z.b2z b) 1) bs).
  rewrite IH, write_bits_cons. f_equal.
  destruct b; reflexivity.
Qed.

(** ** The bit reader *)

Lemma reader_at_new (bs : list bool) (tail : list Z) :
  reader_at (BitReader_new (bytes_of_bits bs ++ tail)) bs tail.
Proof. apply (reader_at_mid [] bs tail). simpl; lia. Qed.

Lemma reader_at_done r (tail : list Z) :
  reader_at r [] tail -> BitReader_drop r = tail.
Proof.
  inversion 1 as [buf bs tl Hlen Hr Hbs Htl | bs pad tl Hlen Hr Hbs Htl]; subst.
  - apply app_eq_nil in Hbs as [-> ->]. reflexivity.
  - reflexivity.
Qed.

Lemma read_bit_pull x (src : list Z) b (buf : list bool) :
  bits_of_byte x = b :: buf ->
  read_bit (mkBitReader (x :: src) []) = Ok (b, mkBitReader src buf).
Proof. intros H. unfold read_bit. cbn [br_buf br_src]. now rewrite H. Qed.

Lemma reader_at_read_bit r b (bs : list bool) (tail : list Z) :
  reader_at r (b :: bs) tail ->
  exists r', read_bit r = Ok (b, r') /\ reader_at r' bs tail.
Proof.
  inversion 1 as [buf bs' tl Hlen Hr Hbs Htl | bs' pad tl Hlen Hr Hbs Htl]; subst.
  - destruct buf as [|b0 buf]; simpl in Hbs.
    + subst bs'.
      destruct (le_lt_dec 8 (length (b :: bs))) as [Hge|Hlt].
      * assert (Hc : length (firstn 8 (b :: bs)) = 8%nat)
          by (rewrite length_firstn; lia).
        assert (Hb : bytes_of_bits (b :: bs) =
                     byte_of_bits (firstn 8 (b :: bs))
                       :: bytes_of_bits (skipn 8 (b :: bs))).
        { rewrite <- bytes_of_bits_cons8 by exact Hc.
          now rewrite firstn_skipn. }
        rewrite Hb.
        eexists; split.
        { apply read_bit_pull.
          rewrite bits_of_byte_of_bits by lia.
          rewrite Hc. simpl repeat. rewrite app_nil_r. reflexivity. }
        simpl skipn. simpl firstn.
        pose proof (reader_at_mid (firstn 7 bs) (skipn 7 bs) tail) as Hmid.
        rewrite firstn_skipn in Hmid. apply Hmid.
        rewrite length_firstn. lia.
      * rewrite bytes_of_bits_small by (simpl in *; lia).
        eexists; split.
        { apply read_bit_pull.
          rewrite bits_of_byte_of_bits by lia. reflexivity. }
        apply reader_at_last.
        rewrite length_app, repeat_length. simpl in *. lia.
    + injection Hbs as -> <-. unfold read_bit; simpl.
      eexists; split; [reflexivity|].
      apply reader_at_mid. simpl in Hlen; lia.
  - unfold read_bit; simpl.
    eexists; split; [reflexivity|].
    apply reader_at_last. simpl in Hlen; lia.
Qed.

Lemma reader_at_Read1 r b (bs : list bool) (tail : list Z) :
  reader_at r (b :: bs) tail ->
  exists r', BitReader_Read r 1 = Ok (Z.b2z b, r') /\ reader_at r' bs tail.
Proof.
  intros H. destruct (reader_at_read_bit _ _ _ _ H) as (r' & Hr & Hat).
  exists r'. split; [|assumption].
  simpl. rewrite Hr; simpl. f_equal. f_equal. lia.
Qed.

(** ** Bits of an integer *)

Lemma lsb_bits_S v k :
  lsb_bits v (S k) = lsb_bits v k ++ [Z.testbit v (Z.of_nat k)].
Proof. unfold lsb_bits. rewrite seq_S, map_app. reflexivity. Qed.

Lemma lsb_bits_cons v k :
  lsb_bits v (S k) = Z.testbit v 0 :: lsb_bits (v / 2) k.
Proof.
  unfold lsb_bits. simpl. f_equal.
  rewrite <- seq_shift, map_map.
  apply map_ext. intros i.
  rewrite Nat2Z.inj_succ, <- Z.div2_div, Z.div2_spec, Z.shiftr_spec by lia.
  reflexivity.
Qed.

Lemma msb_bits_S v k :
  msb_bits v (S k) = Z.testbit v (Z.of_nat k) :: msb_bits v k.
Proof. unfold msb_bits. rewrite lsb_bits_S, rev_app_distr. reflexivity. Qed.

Lemma mod_pow2_succ v k :
  0 <= k ->
  v mod 2 ^ (k + 1) = 2 ^ k * Z.b2z (Z.testbit v k) + v mod 2 ^ k.
Proof.
  intros Hk.
  rewrite Z.testbit_spec' by lia.
  rewrite Z.pow_add_r, Z.pow_1_r by lia.
  rewrite Z.rem_mul_r by lia. lia.
Qed.

Lemma mod_top_bit p n : p <= n < 2 * p -> n mod p = n - p.
Proof. intros H. symmetry. apply Z.mod_unique with 1; lia. Qed.

Lemma bit_length_spec n :
  0 < n -> 2 ^ (Z.of_nat (bit_length n) - 1) <= n < 2 ^ Z.of_nat (bit_length n).
Proof.
  intros Hn. unfold bit_length.
  pose proof (Z.log2_nonneg n).
  rewrite Nat2Z.inj_succ, Z2Nat.id by lia.
  replace (Z.succ (Z.log2 n) - 1) with (Z.log2 n) by lia.
  apply Z.log2_spec. lia.
Qed.

Lemma bit_length_bound n k :
  0 < n < 2 ^ Z.of_nat k -> (1 <= bit_length n <= k)%nat.
Proof.
  intros Hn. unfold bit_length.
  assert (Z.log2 n < Z.of_nat k) by (apply Z.log2_lt_pow2; lia).
  pose proof (Z.log2_nonneg n). lia.
Qed.

Lemma msb_bits_top n :
  0 < n ->
  msb_bits n (bit_length n) = true :: msb_bits n (bit_length n - 1).
Proof.
  intros Hn. unfold bit_length at 1.
  rewrite msb_bits_S. f_equal.
  - pose proof (Z.log2_nonneg n). rewrite Z2Nat.id by lia.
    apply Z.bit_log2. lia.
  - f_equal. unfold bit_length. lia.
Qed.

(** ** Decoding what was encoded *)

Lemma read_msb_spec k : forall v acc r (bs : list bool) (tail : list Z),
  reader_at r (msb_bits v k ++ bs) tail ->
  exists r',
    GammaCoder.read_msb k acc r = Ok (acc * 2 ^ Z.of_nat k + v mod 2 ^ Z.of_nat k, r')
    /\ reader_at r' bs tail.
Proof.
  induction k as [|k IH]; intros v acc r bs tail Hat.
  - exists r. split; [|exact Hat].
    simpl. rewrite Z.mod_1_r. f_equal. f_equal. lia.
  - rewrite msb_bits_S in Hat. cbn [app] in Hat.
    destruct (reader_at_Read1 _ _ _ _ Hat) as (r1 & Hr1 & Hat1).
    destruct (IH v (2 * acc + Z.b2z (Z.testbit v (Z.of_nat k))) r1 bs tail Hat1)
      as (r2 & Hr2 & Hat2).
    exists r2. split; [|exact Hat2].
    change (GammaCoder.read_msb (S k) acc r)
      with ('(v, r1) ← BitReader_Read r 1; GammaCoder.read_msb k (2 * acc + v) r1).
    rewrite Hr1. simpl mbind. unfold result_bind. rewrite Hr2.
    f_equal. f_equal.
    rewrite Nat2Z.inj_succ, <- Z.add_1_r.
    rewrite (mod_pow2_succ v (Z.of_nat k)) by lia.
    rewrite Z.pow_add_r by lia. lia.
Qed.

Lemma leading_zeros_spec z : forall fuel z0 r (bs : list bool) (tail : list Z),
  (z < fuel)%nat ->
  reader_at r (repeat false z ++ true :: bs) tail ->
  exists r',
    GammaCoder.leading_zeros fuel z0 r = Ok ((z0 + z)%nat, r')
    /\ reader_at r' bs tail.
Proof.
  induction z as [|z IH]; intros fuel z0 r bs tail Hfuel Hat;
    (destruct fuel as [|fuel]; [lia|]); cbn [repeat] in Hat; cbn [app] in Hat;
    destruct (reader_at_Read1 _ _ _ _ Hat) as (r1 & Hr1 & Hat1);
    change (GammaCoder.leading_zeros (S fuel) z0 r)
      with ('(v, r1) ← BitReader_Read r 1;
            if v =? 0 then GammaCoder.leading_zeros fuel (S z0) r1
            else Ok (z0, r1));
    rewrite Hr1; simpl.
  - exists r1. split; [|exact Hat1]. f_equal. f_equal. lia.
  - destruct (IH fuel (S z0) r1 bs tail ltac:(lia) Hat1) as (r2 & Hr2 & Hat2).
    exists r2. split; [|exact Hat2]. rewrite Hr2. f_equal. f_equal. lia.
Qed.

Lemma encodable_spec n : encodable n = true <-> 1 <= n < 2 ^ 64.
Proof. unfold encodable. rewrite andb_true_iff. lia. Qed.

Lemma GammaCoder_Decode_bits n r (bs : list bool) (tail : list Z) :
  encodable n = true ->
  reader_at r (gamma_bits n ++ bs) tail ->
  exists r', GammaCoder.Decode r = Ok (n, r') /\ reader_at r' bs tail.
Proof.
  intros Hn Hat. apply encodable_spec in Hn.
  unfold gamma_bits in Hat.
  rewrite msb_bits_top in Hat by lia.
  rewrite <- app_assoc in Hat. cbn [app] in Hat.
  pose proof (bit_length_bound n 64 ltac:(lia)) as Hlen.
  destruct (leading_zeros_spec (bit_length n - 1) 64%nat 0%nat _ _ _
              ltac:(lia) Hat) as (r1 & Hr1 & Hat1).
  destruct (read_msb_spec _ n 1 _ _ _ Hat1) as (r2 & Hr2 & Hat2).
  exists r2. split; [|exact Hat2].
  unfold GammaCoder.Decode. step_bind Hr1. rewrite Nat.add_0_l, Hr2.
  f_equal. f_equal.
  pose proof (bit_length_spec n ltac:(lia)) as Hspec.
  replace (Z.of_nat (bit_length n - 1)) with (Z.of_nat (bit_length n) - 1) by lia.
  set (p := 2 ^ (Z.of_nat (bit_length n) - 1)) in *.
  replace (2 ^ Z.of_nat (bit_length n)) with (2 * p) in Hspec.
  2:{ unfold p. rewrite <- Z.pow_succ_r by lia. f_equal. lia. }
  rewrite (mod_top_bit p n) by lia. lia.
Qed.

Lemma DeltaCoder_Decode_bits n r (bs : list bool) (tail : list Z) :
  encodable n = true ->
  reader_at r (delta_bits n ++ bs) tail ->
  exists r', DeltaCoder.Decode r = Ok (n, r') /\ reader_at r' bs tail.
Proof.
  intros Hn Hat. apply encodable_spec in Hn.
  unfold delta_bits in Hat. rewrite <- app_assoc in Hat.
  pose proof (bit_length_bound n 64 ltac:(lia)) as Hlen.
  assert (Hl : encodable (Z.of_nat (bit_length n)) = true)
    by (apply encodable_spec; lia).
  destruct (GammaCoder_Decode_bits _ _ _ _ Hl Hat) as (r1 & Hr1 & Hat1).
  replace (bit_length n - 1)%nat
    with (Z.to_nat (Z.of_nat (bit_length n) - 1)) in Hat1 by lia.
  destruct (read_msb_spec _ n 1 _ _ _ Hat1) as (r2 & Hr2 & Hat2).
  exists r2. split; [|exact Hat2].
  unfold DeltaCoder.Decode. step_bind Hr1.
  destruct (Z.leb_spec (Z.of_nat (bit_length n)) 64); [|lia].
  rewrite Hr2. f_equal. f_equal.
  pose proof (bit_length_spec n ltac:(lia)) as Hspec.
  rewrite Z2Nat.id by lia.
  set (p := 2 ^ (Z.of_nat (bit_length n) - 1)) in *.
  replace (2 ^ Z.of_nat (bit_length n)) with (2 * p) in Hspec.
  2:{ unfold p. rewrite <- Z.pow_succ_r by lia. f_equal. lia. }
  rewrite (mod_top_bit p n) by lia. lia.
Qed.

(** What [Encode] does to the writer. *)
Lemma GammaCoder_Encode_code w v :
  GammaCoder.Encode w v = (encodable v, write_bits w (gamma_code v)).
Proof.
  unfold GammaCoder.Encode, gamma_code.
  destruct (encodable v); [|reflexivity].
  now rewrite emit_bits_write_bits.
Qed.

Lemma DeltaCoder_Encode_code w v :
  DeltaCoder.Encode w v = (encodable v, write_bits w (delta_code v)).
Proof.
  unfold DeltaCoder.Encode, delta_code.
  destruct (encodable v) eqn:Hv; [|reflexivity].
  apply encodable_spec in Hv.
  pose proof (bit_length_bound v 64 ltac:(lia)) as Hlen.
  rewrite GammaCoder_Encode_code. unfold gamma_code.
  replace (encodable (Z.of_nat (bit_length v))) with true
    by (symmetry; apply encodable_spec; lia).
  rewrite emit_bits_write_bits. unfold delta_bits.
  now rewrite write_bits_app.
Qed.

Lemma GammaCoder_Decode_code n r (bs : list bool) (tail : list Z) :
  encodable n = true ->
  reader_at r (gamma_code n ++ bs) tail ->
  exists r', GammaCoder.Decode r = Ok (n, r') /\ reader_at r' bs tail.
Proof.
  intros Hn. unfold gamma_code. rewrite Hn.
  now apply GammaCoder_Decode_bits.
Qed.

Lemma DeltaCoder_Decode_code n r (bs : list bool) (tail : list Z) :
  encodable n = true ->
  reader_at r (delta_code n ++ bs) tail ->
  exists r', DeltaCoder.Decode r = Ok (n, r') /\ reader_at r' bs tail.
Proof.
  intros Hn. unfold delta_code. rewrite Hn.
  now apply DeltaCoder_Decode_bits.
Qed.

(** [Read(k)] gives back the low [k] bits that [Write(value, k)] wrote. *)
Lemma BitReader_Read_lsb k : forall v r (bs : list bool) (tail : list Z),
  reader_at r (lsb_bits v k ++ bs) tail ->
  exists r',
    BitReader_Read r k = Ok (v mod 2 ^ Z.of_nat k, r') /\ reader_at r' bs tail.
Proof.
  induction k as [|k IH]; intros v r bs tail Hat.
  - exists r. split; [|exact Hat]. simpl. now rewrite Z.mod_1_r.
  - rewrite lsb_bits_cons in Hat. cbn [app] in Hat.
    destruct (reader_at_read_bit _ _ _ _ Hat) as (r1 & Hr1 & Hat1).
    destruct (IH _ _ _ _ Hat1) as (r2 & Hr2 & Hat2).
    exists r2. split; [|exact Hat2].
    change (BitReader_Read r (S k))
      with ('(b, r1) ← read_bit r; '(v, r2) ← BitReader_Read r1 k;
            Ok (Z.b2z b + 2 * v, r2)).
    step_bind Hr1. step_bind Hr2. f_equal. f_equal.
    rewrite Nat2Z.inj_succ, Z.pow_succ_r by lia.
    rewrite Z.rem_mul_r by lia.
    rewrite Z.bit0_mod. lia.
Qed.

(** *** The codes by themselves *)

(** For [1 <= n < 2^64] the gamma code and the delta code of [n], written
    by a writer of their own and read by a reader of its own, decode to
    [n]. *)
Lemma GammaCoder_roundtrip n :
  encodable n = true ->
  exists r,
    GammaCoder.Decode
      (BitReader_new (BitWriter_drop (GammaCoder.Encode (BitWriter_new []) n).2))
    = Ok (n, r).
Proof.
  intros Hn. rewrite GammaCoder_Encode_code. cbn [snd].
  rewrite BitWriter_drop_write_bits. cbn [app].
  pose proof (reader_at_new (gamma_code n) []) as Hat.
  rewrite app_nil_r in Hat.
  rewrite <- (app_nil_r (gamma_code n)) in Hat at 2.
  destruct (GammaCoder_Decode_code _ _ _ _ Hn Hat) as (r & Hr & _).
  exists r. exact Hr.
Qed.

Lemma DeltaCoder_roundtrip n :
  encodable n = true ->
  exists r,
    DeltaCoder.Decode
      (BitReader_new (BitWriter_drop (DeltaCoder.Encode (BitWriter_new []) n).2))
    = Ok (n, r).
Proof.
  intros Hn. rewrite DeltaCoder_Encode_code. cbn [snd].
  rewrite BitWriter_drop_write_bits. cbn [app].
  pose proof (reader_at_new (delta_code n) []) as Hat.
  rewrite app_nil_r in Hat.
  rewrite <- (app_nil_r (delta_code n)) in Hat at 2.
  destruct (DeltaCoder_Decode_code _ _ _ _ Hn Hat) as (r & Hr & _).
  exists r. exact Hr.
Qed.

(** Zero is refused, and nothing is written for it. *)
Lemma Encode_zero w :
  GammaCoder.Encode w 0 = (false, w) /\ DeltaCoder.Encode w 0 = (false, w).
Proof. split; reflexivity. Qed.

(** Scenario S5 of the specification. *)
Example gamma_code_5 :
  gamma_bits 5 = [false; false; true; false; true]
  /\ exists r, GammaCoder.Decode (BitReader_new (bytes_of_bits (gamma_bits 5)))
               = Ok (5, r).
Proof. split; [reflexivity|]. eexists. vm_compute. reflexivity. Qed.

(** ** Fixed-width arithmetic *)

(** Linear arithmetic with the divisions and remainders by the constants
    [2^8] ... [2^64] spelled out. *)
Ltac wrap_lia :=
  unfold u8, u16, u32, u64, i32, is_u8, is_u16, is_u32, is_u64 in *;
  change (2 ^ 8) with 256 in *;
  change (2 ^ 16) with 65536 in *;
  change (2 ^ 31) with 2147483648 in *;
  change (2 ^ 32) with 4294967296 in *;
  change (2 ^ 64) with 18446744073709551616 in *;
  Z.to_euclidean_division_equations; lia.

Lemma u32_small x : 0 <= x < 2 ^ 32 -> u32 x = x.
Proof. intros. apply Z.mod_small. assumption. Qed.

Lemma u64_small x : 0 <= x < 2 ^ 64 -> u64 x = x.
Proof. intros. apply Z.mod_small. assumption. Qed.

Lemma u16_small x : 0 <= x < 2 ^ 16 -> u16 x = x.
Proof. intros. apply Z.mod_small. assumption. Qed.

Lemma u8_small x : 0 <= x < 2 ^ 8 -> u8 x = x.
Proof. intros. apply Z.mod_small. assumption. Qed.

Lemma i32_range x : - 2 ^ 31 <= i32 x < 2 ^ 31.
Proof. wrap_lia. Qed.

(** ** Zig-zag *)

Lemma ZigZagEncode_val x :
  - 2 ^ 31 <= x < 2 ^ 31 ->
  bits.ZigZagEncode x = if 0 <=? x then 2 * x else - 2 * x - 1.
Proof.
  intros Hx. unfold bits.ZigZagEncode.
  rewrite Z.shiftl_mul_pow2, Z.shiftr_div_pow2 by lia.
  destruct (Z.leb_spec 0 x).
  - rewrite Z.div_small by lia. rewrite Z.lxor_0_r. wrap_lia.
  - replace (x / 2 ^ 31) with (-1) by wrap_lia.
    rewrite Z.lxor_m1_r. unfold Z.lnot. wrap_lia.
Qed.

Lemma ZigZagDecode_val x :
  0 <= x < 2 ^ 32 ->
  bits.ZigZagDecode x = if Z.even x then x / 2 else - (x / 2) - 1.
Proof.
  intros Hx. unfold bits.ZigZagDecode.
  rewrite Z.shiftr_div_pow2 by lia.
  change 1 with (Z.ones 1) at 2. rewrite Z.land_ones by lia.
  change (2 ^ 1) with 2.
  rewrite Zmod_even. destruct (Z.even x).
  - simpl Z.opp. rewrite Z.lxor_0_r. wrap_lia.
  - change (- (1)) with (-1). rewrite Z.lxor_m1_r. unfold Z.lnot. wrap_lia.
Qed.

Lemma ZigZagEncode_range x :
  - 2 ^ 31 <= x < 2 ^ 31 -> 0 <= bits.ZigZagEncode x < 2 ^ 32.
Proof.
  intros Hx. rewrite ZigZagEncode_val by assumption.
  destruct (Z.leb_spec 0 x); lia.
Qed.

Lemma ZigZagEncode_max x :
  - 2 ^ 31 <= x < 2 ^ 31 ->
  bits.ZigZagEncode x = 2 ^ 32 - 1 <-> x = - 2 ^ 31.
Proof.
  intros Hx. rewrite ZigZagEncode_val by assumption.
  destruct (Z.leb_spec 0 x); lia.
Qed.

Lemma ZigZag_roundtrip x :
  - 2 ^ 31 <= x < 2 ^ 31 -> bits.ZigZagDecode (bits.ZigZagEncode x) = x.
Proof.
  intros Hx.
  rewrite ZigZagDecode_val by (apply ZigZagEncode_range; assumption).
  rewrite ZigZagEncode_val by assumption.
  destruct (Z.leb_spec 0 x).
  - rewrite Z.even_mul. simpl. wrap_lia.
  - replace (- 2 * x - 1) with (1 + 2 * (- x - 1)) by lia.
    rewrite Z.even_add_mul_2. simpl. wrap_lia.
Qed.

(** The delta of one link: what the serializer hands to the delta coder
    and what the deserializer makes of it. *)
Lemma link_delta_roundtrip fid prev :
  is_u32 fid -> is_u32 prev -> u32 (fid - prev) <> 2 ^ 31 ->
  let delta := bits.ZigZagEncode (i32 (i32 fid - i32 prev)) in
  0 <= delta < 2 ^ 32 - 1
  /\ u32 (bits.ZigZagDecode delta + prev) = fid.
Proof.
  intros Hfid Hprev Hne delta.
  pose proof (i32_range (i32 fid - i32 prev)) as Hr.
  pose proof (ZigZagEncode_range _ Hr) as Hd.
  pose proof (ZigZagEncode_max _ Hr) as Hmax.
  fold delta in Hd, Hmax.
  split.
  - assert (i32 (i32 fid - i32 prev) <> - 2 ^ 31) by wrap_lia.
    assert (delta <> 2 ^ 32 - 1) by tauto. lia.
  - unfold delta. rewrite ZigZag_roundtrip by assumption. wrap_lia.
Qed.

(** ** Little-endian fixed-width integers *)

Lemma le_bytes_length width : forall v, length (le_bytes width v) = width.
Proof. induction width as [|w IH]; intros v; simpl; [reflexivity|]. now rewrite IH. Qed.

Lemma le_value_le_bytes width : forall v,
  le_value (le_bytes width v) = v mod 256 ^ Z.of_nat width.
Proof.
  induction width as [|w IH]; intros v.
  - simpl. now rewrite Z.mod_1_r.
  - cbn [le_bytes le_value]. rewrite IH.
    rewrite Nat2Z.inj_succ, Z.pow_succ_r by lia.
    rewrite (Z.rem_mul_r v 256) by lia. lia.
Qed.

Lemma ReadPrimitiveFromSource_le_bytes width v (rest : list Z) :
  ReadPrimitiveFromSource width (le_bytes width v ++ rest) =
  Ok (v mod 256 ^ Z.of_nat width, rest).
Proof.
  unfold ReadPrimitiveFromSource.
  rewrite length_app, le_bytes_length.
  destruct (Nat.leb_spec width (width + length rest)); [|lia].
  rewrite firstn_app, skipn_app, le_bytes_length, Nat.sub_diag.
  rewrite firstn_all2, skipn_all2 by (rewrite le_bytes_length; lia).
  simpl. rewrite app_nil_r, le_value_le_bytes. reflexivity.
Qed.

(** ** Variable-length unsigned integers *)

Lemma read_varuint_bytes fuel : forall v shift acc (rest : list Z),
  (0 < fuel)%nat -> 0 <= v < 128 ^ Z.of_nat fuel -> 0 <= shift ->
  read_varuint (varuint_bytes fuel v ++ rest) shift acc =
  Ok (acc + v * 2 ^ shift, rest).
Proof.
  induction fuel as [|fuel IH]; intros v shift acc rest Hfuel Hv Hs.
  - lia.
  - cbn [varuint_bytes].
    rewrite Nat2Z.inj_succ, Z.pow_succ_r in Hv by lia.
    destruct (Z.ltb_spec v 128) as [Hlt|Hge].
    + cbn [app read_varuint].
      destruct (Z.ltb_spec v 128); [|lia].
      rewrite Z.mod_small by lia. reflexivity.
    + cbn [app read_varuint].
      assert (Hm : 0 <= v mod 128 < 128) by (apply Z.mod_pos_bound; lia).
      destruct (Z.ltb_spec (v mod 128 + 128) 128); [lia|].
      rewrite IH.
      * f_equal. f_equal.
        replace ((v mod 128 + 128) mod 128) with (v mod 128).
        2:{ clear. Z.to_euclidean_division_equations; lia. }
        rewrite Z.pow_add_r by lia. change (2 ^ 7) with 128.
        pose proof (Z.div_mod v 128 ltac:(lia)). nia.
      * destruct fuel; [simpl in Hv; lia|lia].
      * split; [apply Z.div_pos; lia|].
        apply Z.div_lt_upper_bound; lia.
      * lia.
Qed.

Lemma ReadVarUint_varuint_bytes width v (rest : list Z) :
  0 <= v < 2 ^ 64 ->
  ReadVarUint width (varuint_bytes 10 (u64 v) ++ rest)
  = Ok (v mod 2 ^ width, rest).
Proof.
  intros Hv. unfold ReadVarUint. rewrite u64_small by assumption.
  rewrite read_varuint_bytes.
  - simpl. f_equal. f_equal. f_equal. lia.
  - lia.
  - change (128 ^ Z.of_nat 10) with (2 ^ 70).
    split; [lia|]. apply Z.lt_trans with (2 ^ 64); [lia|reflexivity].
  - lia.
Qed.

(** ** The restriction section *)

Section RestrictionCodec.

Import routing feature feature.RestrictionSerializer.

(** *** The serializer writes the wire format *)

Lemma SerializeLinks_bits featureIds : forall w prev,
  SerializeLinks w prev featureIds = write_bits w (links_bits prev featureIds).
Proof.
  induction featureIds as [|fid rest IH]; intros w prev; [reflexivity|].
  cbn [SerializeLinks links_bits].
  rewrite DeltaCoder_Encode_code, IH, write_bits_app. reflexivity.
Qed.

Lemma SerializeRestriction_block prev restriction (sink : list Z) :
  SerializeRestriction prev restriction sink =
  sink ++ bytes_of_bits (restriction_bits prev restriction).
Proof.
  unfold SerializeRestriction, restriction_bits.
  rewrite DeltaCoder_Encode_code, SerializeLinks_bits, <- write_bits_app.
  apply BitWriter_drop_write_bits.
Qed.

Lemma SerializeLoop_blocks type rs : forall prev (sink out : list Z),
  SerializeLoop type prev rs sink = Ok out ->
  out = sink ++ concat (restriction_blocks prev rs).
Proof.
  induction rs as [|r rest IH]; intros prev sink out H.
  - simpl in H. injection H as <-. simpl. now rewrite app_nil_r.
  - cbn [SerializeLoop] in H.
    destruct (CHECK (type_eqb type (m_type r)) _); [|discriminate].
    destruct (CHECK (IsValid r) _); [|discriminate].
    destruct (CHECK _ _); [|discriminate].
    cbn [mbind result_bind] in H.
    apply IH in H. rewrite H, SerializeRestriction_block.
    cbn [restriction_blocks concat]. now rewrite app_assoc.
Qed.

Lemma well_formed_IsValid r : well_formed r -> IsValid r = true.
Proof.
  intros (Hlen & _ & Hfids). unfold IsValid.
  apply andb_true_intro. split.
  - apply Nat.leb_le. exact Hlen.
  - apply forallb_forall. intros fid Hin.
    rewrite Forall_forall in Hfids. specialize (Hfids fid).
    rewrite list_elem_of_In in Hfids. specialize (Hfids Hin).
    apply negb_true_iff, Z.eqb_neq. lia.
Qed.

Lemma SerializeLoop_ok type rs : forall prev (sink : list Z),
  Forall (fun r => m_type r = type /\ well_formed r) rs ->
  SerializeLoop type prev rs sink =
  Ok (sink ++ concat (restriction_blocks prev rs)).
Proof.
  induction rs as [|r rest IH]; intros prev sink Hrs.
  - simpl. now rewrite app_nil_r.
  - apply Forall_cons in Hrs as [[Htype Hwf] Hrest].
    cbn [SerializeLoop].
    unfold type_eqb. rewrite Htype, Z.eqb_refl, CHECK_true, bind_Ok.
    rewrite (well_formed_IsValid _ Hwf), CHECK_true, bind_Ok.
    destruct Hwf as (Hlen & _).
    destruct (Nat.ltb_spec 1 (length (m_featureIds r))); [|lia].
    rewrite CHECK_true, bind_Ok.
    rewrite IH by assumption. rewrite SerializeRestriction_block.
    cbn [restriction_blocks concat]. now rewrite app_assoc.
Qed.

(** *** The deserializer reads it back *)

Lemma DeserializeLinks_bits featureIds :
  forall prev r (bs : list bool) (tail : list Z),
  Forall (fun fid => 0 <= fid < kInvalidFeatureId) featureIds ->
  is_u32 prev ->
  links_fit prev featureIds ->
  reader_at r (links_bits prev featureIds ++ bs) tail ->
  exists r',
    DeserializeLinks (length featureIds) r prev = Ok (Some featureIds, r')
    /\ reader_at r' bs tail.
Proof.
  induction featureIds as [|fid rest IH]; intros prev r bs tail Hfids Hprev Hfit Hat.
  - exists r. split; [reflexivity|exact Hat].
  - apply Forall_cons in Hfids as [Hfid Hrest].
    destruct Hfit as [Hd Hfit].
    assert (Hu : is_u32 fid) by (unfold is_u32, kInvalidFeatureId in *; lia).
    destruct (link_delta_roundtrip fid prev Hu Hprev Hd) as [Hrange Hback].
    set (delta := bits.ZigZagEncode (i32 (i32 fid - i32 prev))) in *.
    cbn [links_bits] in Hat. fold delta in Hat.
    rewrite <- app_assoc in Hat.
    rewrite (u32_small (delta + 1)) in Hat by lia.
    assert (He : encodable (delta + 1) = true) by (apply encodable_spec; lia).
    destruct (DeltaCoder_Decode_code _ _ _ _ He Hat) as (r1 & Hr1 & Hat1).
    destruct (IH fid r1 bs tail Hrest Hu Hfit Hat1) as (r2 & Hr2 & Hat2).
    exists r2. split; [|exact Hat2].
    cbn [length DeserializeLinks]. step_bind Hr1.
    rewrite (u32_small (delta + 1)) by lia.
    destruct (Z.eqb_spec (delta + 1) 0); [lia|].
    replace (delta + 1 - 1) with delta by lia.
    rewrite (u32_small delta) by lia.
    rewrite Hback. step_bind Hr2. reflexivity.
Qed.

Lemma DeserializeRestriction_block type prev restriction (tail : list Z) :
  m_type restriction = type ->
  well_formed restriction ->
  is_u32 prev ->
  links_fit prev (m_featureIds restriction) ->
  DeserializeRestriction type prev
    (bytes_of_bits (restriction_bits prev restriction) ++ tail)
  = Ok (Some restriction, tail).
Proof.
  intros Htype (Hlen & Hlt & Hfids) Hprev Hfit.
  destruct restriction as [ty fids]; cbn [m_type m_featureIds] in *. subst ty.
  pose proof (reader_at_new (restriction_bits prev (mkRestriction type fids)) tail) as Hat.
  unfold restriction_bits in Hat at 2. cbn [m_featureIds] in Hat.
  set (n := Z.of_nat (length fids)) in *.
  rewrite (u64_small (n - 1)) in Hat by (unfold n; lia).
  assert (He : encodable (n - 1) = true) by (apply encodable_spec; unfold n; lia).
  destruct (DeltaCoder_Decode_code _ _ _ _ He Hat) as (r1 & Hr1 & Hat1).
  rewrite <- (app_nil_r (links_bits prev fids)) in Hat1.
  destruct (DeserializeLinks_bits _ _ _ _ _ Hfids Hprev Hfit Hat1)
    as (r2 & Hr2 & Hat2).
  unfold DeserializeRestriction. step_bind Hr1.
  rewrite (u32_small (n - 1)) by (unfold n; lia).
  destruct (Z.eqb_spec (n - 1) 0); [unfold n in *; lia|].
  replace (n - 1 + 1) with n by lia.
  rewrite (u32_small n) by (unfold n; lia).
  unfold n. rewrite Nat2Z.id. step_bind Hr2.
  rewrite (reader_at_done _ _ Hat2).
  destruct fids; [simpl in Hlen; lia|reflexivity].
Qed.

Lemma well_formed_first r :
  well_formed r -> is_u32 (hd 0 (m_featureIds r)).
Proof.
  intros (Hlen & _ & Hfids).
  destruct (m_featureIds r) as [|fid rest]; [simpl in Hlen; lia|].
  apply Forall_cons in Hfids as [Hfid _].
  unfold is_u32, kInvalidFeatureId in *. simpl. lia.
Qed.

Lemma DeserializeLoop_blocks type rs :
  forall prev (acc : list Restriction) (tail : list Z),
  Forall (fun r => m_type r = type /\ well_formed r) rs ->
  is_u32 prev ->
  group_fits prev rs ->
  DeserializeLoop type (length rs) prev acc
    (concat (restriction_blocks prev rs) ++ tail)
  = Ok (true, acc ++ rs, tail).
Proof.
  induction rs as [|r rest IH]; intros prev acc tail Hrs Hprev Hfit.
  - simpl. now rewrite app_nil_r.
  - apply Forall_cons in Hrs as [[Htype Hwf] Hrest].
    destruct Hfit as [Hlinks Hfit].
    cbn [length DeserializeLoop restriction_blocks concat].
    rewrite <- app_assoc.
    rewrite DeserializeRestriction_block by assumption.
    rewrite bind_Ok. cbn beta iota.
    rewrite IH by (try assumption; now apply well_formed_first).
    now rewrite <- app_assoc.
Qed.

Lemma is_sorted_tail r (rs : list Restriction) :
  is_sorted (r :: rs) = true -> is_sorted rs = true.
Proof.
  destruct rs as [|r' rs]; [reflexivity|].
  cbn [is_sorted]. intros H. apply andb_true_iff in H as [_ H]. exact H.
Qed.

Lemma is_sorted_app (a b : list Restriction) :
  is_sorted (a ++ b) = true -> is_sorted a = true /\ is_sorted b = true.
Proof.
  induction a as [|r a IH]; intros H; [split; [reflexivity|exact H]|].
  pose proof (is_sorted_tail _ _ H) as Ht.
  destruct (IH Ht) as [Ha Hb]. split; [|exact Hb].
  destruct a as [|r' a]; [reflexivity|].
  cbn [is_sorted app] in *.
  apply andb_true_iff in H as [H _]. now rewrite H, Ha.
Qed.

Lemma SerializeSingleType_ok type (rs : list Restriction) (sink : list Z) :
  is_sorted rs = true ->
  Forall (fun r => m_type r = type /\ well_formed r) rs ->
  SerializeSingleType rs sink = Ok (sink ++ concat (restriction_blocks 0 rs)).
Proof.
  intros Hsorted Hrs. unfold SerializeSingleType.
  destruct rs as [|r rest] eqn:E; [simpl; now rewrite app_nil_r|].
  rewrite Hsorted, CHECK_true, bind_Ok.
  pose proof Hrs as Hrs'. apply Forall_cons in Hrs' as [[Htype _] _].
  rewrite Htype. now apply SerializeLoop_ok.
Qed.

(** Feature ids below 2^31 never are 2^31 apart. *)
Lemma links_fit_small featureIds : forall prev,
  0 <= prev < 2 ^ 31 ->
  Forall (fun fid => 0 <= fid < 2 ^ 31) featureIds ->
  links_fit prev featureIds.
Proof.
  induction featureIds as [|fid rest IH]; intros prev Hprev Hfids;
    [exact I|].
  apply Forall_cons in Hfids as [Hfid Hrest].
  split; [|now apply IH].
  unfold delta_fits. wrap_lia.
Qed.

Lemma group_fits_small rs : forall prev,
  0 <= prev < 2 ^ 31 ->
  Forall (fun r => Forall (fun fid => 0 <= fid < 2 ^ 31) (m_featureIds r)) rs ->
  group_fits prev rs.
Proof.
  induction rs as [|r rest IH]; intros prev Hprev Hrs; [exact I|].
  apply Forall_cons in Hrs as [Hr Hrest].
  split; [now apply links_fit_small|].
  apply IH; [|exact Hrest].
  destruct (m_featureIds r) as [|fid fids]; [simpl; lia|].
  apply Forall_cons in Hr as [Hfid _]. exact Hfid.
Qed.

(** *** Round trip *)

(** C1, as amended.  Let [rs] be a sorted restriction vector whose first
    [firstOnly] entries are all [No] and whose other entries are all
    [Only], in which every restriction has at least two and fewer than
    2^32 feature ids, each a 32-bit value other than [kInvalidFeatureId],
    and in which no feature id differs by 2^31 modulo 2^32 from the id
    before it in the delta chain of its group.  Then [Serialize] succeeds,
    and [Deserialize], given a header with the two counts, reads the bytes
    back to exactly [rs] (the [No] entries first) and leaves nothing of the
    source. *)
Theorem restrictions_roundtrip (rs : list Restriction) (firstOnly : nat)
  (header : RoutingHeader) :
  is_sorted rs = true ->
  Forall (fun r => m_type r = No) (firstn firstOnly rs) ->
  Forall (fun r => m_type r = Only) (skipn firstOnly rs) ->
  Forall well_formed rs ->
  group_fits 0 (firstn firstOnly rs) ->
  group_fits 0 (skipn firstOnly rs) ->
  m_noRestrictionCount header = Z.of_nat (length (firstn firstOnly rs)) ->
  m_onlyRestrictionCount header = Z.of_nat (length (skipn firstOnly rs)) ->
  exists bytes,
    Serialize rs firstOnly [] = Ok bytes
    /\ Deserialize header [] bytes = Ok (rs, []).
Proof.
  intros Hsorted Hno Honly Hwf Hfit1 Hfit2 Hc1 Hc2.
  rewrite <- (firstn_skipn firstOnly rs) in Hsorted, Hwf.
  apply is_sorted_app in Hsorted as [Hs1 Hs2].
  apply Forall_app in Hwf as [Hwf1 Hwf2].
  assert (H1 : Forall (fun r => m_type r = No /\ well_formed r)
                      (firstn firstOnly rs)).
  { rewrite Forall_forall in *. intros r Hr. split; auto. }
  assert (H2 : Forall (fun r => m_type r = Only /\ well_formed r)
                      (skipn firstOnly rs)).
  { rewrite Forall_forall in *. intros r Hr. split; auto. }
  eexists. split.
  - unfold Serialize.
    rewrite (SerializeSingleType_ok No) by assumption. rewrite bind_Ok.
    rewrite (SerializeSingleType_ok Only) by assumption. reflexivity.
  - unfold Deserialize, DeserializeSingleType.
    rewrite Hc1, Hc2, !Nat2Z.id. cbn [app].
    rewrite DeserializeLoop_blocks by (try assumption; unfold is_u32; lia).
    rewrite bind_Ok. cbn beta iota.
    rewrite <- (app_nil_r (concat (restriction_blocks 0 (skipn firstOnly rs)))).
    rewrite DeserializeLoop_blocks by (try assumption; unfold is_u32; lia).
    rewrite bind_Ok. cbn beta iota. cbn [app].
    now rewrite firstn_skipn.
Qed.

(** Scenario S1 of the specification. *)
Lemma restrictions_roundtrip_witness :
  let rs := [mkRestriction No [10; 11]; mkRestriction No [10; 12; 13];
             mkRestriction Only [5; 6]] in
  exists bytes,
    Serialize rs 2 [] = Ok bytes
    /\ Deserialize (mkRoutingHeader 0 0 2 1) [] bytes = Ok (rs, []).
Proof.
  apply (restrictions_roundtrip
           [mkRestriction No [10; 11]; mkRestriction No [10; 12; 13];
            mkRestriction Only [5; 6]] 2 (mkRoutingHeader 0 0 2 1)).
  - reflexivity.
  - repeat constructor.
  - repeat constructor.
  - unfold well_formed, kInvalidFeatureId; simpl.
    repeat constructor; simpl; lia.
  - vm_compute. repeat split; discriminate.
  - vm_compute. repeat split; discriminate.
  - reflexivity.
  - reflexivity.
Defined.

(** C1 as stated fails: a sorted, partitioned vector of one restriction
    with two feature ids, one of them [kInvalidFeatureId], is refused by
    the [CHECK] on [IsValid], so no bytes are produced. *)
Lemma restrictions_roundtrip_counterexample :
  let rs := [mkRestriction No [4294967295; 1]] in
  is_sorted rs = true
  /\ Forall (fun r => m_type r = No) (firstn 1 rs)
  /\ Forall (fun r => m_type r = Only) (skipn 1 rs)
  /\ Forall (fun r => (2 <= length (m_featureIds r))%nat) rs
  /\ Serialize rs 1 [] = Err (CheckFailure "restriction.IsValid()").
Proof.
  repeat split; repeat constructor.
Qed.

(** A feature id 2^31 away from its predecessor: the sum [delta + 1] wraps
    to zero on [uint32_t], [Encode] refuses it, its answer is not looked
    at, and the bytes written do not read back. *)
Example restrictions_delta_wrap :
  let rs := [mkRestriction No [2147483648; 1]] in
  Serialize rs 1 [] = Ok [65; 240; 255; 255; 255; 3]
  /\ Deserialize (mkRoutingHeader 0 0 1 0) [] [65; 240; 255; 255; 255; 3]
     = Err ReaderException.
Proof. split; vm_compute; reflexivity. Qed.

(** *** Corruption *)

(** C4.  The bytes [32 4 0 0 0 0] hold the delta code of 2^32, which is
    zero as the [uint32_t] biased link number; the bytes [65 8 0 0 0 0]
    hold a biased link number of one and then the delta code of 2^32 as the
    biased delta.  On both, [DeserializeSingleType] returns [false], and
    [Deserialize] goes on to the [Only] group, decodes the restriction that
    follows there and returns as it does on sound input. *)
Theorem Deserialize_drops_corruption :
  let header := mkRoutingHeader 0 0 1 1 in
  DeserializeSingleType No 1 [] [32; 4; 0; 0; 0; 0; 137; 21]
    = Ok (false, [], [137; 21])
  /\ Deserialize header [] [32; 4; 0; 0; 0; 0; 137; 21]
     = Ok ([mkRestriction Only [5; 6]], [])
  /\ DeserializeSingleType No 1 [] [65; 8; 0; 0; 0; 0; 137; 21]
     = Ok (false, [], [137; 21])
  /\ Deserialize header [] [65; 8; 0; 0; 0; 0; 137; 21]
     = Ok ([mkRestriction Only [5; 6]], []).
Proof. repeat split; vm_compute; reflexivity. Qed.

(** *** The block of a restriction, read on its own *)

Lemma DeserializeRestriction_at type rs :
  forall prev k r (tail : list Z),
  Forall (fun r => m_type r = type /\ well_formed r) rs ->
  is_u32 prev ->
  group_fits prev rs ->
  rs !! k = Some r ->
  DeserializeRestriction type (first_link_before prev rs k)
    (concat (skipn k (restriction_blocks prev rs)) ++ tail)
  = Ok (Some r, concat (skipn (S k) (restriction_blocks prev rs)) ++ tail).
Proof.
  induction rs as [|r0 rest IH]; intros prev k r tail Hrs Hprev Hfit Hk.
  - destruct k; discriminate.
  - apply Forall_cons in Hrs as [[Htype Hwf] Hrest].
    destruct Hfit as [Hlinks Hfit].
    destruct k as [|k].
    + injection Hk as <-.
      cbn [first_link_before restriction_blocks skipn concat].
      rewrite <- app_assoc.
      now apply DeserializeRestriction_block.
    + cbn [first_link_before restriction_blocks skipn].
      apply IH; try assumption. now apply well_formed_first.
Qed.

End RestrictionCodec.

(** ** The traffic keys *)

Section TrafficKeys.

Import traffic traffic.TrafficInfo.

(** *** Groups *)

Lemma flat_map_seq_ext {A} (f g : nat -> list A) n : forall a,
  (forall i, (a <= i < a + n)%nat -> f i = g i) ->
  flat_map f (seq a n) = flat_map g (seq a n).
Proof.
  induction n as [|n IH]; intros a H; [reflexivity|].
  cbn [seq flat_map]. rewrite (H a) by lia. f_equal.
  apply IH. intros i Hi. apply H. lia.
Qed.

Lemma group_keys_fid fid n ow :
  Forall (fun k => m_fid k = fid) (group_keys fid n ow).
Proof.
  unfold group_keys. apply Forall_flat_map, Forall_forall.
  intros i _. destruct ow; repeat constructor.
Qed.

Lemma group_keys_length fid n ow :
  length (group_keys fid n ow) = (n * (if ow then 1 else 2))%nat.
Proof.
  unfold group_keys.
  match goal with |- context [flat_map ?f _] => set (F := f) end.
  enough (H : forall a,
             length (flat_map F (seq a n)) = (n * (if ow then 1 else 2))%nat)
    by apply H.
  induction n as [|n IH]; intros a; [reflexivity|].
  cbn [seq flat_map]. rewrite length_app, IH.
  unfold F. destruct ow; cbn [length]; lia.
Qed.

Lemma is_one_way_group fid n ow :
  (1 <= n)%nat -> is_one_way (group_keys fid n ow) = ow.
Proof.
  intros Hn. unfold is_one_way, group_keys.
  destruct ow.
  - apply forallb_forall. intros k Hk.
    apply in_flat_map in Hk as (i & _ & Hk).
    destruct Hk as [<-|[]]. reflexivity.
  - destruct n as [|n]; [lia|]. reflexivity.
Qed.

Lemma ExpandGroup_group_keys fid n ow :
  Z.of_nat n <= 2 ^ 16 ->
  ExpandGroup fid (Z.of_nat n) ow = group_keys fid n ow.
Proof.
  intros Hn. unfold ExpandGroup, group_keys, seqZ.
  rewrite Nat2Z.id. unfold fmap, list_fmap at 1.
  change (fix go (l : list nat) : list Z :=
            match l with
            | [] => []
            | x :: l0 => (Z.of_nat x + 0) :: go l0
            end) with (map (fun i : nat => Z.of_nat i + 0)).
  rewrite flat_map_concat_map, map_map, <- flat_map_concat_map.
  apply flat_map_seq_ext. intros i Hi.
  rewrite Z.add_0_r, u16_small by lia.
  destruct ow; reflexivity.
Qed.

Lemma same_fid_run_app fid (g rest : list RoadSegmentId) :
  Forall (fun k => m_fid k = fid) g ->
  (forall k rest', rest = k :: rest' -> m_fid k <> fid) ->
  same_fid_run fid (g ++ rest) = (g, rest).
Proof.
  intros Hg Hrest. induction Hg as [|k g Hk Hg IH].
  - destruct rest as [|k rest']; [reflexivity|].
    cbn [app same_fid_run].
    destruct (Z.eqb_spec (m_fid k) fid) as [E|_]; [|reflexivity].
    destruct (Hrest k rest' eq_refl E).
  - cbn [app same_fid_run]. rewrite Hk, Z.eqb_refl, IH. reflexivity.
Qed.

Lemma properly_grouped_lower lo K :
  properly_grouped lo K -> Forall (fun k => lo <= m_fid k) K.
Proof.
  induction 1 as [|lo fid n ow rest Hfid Hn Hrest IH]; [constructor|].
  apply Forall_app. split.
  - eapply Forall_impl; [apply group_keys_fid|].
    intros k Hk. simpl in Hk. lia.
  - eapply Forall_impl; [exact IH|]. intros k Hk. simpl in Hk. lia.
Qed.

Lemma GroupKeys_properly_grouped lo K :
  properly_grouped lo K ->
  forall fuel, (length K <= fuel)%nat ->
  exists fids numSegs oneWay,
    GroupKeys fuel K = Ok (fids, numSegs, oneWay)
    /\ ExpandKeys fids numSegs oneWay = K
    /\ key_vectors lo fids numSegs oneWay.
Proof.
  induction 1 as [|lo fid n ow rest Hfid Hn Hrest IH]; intros fuel Hfuel.
  - exists [], [], []. split; [|split; [reflexivity|constructor]].
    destruct fuel; reflexivity.
  - pose proof (group_keys_length fid n ow) as Hlen.
    pose proof (group_keys_fid fid n ow) as Hfids.
    pose proof (is_one_way_group fid n ow ltac:(lia)) as How.
    assert (Hrun : same_fid_run fid (group_keys fid n ow ++ rest)
                   = (group_keys fid n ow, rest)).
    { apply same_fid_run_app; [exact Hfids|].
      intros k rest' ->. apply properly_grouped_lower in Hrest.
      apply Forall_cons in Hrest as [Hk _]. lia. }
    rewrite length_app in Hfuel.
    destruct (group_keys fid n ow) as [|k0 g] eqn:Eg.
    { simpl in Hlen. destruct ow; lia. }
    apply Forall_cons in Hfids as [Hk0 _].
    destruct fuel as [|fuel]; [simpl in Hfuel; lia|].
    destruct (IH fuel) as (fids & numSegs & oneWay & HG & HE & HV).
    { simpl in Hfuel. lia. }
    exists (fid :: fids), (Z.of_nat n :: numSegs), (ow :: oneWay).
    split; [|split].
    + cbn [GroupKeys app]. rewrite Hk0.
      change (k0 :: g ++ rest) with ((k0 :: g) ++ rest). rewrite Hrun.
      rewrite How, Hlen.
      replace (0 <? (if ow then 1 else 2)) with true by (destruct ow; reflexivity).
      rewrite CHECK_true, bind_Ok.
      replace (Z.of_nat (n * (if ow then 1 else 2)) mod (if ow then 1 else 2) =? 0)
        with true.
      2:{ symmetry. apply Z.eqb_eq. destruct ow.
          - apply Z.mod_1_r.
          - rewrite Nat2Z.inj_mul. apply Z.mod_mul. lia. }
      rewrite CHECK_true, bind_Ok. step_bind HG.
      f_equal. f_equal. f_equal. f_equal.
      destruct ow; rewrite Nat2Z.inj_mul.
      * rewrite Z.mul_1_r. apply Z.div_1_r.
      * apply Z.div_mul. lia.
    + cbn [ExpandKeys]. rewrite ExpandGroup_group_keys by lia.
      rewrite Eg, HE. reflexivity.
    + constructor; [exact Hfid|lia|exact HV].
Qed.

(** *** The three bit streams *)

Lemma EncodeFids_bits debug fids : forall w prev lo numSegs oneWay,
  0 <= prev <= lo ->
  key_vectors lo fids numSegs oneWay ->
  EncodeFids debug w prev fids = Ok (write_bits w (fids_bits prev fids)).
Proof.
  induction fids as [|fid fids IH]; intros w prev lo numSegs oneWay Hprev HV.
  - reflexivity.
  - inversion HV as [|? ? s ow ? segs ows Hfid Hs HV']; subst.
    cbn [EncodeFids fids_bits].
    rewrite GammaCoder_Encode_code.
    rewrite (u32_small (fid - prev)) by lia.
    rewrite (u32_small (fid - prev + 1)) by lia.
    replace (encodable (fid - prev + 1)) with true
      by (symmetry; apply encodable_spec; lia).
    rewrite ASSERT_true, bind_Ok.
    rewrite (IH _ fid (fid + 1) segs ows) by (assumption || lia).
    now rewrite write_bits_app.
Qed.

Lemma DecodeFids_bits fids :
  forall prev lo numSegs oneWay r (bs : list bool) (tail : list Z),
  0 <= prev <= lo ->
  key_vectors lo fids numSegs oneWay ->
  reader_at r (fids_bits prev fids ++ bs) tail ->
  exists r',
    DecodeFids (length fids) r prev = Ok (fids, r') /\ reader_at r' bs tail.
Proof.
  induction fids as [|fid fids IH];
    intros prev lo numSegs oneWay r bs tail Hprev HV Hat.
  - exists r. split; [reflexivity|exact Hat].
  - inversion HV as [|? ? s ow ? segs ows Hfid Hs HV']; subst.
    cbn [fids_bits] in Hat. rewrite <- app_assoc in Hat.
    rewrite (u32_small (fid - prev)) in Hat by lia.
    rewrite (u32_small (fid - prev + 1)) in Hat by lia.
    assert (He : encodable (fid - prev + 1) = true)
      by (apply encodable_spec; lia).
    destruct (GammaCoder_Decode_code _ _ _ _ He Hat) as (r1 & Hr1 & Hat1).
    destruct (IH fid (fid + 1) segs ows r1 bs tail ltac:(lia) HV' Hat1)
      as (r2 & Hr2 & Hat2).
    exists r2. split; [|exact Hat2].
    cbn [length DecodeFids]. step_bind Hr1.
    replace (u32 (prev + u64 (fid - prev + 1 - 1))) with fid.
    2:{ replace (fid - prev + 1 - 1) with (fid - prev) by lia.
        rewrite u64_small by lia. rewrite u32_small by lia. lia. }
    step_bind Hr2. reflexivity.
Qed.

Lemma EncodeNumSegs_bits debug numSegs : forall w lo fids oneWay,
  key_vectors lo fids numSegs oneWay ->
  EncodeNumSegs debug w numSegs = Ok (write_bits w (numSegs_bits numSegs)).
Proof.
  induction numSegs as [|s numSegs IH]; intros w lo fids oneWay HV.
  - reflexivity.
  - inversion HV as [|? fid ? ow fids' ? ows Hfid Hs HV']; subst.
    cbn [EncodeNumSegs numSegs_bits flat_map].
    rewrite GammaCoder_Encode_code.
    rewrite (u64_small (s + 1)) by lia.
    replace (encodable (s + 1)) with true
      by (symmetry; apply encodable_spec; lia).
    rewrite ASSERT_true, bind_Ok.
    rewrite (IH _ _ _ _ HV').
    now rewrite write_bits_app.
Qed.

Lemma DecodeNumSegs_bits numSegs :
  forall lo fids oneWay r (bs : list bool) (tail : list Z),
  key_vectors lo fids numSegs oneWay ->
  reader_at r (numSegs_bits numSegs ++ bs) tail ->
  exists r',
    DecodeNumSegs (length numSegs) r = Ok (numSegs, r')
    /\ reader_at r' bs tail.
Proof.
  induction numSegs as [|s numSegs IH]; intros lo fids oneWay r bs tail HV Hat.
  - exists r. split; [reflexivity|exact Hat].
  - inversion HV as [|? fid ? ow fids' ? ows Hfid Hs HV']; subst.
    cbn [numSegs_bits flat_map] in Hat. rewrite <- app_assoc in Hat.
    rewrite (u64_small (s + 1)) in Hat by lia.
    assert (He : encodable (s + 1) = true) by (apply encodable_spec; lia).
    destruct (GammaCoder_Decode_code _ _ _ _ He Hat) as (r1 & Hr1 & Hat1).
    destruct (IH _ _ _ r1 bs tail HV' Hat1) as (r2 & Hr2 & Hat2).
    exists r2. split; [|exact Hat2].
    cbn [length DecodeNumSegs]. step_bind Hr1. step_bind Hr2.
    replace (s + 1 - 1) with s by lia.
    rewrite u64_small by lia. reflexivity.
Qed.

Lemma EncodeOneWay_bits (oneWay : list bool) : forall w,
  EncodeOneWay w oneWay = write_bits w oneWay.
Proof.
  induction oneWay as [|ow oneWay IH]; intros w; [reflexivity|].
  unfold EncodeOneWay in *. cbn [fold_left]. rewrite IH.
  rewrite write_bits_cons. f_equal. destruct ow; reflexivity.
Qed.

Lemma DecodeOneWay_bits (oneWay : list bool) :
  forall r (bs : list bool) (tail : list Z),
  reader_at r (oneWay ++ bs) tail ->
  exists r',
    DecodeOneWay (length oneWay) r = Ok (oneWay, r') /\ reader_at r' bs tail.
Proof.
  induction oneWay as [|ow oneWay IH]; intros r bs tail Hat.
  - exists r. split; [reflexivity|exact Hat].
  - cbn [app] in Hat.
    destruct (reader_at_Read1 _ _ _ _ Hat) as (r1 & Hr1 & Hat1).
    destruct (IH r1 bs tail Hat1) as (r2 & Hr2 & Hat2).
    exists r2. split; [|exact Hat2].
    cbn [length DecodeOneWay]. step_bind Hr1. step_bind Hr2.
    destruct ow; reflexivity.
Qed.

Lemma key_vectors_length lo fids numSegs oneWay :
  key_vectors lo fids numSegs oneWay ->
  length numSegs = length fids /\ length oneWay = length fids
  /\ (lo <= 2 ^ 32 - 1 -> Z.of_nat (length fids) <= 2 ^ 32 - 1 - lo).
Proof.
  induction 1 as [|lo fid s ow fids segs ows Hfid Hs HV (IH1 & IH2 & IH3)].
  - repeat split; simpl; lia.
  - cbn [length]. repeat split; try lia.
Qed.

(** *** Order *)

Lemma StronglySorted_app {A} (R : A -> A -> Prop) (l1 l2 : list A) :
  StronglySorted R l1 -> StronglySorted R l2 ->
  Forall (fun x => Forall (R x) l2) l1 ->
  StronglySorted R (l1 ++ l2).
Proof.
  intros H1 H2 H12. induction H1 as [|a l1 H1 IH Ha]; [exact H2|].
  apply Forall_cons in H12 as [Ha2 H12].
  cbn [app]. constructor; [now apply IH|].
  apply Forall_app. split; assumption.
Qed.

Lemma group_keys_sorted_from fid ow n : forall a,
  let F := fun i : nat =>
    if ow : bool
    then [mkRoadSegmentId fid (Z.of_nat i) kForwardDirection]
    else [mkRoadSegmentId fid (Z.of_nat i) kForwardDirection;
          mkRoadSegmentId fid (Z.of_nat i) kReverseDirection] in
  StronglySorted key_lt (flat_map F (seq a n))
  /\ Forall (fun k => m_fid k = fid /\ Z.of_nat a <= m_idx k)
            (flat_map F (seq a n)).
Proof.
  induction n as [|n IH]; intros a F; [split; constructor|].
  destruct (IH (S a)) as [Hs Hi]. fold F in Hs, Hi.
  cbn [seq flat_map]. split.
  - apply StronglySorted_app; [| exact Hs |].
    + unfold F. destruct ow.
      * apply SSorted_cons; constructor.
      * apply SSorted_cons; [apply SSorted_cons; constructor|].
        apply Forall_cons. split; [|constructor].
        unfold key_lt, kForwardDirection, kReverseDirection; simpl. lia.
    + assert (Hlt : forall k, m_fid k = fid -> m_idx k = Z.of_nat a ->
                Forall (key_lt k) (flat_map F (seq (S a) n))).
      { intros k Hf Hx. eapply Forall_impl; [exact Hi|].
        intros k' [Hf' Hx']. unfold key_lt. lia. }
      unfold F at 1.
      destruct ow; repeat apply Forall_cons_2; try apply Forall_nil_2;
        apply Hlt; reflexivity.
  - apply Forall_app. split.
    + unfold F.
      destruct ow; repeat apply Forall_cons_2; try apply Forall_nil_2;
        simpl; lia.
    + eapply Forall_impl; [exact Hi|]. intros k [Hf Hx]. split; [exact Hf|lia].
Qed.

Lemma properly_grouped_sorted lo K :
  properly_grouped lo K -> StronglySorted key_lt K.
Proof.
  induction 1 as [|lo fid n ow rest Hfid Hn Hrest IH]; [constructor|].
  apply StronglySorted_app; [|exact IH|].
  - apply (group_keys_sorted_from fid ow n 0%nat).
  - apply properly_grouped_lower in Hrest.
    eapply Forall_impl; [apply group_keys_fid|].
    intros k Hk. eapply Forall_impl; [exact Hrest|].
    intros k' Hk'. unfold key_lt. simpl in *. lia.
Qed.

(** *** Round trip *)




(** The feature id [2^32 - 1] as the first one: [fidDiff + 1] wraps to zero
    on [uint32_t] and [Encode] refuses it.  A build with assertions stops
    at [ASSERT(ok)]; a build without writes a frame that lacks the code of
    the feature id and reads back as the empty vector. *)
Example traffic_keys_fid_wrap :
  let K := [mkRoadSegmentId 4294967295 0 0] in
  SerializeTrafficKeys true K = Err AssertFailure
  /\ SerializeTrafficKeys false K = Ok [0; 1; 10]
  /\ DeserializeTrafficKeys false [0; 1; 10] = Ok [].
Proof. repeat split; vm_compute; reflexivity. Qed.

(** *** Inconsistent groups *)

Lemma same_fid_run_spec fid (keys : list RoadSegmentId) :
  forall run rest,
  same_fid_run fid keys = (run, rest) ->
  keys = run ++ rest
  /\ Forall (fun k => m_fid k = fid) run
  /\ (forall k rest', rest = k :: rest' -> m_fid k <> fid).
Proof.
  induction keys as [|k keys IH]; intros run rest H.
  - injection H as <- <-. repeat split; [constructor|discriminate].
  - cbn [same_fid_run] in H.
    destruct (Z.eqb_spec (m_fid k) fid) as [E|E].
    + destruct (same_fid_run fid keys) as [run' rest'] eqn:Er.
      injection H as <- <-.
      destruct (IH run' rest' eq_refl) as (-> & Hrun & Hrest).
      repeat split; [|exact Hrest].
      apply Forall_cons_2; assumption.
    + injection H as <- <-. repeat split; [constructor|].
      intros k' rest' [= <- <-]. exact E.
Qed.

(** The grouping loop never stops for want of iterations: any bound from
    the number of keys on gives the same vectors. *)
Lemma GroupKeys_fuel fuel1 : forall fuel2 (keys : list RoadSegmentId),
  (length keys <= fuel1)%nat -> (length keys <= fuel2)%nat ->
  GroupKeys fuel1 keys = GroupKeys fuel2 keys.
Proof.
  induction fuel1 as [|fuel1 IH]; intros fuel2 keys H1 H2.
  - destruct keys; [|simpl in H1; lia]. destruct fuel2; reflexivity.
  - destruct keys as [|first keys']; [destruct fuel2; reflexivity|].
    destruct fuel2 as [|fuel2]; [simpl in H2; lia|].
    cbn [GroupKeys].
    destruct (same_fid_run (m_fid first) (first :: keys')) as [a b] eqn:Eab.
    destruct (same_fid_run_spec _ _ _ _ Eab) as (Hsplit & _ & _).
    assert (Ha : (1 <= length a)%nat).
    { cbn [same_fid_run] in Eab. rewrite Z.eqb_refl in Eab.
      destruct (same_fid_run (m_fid first) keys').
      injection Eab as <- _. simpl. lia. }
    assert (Hb : (length b <= fuel1 /\ length b <= fuel2)%nat).
    { assert (E : length (first :: keys') = (length a + length b)%nat)
        by (rewrite Hsplit, length_app; reflexivity).
      cbn [length] in *. lia. }
    rewrite (IH fuel2 b) by tauto. reflexivity.
Qed.

Lemma is_one_way_false (run : list RoadSegmentId) :
  Exists (fun k => m_dir k = kReverseDirection) run ->
  is_one_way run = false.
Proof.
  unfold is_one_way. induction 1 as [k run Hk|k run _ IH]; cbn [forallb].
  - rewrite Hk. reflexivity.
  - rewrite IH. apply andb_false_r.
Qed.

Lemma GroupKeys_odd_run fid (run post : list RoadSegmentId) :
  run <> [] ->
  Forall (fun k => m_fid k = fid) run ->
  (forall k post', post = k :: post' -> m_fid k <> fid) ->
  is_one_way run = false ->
  Z.of_nat (length run) mod 2 = 1 ->
  forall fuel pre,
  (length (pre ++ run ++ post) <= fuel)%nat ->
  (forall pre' k, pre = pre' ++ [k] -> m_fid k <> fid) ->
  GroupKeys fuel (pre ++ run ++ post)
  = Err (CheckFailure "numSegsForThisFid % numDirs == 0").
Proof.
  intros Hne Hrun Hpost How Hodd.
  induction fuel as [|fuel IH]; intros pre Hfuel Hpre.
  - destruct run; [congruence|].
    rewrite !length_app in Hfuel. simpl in Hfuel. lia.
  - destruct pre as [|p pre].
    + cbn [app]. destruct run as [|k0 run'] eqn:Erun; [congruence|].
      cbn [GroupKeys app].
      pose proof Hrun as Hrun'. apply Forall_cons in Hrun' as [Hk0 _].
      rewrite Hk0.
      change (k0 :: run' ++ post) with ((k0 :: run') ++ post).
      rewrite (same_fid_run_app fid) by assumption.
      rewrite How. change (0 <? 2) with true. rewrite CHECK_true, bind_Ok.
      rewrite Hodd. reflexivity.
    + cbn [GroupKeys app].
      destruct (same_fid_run (m_fid p) (p :: pre ++ run ++ post))
        as [a b] eqn:Eab.
      destruct (same_fid_run_spec _ _ _ _ Eab) as (Hsplit & Ha & Hb).
      assert (Ha0 : a <> []).
      { intros ->. cbn [same_fid_run] in Eab.
        rewrite Z.eqb_refl in Eab.
        destruct (same_fid_run (m_fid p) (pre ++ run ++ post)).
        discriminate. }
      assert (Hpre2 : exists pre2, p :: pre = a ++ pre2
                                   /\ b = pre2 ++ run ++ post).
      { change (p :: pre ++ run ++ post) with ((p :: pre) ++ run ++ post)
          in Hsplit.
        symmetry in Hsplit.
        apply app_eq_app in Hsplit as (l & [[Ha' Hb']|[Hp' Hb']]).
        - destruct l as [|x l].
          + exists []. rewrite app_nil_r in Ha'. simpl in Hb'.
            split; [now rewrite Ha', app_nil_r|now rewrite <- Hb'].
          + exfalso.
            destruct run as [|k0 run']; [congruence|].
            injection Hb' as <- _.
            apply Forall_cons in Hrun as [Hk0 _].
            destruct (exists_last (l := p :: pre)) as (pre' & z & Hz);
              [discriminate|].
            rewrite Ha', Hz in Ha.
            rewrite !Forall_app in Ha.
            destruct Ha as [[_ Hzf] Hxf].
            apply Forall_cons in Hzf as [Hzf _].
            apply Forall_cons in Hxf as [Hxf _].
            apply (Hpre pre' z Hz). congruence.
        - exists l. split; assumption. }
      destruct Hpre2 as (pre2 & Hp2 & ->).
      assert (Hlen : (length (pre2 ++ run ++ post) <= fuel)%nat).
      { assert (length a >= 1)%nat by (destruct a; [congruence|simpl; lia]).
        assert (E : length (p :: pre) = (length a + length pre2)%nat)
          by (rewrite Hp2, length_app; reflexivity).
        cbn [app length] in Hfuel. cbn [length] in E.
        rewrite !length_app in *. lia. }
      assert (Hpre2 : forall pre' k, pre2 = pre' ++ [k] -> m_fid k <> fid).
      { intros pre' k ->. apply (Hpre (removelast (p :: pre)) k).
        rewrite Hp2, app_assoc, removelast_last. reflexivity. }
      rewrite (IH pre2 Hlen Hpre2).
      destruct (is_one_way a).
      * change (0 <? 1) with true. rewrite CHECK_true, bind_Ok.
        rewrite Z.mod_1_r. reflexivity.
      * change (0 <? 2) with true. rewrite CHECK_true, bind_Ok.
        destruct (Z.of_nat (length a) mod 2 =? 0); reflexivity.
Qed.

Lemma is_one_way_false_inv (run : list RoadSegmentId) :
  is_one_way run = false ->
  Exists (fun k => m_dir k = kReverseDirection) run.
Proof.
  unfold is_one_way. induction run as [|k run IH]; cbn [forallb]; intros H.
  - discriminate.
  - apply andb_false_iff in H as [H|H].
    + apply Exists_cons_hd. apply negb_false_iff, Z.eqb_eq in H. exact H.
    + apply Exists_cons_tl. now apply IH.
Qed.

Lemma fid_group_after fid (a pre run post : list RoadSegmentId) first :
  a <> [] ->
  Forall (fun k => m_fid k = first) a ->
  (forall k rest, pre ++ run ++ post = k :: rest -> m_fid k <> first) ->
  fid_group fid pre run post ->
  fid_group fid (a ++ pre) run post.
Proof.
  intros Ha Hfa Hb (Hne & Hrun & Hpre & Hpost).
  repeat split; try assumption.
  intros pre' k Hk.
  destruct (exists_last (l := a)) as (a0 & z & Hz); [exact Ha|].
  destruct pre as [|p pre0].
  - rewrite app_nil_r, Hz in Hk. apply app_inj_tail in Hk as [_ <-].
    destruct run as [|k0 run0]; [congruence|].
    apply Forall_cons in Hrun as [Hk0 _].
    specialize (Hb k0 (run0 ++ post) eq_refl).
    rewrite Hz, Forall_app in Hfa. destruct Hfa as [_ Hzf].
    apply Forall_cons in Hzf as [Hzf _]. congruence.
  - destruct (exists_last (l := p :: pre0)) as (q & y & Hy); [discriminate|].
    rewrite Hy, app_assoc in Hk. apply app_inj_tail in Hk as [_ <-].
    now apply (Hpre q y).
Qed.

Lemma GroupKeys_refused fuel : forall (K : list RoadSegmentId) e,
  GroupKeys fuel K = Err e ->
  e = CheckFailure "numSegsForThisFid % numDirs == 0"
  /\ exists fid pre run post,
       K = pre ++ run ++ post
       /\ fid_group fid pre run post
       /\ Exists (fun k => m_dir k = kReverseDirection) run
       /\ Z.odd (Z.of_nat (length run)) = true.
Proof.
  induction fuel as [|fuel IH]; intros K e H; [discriminate|].
  destruct K as [|first K']; [discriminate|].
  cbn [GroupKeys] in H.
  destruct (same_fid_run (m_fid first) (first :: K')) as [a b] eqn:Eab.
  destruct (same_fid_run_spec _ _ _ _ Eab) as (Hsplit & Ha & Hb).
  assert (Ha0 : a <> []).
  { intros ->. cbn [same_fid_run] in Eab. rewrite Z.eqb_refl in Eab.
    destruct (same_fid_run (m_fid first) K'). discriminate. }
  assert (Hrec : forall e',
            GroupKeys fuel b = Err e' ->
            e' = CheckFailure "numSegsForThisFid % numDirs == 0"
            /\ exists fid pre run post,
                 first :: K' = pre ++ run ++ post
                 /\ fid_group fid pre run post
                 /\ Exists (fun k => m_dir k = kReverseDirection) run
                 /\ Z.odd (Z.of_nat (length run)) = true).
  { intros e' He'.
    destruct (IH b e' He') as (-> & fid & pre & run & post & Hk & Hg & Hr & Ho).
    split; [reflexivity|].
    exists fid, (a ++ pre), run, post.
    split; [rewrite Hsplit, Hk, <- app_assoc; reflexivity|].
    split; [|split; assumption].
    apply (fid_group_after fid a pre run post (m_fid first)); try assumption.
    intros k rest Hkr. apply (Hb k rest). now rewrite Hk. }
  destruct (is_one_way a) eqn:How.
  - change (0 <? 1) with true in H. rewrite CHECK_true, bind_Ok in H.
    rewrite Z.mod_1_r in H. change (0 =? 0) with true in H.
    rewrite CHECK_true, bind_Ok in H.
    destruct (GroupKeys fuel b) as [[[fids segs] ows]|e'] eqn:EG;
      [discriminate|].
    injection H as <-. now apply Hrec.
  - change (0 <? 2) with true in H. rewrite CHECK_true, bind_Ok in H.
    destruct (Z.eqb_spec (Z.of_nat (length a) mod 2) 0) as [Heven|Hodd].
    + rewrite CHECK_true, bind_Ok in H.
      destruct (GroupKeys fuel b) as [[[fids segs] ows]|e'] eqn:EG;
        [discriminate|].
      injection H as <-. now apply Hrec.
    + injection H as <-. split; [reflexivity|].
      exists (m_fid first), [], a, b.
      split; [exact Hsplit|]. split; [|split].
      * repeat split; try assumption.
        intros pre' k Hk. destruct pre'; discriminate Hk.
      * now apply is_one_way_false_inv.
      * rewrite Zmod_odd in Hodd. destruct (Z.odd _); [reflexivity|congruence].
Qed.

Lemma EncodeFids_failure debug fids : forall w prev e,
  EncodeFids debug w prev fids = Err e -> e = AssertFailure.
Proof.
  induction fids as [|fid fids IH]; intros w prev e H; [discriminate|].
  cbn [EncodeFids] in H.
  destruct (GammaCoder.Encode w _) as [ok w1].
  unfold ASSERT in H. destruct (debug && negb ok); cbn in H.
  - now injection H as <-.
  - now apply IH in H.
Qed.

Lemma EncodeNumSegs_failure debug numSegs : forall w e,
  EncodeNumSegs debug w numSegs = Err e -> e = AssertFailure.
Proof.
  induction numSegs as [|s numSegs IH]; intros w e H; [discriminate|].
  cbn [EncodeNumSegs] in H.
  destruct (GammaCoder.Encode w _) as [ok w1].
  unfold ASSERT in H. destruct (debug && negb ok); cbn in H.
  - now injection H as <-.
  - now apply IH in H.
Qed.

(** C8, as amended.  [SerializeTrafficKeys] stops at a [CHECK] and emits
    no frame if and only if the keys of some feature id (all of them that
    stand together: the key before them and the key after them are keys of
    other features) hold a key in reverse direction and are odd in number.
    The [CHECK] is the one that the number of keys of the group is a
    multiple of its number of directions; the number of keys is compared
    with nothing else, and a group of forward keys is never refused. *)
Theorem keys_refused_iff_odd_two_way_group (debug : bool)
  (keys : list RoadSegmentId) :
  (SerializeTrafficKeys debug keys
   = Err (CheckFailure "numSegsForThisFid % numDirs == 0")
   <-> exists fid pre run post,
         keys = pre ++ run ++ post
         /\ fid_group fid pre run post
         /\ Exists (fun k => m_dir k = kReverseDirection) run
         /\ Z.odd (Z.of_nat (length run)) = true)
  /\ forall msg,
       SerializeTrafficKeys debug keys = Err (CheckFailure msg) ->
       msg = "numSegsForThisFid % numDirs == 0"%string.
Proof.
  assert (Hfwd : forall msg,
            SerializeTrafficKeys debug keys = Err (CheckFailure msg) ->
            GroupKeys (length keys) keys = Err (CheckFailure msg)).
  { intros msg H. unfold SerializeTrafficKeys in H.
    destruct (GroupKeys (length keys) keys) as [[[fids segs] ows]|e] eqn:EG.
    - rewrite bind_Ok in H. cbn beta iota in H.
      destruct (EncodeFids debug _ 0 fids) as [w1|e1] eqn:E1.
      + rewrite bind_Ok in H.
        destruct (EncodeNumSegs debug w1 segs) as [w2|e2] eqn:E2.
        * discriminate H.
        * apply EncodeNumSegs_failure in E2. subst e2. discriminate H.
      + apply EncodeFids_failure in E1. subst e1. discriminate H.
    - rewrite bind_Err in H. injection H as ->. reflexivity. }
  split; [split|].
  - intros H. apply Hfwd in H. now apply GroupKeys_refused in H as [_ H].
  - intros (fid & pre & run & post & -> & (Hne & Hrun & Hpre & Hpost) & Hrev & Hodd).
    unfold SerializeTrafficKeys.
    rewrite (GroupKeys_odd_run fid run post); try assumption; try reflexivity.
    + now apply is_one_way_false.
    + rewrite Zmod_odd, Hodd. reflexivity.
  - intros msg H. apply Hfwd in H.
    apply GroupKeys_refused in H as [H _]. now injection H.
Qed.

Lemma keys_refused_iff_odd_two_way_group_witness :
  SerializeTrafficKeys true
    ([] ++ [mkRoadSegmentId 1 0 0; mkRoadSegmentId 1 0 1; mkRoadSegmentId 1 1 0]
        ++ [mkRoadSegmentId 2 0 0])
  = Err (CheckFailure "numSegsForThisFid % numDirs == 0").
Proof.
  apply (keys_refused_iff_odd_two_way_group true).
  exists 1, [],
    [mkRoadSegmentId 1 0 0; mkRoadSegmentId 1 0 1; mkRoadSegmentId 1 1 0],
    [mkRoadSegmentId 2 0 0].
  split; [reflexivity|]. split; [|split].
  - split; [discriminate|]. split; [|split].
    + repeat apply Forall_cons_2; try apply Forall_nil_2; reflexivity.
    + intros pre' k H. destruct pre'; discriminate H.
    + intros k post' H. injection H as <- _. simpl. lia.
  - apply Exists_cons_tl, Exists_cons_hd. reflexivity.
  - reflexivity.
Defined.

(** C8 as stated fails: the two keys of feature 1 below are both in
    reverse direction, so the group holds a reverse key and its two keys
    are not twice its two segment indices; the keys [(1, 0, 0), (1, 0, 0)]
    are a forward-only group of two keys on one segment index.  Both are
    serialized. *)
Lemma inconsistent_keys_counterexample :
  let twoWay := [mkRoadSegmentId 1 0 1; mkRoadSegmentId 1 1 1] in
  let oneWay := [mkRoadSegmentId 1 0 0; mkRoadSegmentId 1 0 0] in
  Exists (fun k => m_dir k = kReverseDirection) twoWay
  /\ Forall (fun k => m_dir k = kForwardDirection) oneWay
  /\ (forall debug, SerializeTrafficKeys debug twoWay = Ok [0; 1; 18])
  /\ (forall debug, SerializeTrafficKeys debug oneWay = Ok [0; 1; 114]).
Proof.
  intros twoWay oneWay. split; [|split; [|split]].
  - apply Exists_cons_hd. reflexivity.
  - repeat apply Forall_cons_2; try apply Forall_nil_2; reflexivity.
  - intros debug. destruct debug; vm_compute; reflexivity.
  - intros debug. destruct debug; vm_compute; reflexivity.
Qed.

End TrafficKeys.

(** ** The traffic values *)

Section TrafficValues.

Import traffic traffic.TrafficInfo.

Lemma WriteValues_bits (values : list SpeedGroup) : forall w,
  fold_left (fun w v => BitWriter_Write w (u8 v) 3) values w
  = write_bits w (values_bits values).
Proof.
  induction values as [|v values IH]; intros w; [reflexivity|].
  cbn [fold_left values_bits flat_map]. rewrite IH.
  unfold BitWriter_Write. now rewrite <- write_bits_app.
Qed.

Lemma ReadValues_bits (values : list SpeedGroup) :
  forall r (bs : list bool) (tail : list Z),
  Forall (fun v => 0 <= v < 8) values ->
  reader_at r (values_bits values ++ bs) tail ->
  exists r',
    ReadValues (length values) r = Ok (values, r') /\ reader_at r' bs tail.
Proof.
  induction values as [|v values IH]; intros r bs tail Hv Hat.
  - exists r. split; [reflexivity|exact Hat].
  - apply Forall_cons in Hv as [Hv Hvs].
    cbn [values_bits flat_map] in Hat. rewrite <- app_assoc in Hat.
    destruct (BitReader_Read_lsb 3 _ _ _ _ Hat) as (r1 & Hr1 & Hat1).
    destruct (IH r1 bs tail Hvs Hat1) as (r2 & Hr2 & Hat2).
    exists r2. split; [|exact Hat2].
    cbn [length ReadValues]. step_bind Hr1. step_bind Hr2.
    rewrite u8_small by lia.
    change (2 ^ Z.of_nat 3) with 8. rewrite Z.mod_small by lia.
    reflexivity.
Qed.

Lemma SerializeTrafficValues_layout Deflate (values : list SpeedGroup) :
  SerializeTrafficValues Deflate values
  = Deflate ((le_bytes 1 kLatestValuesVersion
              ++ varuint_bytes 10 (u64 (Z.of_nat (length values))))
             ++ bytes_of_bits (values_bits values)).
Proof.
  unfold SerializeTrafficValues.
  rewrite WriteValues_bits, BitWriter_drop_write_bits. reflexivity.
Qed.

Lemma ReadValueStream_layout (values : list SpeedGroup) (n : Z) :
  0 <= n < 2 ^ 64 ->
  ReadValueStream ((le_bytes 1 kLatestValuesVersion
                    ++ varuint_bytes 10 (u64 n))
                   ++ bytes_of_bits (values_bits values))
  = '(decoded, bitReader) ←
      ReadValues (Z.to_nat (n mod 2 ^ 32))
        (BitReader_new (bytes_of_bits (values_bits values)));
    Ok (decoded, br_src bitReader).
Proof.
  intros Hn. unfold ReadValueStream.
  rewrite <- !app_assoc.
  rewrite ReadPrimitiveFromSource_le_bytes, bind_Ok. cbn beta iota.
  change (kLatestValuesVersion mod 256 ^ Z.of_nat 1 =? kLatestValuesVersion)
    with true.
  rewrite CHECK_true, bind_Ok.
  rewrite ReadVarUint_varuint_bytes by assumption.
  rewrite bind_Ok. reflexivity.
Qed.

(** C3, as amended.  Whatever the build, and for a [Deflate] and an
    [Inflate] of which the second undoes the first: for every vector of
    fewer than 2^32 values, each in [0, 7], [SerializeTrafficValues]
    deflates the version byte 0, the count as a variable-length integer and
    the values three bits each, zero-padded to a whole byte, and
    [DeserializeTrafficValues] reads its output back to the vector. *)
Theorem traffic_values_roundtrip (debug : bool)
  (Deflate Inflate : list Z -> list Z) (values : list SpeedGroup) :
  (forall buf, Inflate (Deflate buf) = buf) ->
  Forall (fun v => 0 <= v < 8) values ->
  Z.of_nat (length values) < 2 ^ 32 ->
  SerializeTrafficValues Deflate values
  = Deflate ([0] ++ varuint_bytes 10 (Z.of_nat (length values))
             ++ bytes_of_bits (values_bits values))
  /\ DeserializeTrafficValues debug Inflate
       (SerializeTrafficValues Deflate values)
     = Ok values.
Proof.
  intros Hzlib Hv Hlen.
  set (n := Z.of_nat (length values)) in *.
  assert (Hn : 0 <= n < 2 ^ 64).
  { split; [unfold n; lia|]. apply Z.lt_trans with (2 ^ 32); [lia|reflexivity]. }
  split.
  - rewrite SerializeTrafficValues_layout. fold n.
    rewrite u64_small by assumption. now rewrite <- app_assoc.
  - unfold DeserializeTrafficValues.
    rewrite SerializeTrafficValues_layout, Hzlib. fold n.
    rewrite ReadValueStream_layout by assumption.
    rewrite Z.mod_small by lia. unfold n. rewrite Nat2Z.id.
    pose proof (reader_at_new (values_bits values) []) as Hat.
    rewrite app_nil_r in Hat.
    rewrite <- (app_nil_r (values_bits values)) in Hat at 2.
    destruct (ReadValues_bits values _ _ _ Hv Hat) as (r1 & Hr1 & Hat1).
    step_bind Hr1. rewrite bind_Ok. cbn beta iota.
    change (br_src r1) with (BitReader_drop r1).
    rewrite (reader_at_done _ _ Hat1).
    change (length [] =? 0)%nat with true.
    rewrite ASSERT_true, bind_Ok. reflexivity.
Qed.

(** Scenario S4 of the specification, with the identity for the
    compression. *)
Lemma traffic_values_roundtrip_witness :
  SerializeTrafficValues id [0; 3; 7; 0; 1]
  = id ([0] ++ varuint_bytes 10 (Z.of_nat (length [0; 3; 7; 0; 1]))
        ++ bytes_of_bits (values_bits [0; 3; 7; 0; 1]))
  /\ DeserializeTrafficValues true id
       (SerializeTrafficValues id [0; 3; 7; 0; 1])
     = Ok [0; 3; 7; 0; 1].
Proof.
  apply (traffic_values_roundtrip true id id [0; 3; 7; 0; 1]).
  - reflexivity.
  - repeat apply Forall_cons_2; try apply Forall_nil_2; lia.
  - simpl. lia.
Defined.

(** A vector of 2^32 values and more: the count is written as a 64-bit
    [size_t] and read back as a [uint32_t]. *)
Lemma traffic_values_count_wraps (debug : bool) (values : list SpeedGroup) :
  Z.of_nat (length values) = 4294967296 ->
  DeserializeTrafficValues debug id (SerializeTrafficValues id values)
  <> Ok values.
Proof.
  intros Hlen. unfold DeserializeTrafficValues.
  rewrite SerializeTrafficValues_layout. unfold id at 1 2.
  rewrite ReadValueStream_layout by (rewrite Hlen; split; [discriminate|reflexivity]).
  rewrite Hlen. change (4294967296 mod 2 ^ 32) with 0.
  change (Z.to_nat 0) with 0%nat. cbn [ReadValues].
  rewrite !bind_Ok. cbn beta iota.
  destruct (ASSERT debug _); rewrite ?bind_Ok, ?bind_Err; [|discriminate].
  intros [= <-]. discriminate Hlen.
Qed.

(** C3 as stated fails: 2^32 values, all 0, do not read back, with the
    identity as compression and in either build. *)
Lemma traffic_values_roundtrip_counterexample :
  let values := repeat 0 (Z.to_nat 4294967296) in
  Forall (fun v => 0 <= v < 8) values
  /\ forall debug,
       DeserializeTrafficValues debug id (SerializeTrafficValues id values)
       <> Ok values.
Proof.
  intros values. split.
  - apply Forall_forall. intros v Hv. apply list_elem_of_In in Hv.
    apply repeat_spec in Hv. subst v. split; [discriminate|reflexivity].
  - intros debug. apply traffic_values_count_wraps.
    unfold values. rewrite repeat_length. apply Z2Nat.id. discriminate.
Qed.

(** *** Versions *)

(** C6.  A key blob whose first byte is not the version 0, and a value
    blob that inflates to bytes of which the first is not the version 0,
    end [DeserializeTrafficKeys] and [DeserializeTrafficValues] at the
    [CHECK] on the version, with its unsupported-version message, in either
    build; no vector is returned. *)
Theorem unsupported_version_rejected (debug : bool)
  (Inflate : list Z -> list Z) (version : Z) (rest data : list Z) :
  version <> 0 ->
  Inflate data = version :: rest ->
  DeserializeTrafficKeys debug (version :: rest)
  = Err (CheckFailure "Unsupported version of traffic values.")
  /\ DeserializeTrafficValues debug Inflate data
     = Err (CheckFailure "Unsupported version of traffic keys.").
Proof.
  intros Hv Hdata.
  assert (Hread : ReadPrimitiveFromSource 1 (version :: rest)
                  = Ok (version, rest)).
  { unfold ReadPrimitiveFromSource. cbn [length Nat.leb firstn skipn le_value].
    rewrite Z.mul_0_r, Z.add_0_r. reflexivity. }
  split.
  - unfold DeserializeTrafficKeys, ReadKeyGroups.
    rewrite Hread, bind_Ok. cbn beta iota.
    unfold kLatestKeysVersion.
    destruct (Z.eqb_spec version 0); [contradiction|]. reflexivity.
  - unfold DeserializeTrafficValues, ReadValueStream.
    rewrite Hdata, Hread, bind_Ok. cbn beta iota.
    unfold kLatestValuesVersion.
    destruct (Z.eqb_spec version 0); [contradiction|]. reflexivity.
Qed.

Lemma unsupported_version_rejected_witness :
  DeserializeTrafficKeys true [3; 0]
  = Err (CheckFailure "Unsupported version of traffic values.")
  /\ DeserializeTrafficValues true id [3; 0]
     = Err (CheckFailure "Unsupported version of traffic keys.").
Proof.
  apply (unsupported_version_rejected true id 3 [0] [3; 0]).
  - discriminate.
  - reflexivity.
Defined.

(** *** Trailing bytes *)

(** C7.  The code states with [ASSERT_EQUAL(src.Size(), 0)] that no byte
    is left when [DeserializeTrafficKeys] has read its three bit streams,
    or [DeserializeTrafficValues] its values, and does nothing else about
    it.  On every input that leaves bytes in the source, a build with
    assertions stops there, and a build without them returns the decoded
    vector as it does on an input without surplus: the surplus is not
    rejected. *)
Theorem trailing_bytes_rejected_by_assertion
  (Inflate : list Z -> list Z) (keyData valueData : list Z)
  (fids numSegs : list Z) (oneWay : list bool)
  (values : list SpeedGroup) (keySrc valueSrc : list Z) :
  ReadKeyGroups keyData = Ok (fids, numSegs, oneWay, keySrc) ->
  keySrc <> [] ->
  ReadValueStream (Inflate valueData) = Ok (values, valueSrc) ->
  valueSrc <> [] ->
  DeserializeTrafficKeys true keyData = Err AssertFailure
  /\ DeserializeTrafficValues true Inflate valueData = Err AssertFailure
  /\ DeserializeTrafficKeys false keyData
     = Ok (ExpandKeys fids numSegs oneWay)
  /\ DeserializeTrafficValues false Inflate valueData = Ok values.
Proof.
  intros Hk Hksrc Hv Hvsrc.
  unfold DeserializeTrafficKeys, DeserializeTrafficValues.
  rewrite Hk, Hv, !bind_Ok. cbn beta iota.
  destruct keySrc; [congruence|]. destruct valueSrc; [congruence|].
  repeat split; reflexivity.
Qed.

Lemma trailing_bytes_rejected_by_assertion_witness :
  DeserializeTrafficKeys true [0; 0; 170] = Err AssertFailure
  /\ DeserializeTrafficValues true id [0; 0; 170] = Err AssertFailure
  /\ DeserializeTrafficKeys false [0; 0; 170] = Ok (ExpandKeys [] [] [])
  /\ DeserializeTrafficValues false id [0; 0; 170] = Ok [].
Proof.
  apply (trailing_bytes_rejected_by_assertion id [0; 0; 170] [0; 0; 170]
           [] [] [] [] [170] [170]).
  - reflexivity.
  - discriminate.
  - reflexivity.
  - discriminate.
Defined.

(** The failing input of C7: in a build without assertions the byte 170
    that follows an empty key blob, or an empty value stream, is passed
    over and the empty vector is returned, with one byte left in the
    source. *)
Lemma trailing_bytes_counterexample :
  ReadKeyGroups [0; 0; 170] = Ok ([], [], [], [170])
  /\ DeserializeTrafficKeys false [0; 0; 170] = Ok []
  /\ ReadValueStream (id [0; 0; 170]) = Ok ([], [170])
  /\ DeserializeTrafficValues false id [0; 0; 170] = Ok [].
Proof. repeat split; reflexivity. Qed.

End TrafficValues.

(** ** The routing header *)

Section Header.

Import feature feature.RoutingHeader_.

(** C5.  [Serialize] appends exactly 12 bytes to the sink: the version and
    the reserved field, two bytes each, then the count of [No] and the
    count of [Only] restrictions, four bytes each, every field with its
    least significant byte first; and [Deserialize] reads these bytes back
    to the header they were written from, leaving the source after them. *)
Theorem routing_header_layout (h : RoutingHeader) (sink rest : list Z) :
  is_u16 (m_version h) -> is_u16 (m_reserved h) ->
  is_u32 (m_noRestrictionCount h) -> is_u32 (m_onlyRestrictionCount h) ->
  length (Serialize h sink) = (length sink + 12)%nat
  /\ Serialize h sink
     = sink ++
       [m_version h mod 256; m_version h / 256 mod 256;
        m_reserved h mod 256; m_reserved h / 256 mod 256;
        m_noRestrictionCount h mod 256;
        m_noRestrictionCount h / 256 mod 256;
        m_noRestrictionCount h / 256 / 256 mod 256;
        m_noRestrictionCount h / 256 / 256 / 256 mod 256;
        m_onlyRestrictionCount h mod 256;
        m_onlyRestrictionCount h / 256 mod 256;
        m_onlyRestrictionCount h / 256 / 256 mod 256;
        m_onlyRestrictionCount h / 256 / 256 / 256 mod 256]
  /\ Deserialize (Serialize h [] ++ rest) = Ok (h, rest).
Proof.
  intros Hv Hr Hn Ho.
  assert (Hbytes : forall s,
    Serialize h s
    = s ++ le_bytes 2 (m_version h) ++ le_bytes 2 (m_reserved h)
        ++ le_bytes 4 (m_noRestrictionCount h)
        ++ le_bytes 4 (m_onlyRestrictionCount h)).
  { intros s. unfold Serialize, WriteToSink. now rewrite <- !app_assoc. }
  split; [|split].
  - rewrite Hbytes, !length_app, !le_bytes_length. lia.
  - rewrite Hbytes. reflexivity.
  - rewrite Hbytes. cbn [app]. rewrite <- !app_assoc.
    unfold Deserialize.
    rewrite ReadPrimitiveFromSource_le_bytes, bind_Ok. cbn beta iota.
    rewrite ReadPrimitiveFromSource_le_bytes, bind_Ok. cbn beta iota.
    rewrite ReadPrimitiveFromSource_le_bytes, bind_Ok. cbn beta iota.
    rewrite ReadPrimitiveFromSource_le_bytes, bind_Ok. cbn beta iota.
    change (256 ^ Z.of_nat 2) with (2 ^ 16).
    change (256 ^ Z.of_nat 4) with (2 ^ 32).
    rewrite !Z.mod_small by assumption.
    destruct h; reflexivity.
Qed.

(** The header of scenario S1. *)
Lemma routing_header_layout_witness :
  let h := mkRoutingHeader 0 0 2 1 in
  Serialize h [] = [0; 0; 0; 0; 2; 0; 0; 0; 1; 0; 0; 0]
  /\ Deserialize (Serialize h [] ++ [169; 42]) = Ok (h, [169; 42]).
Proof.
  intros h.
  destruct (routing_header_layout h [] [169; 42]) as (_ & Hbytes & Hback);
    [unfold is_u16; simpl; lia | unfold is_u16; simpl; lia
    | unfold is_u32; simpl; lia | unfold is_u32; simpl; lia |].
  split; [exact Hbytes | exact Hback].
Defined.

End Header.

(** ** Colorings *)

Section ColoringFill.

Import traffic traffic.TrafficInfo.

Variable Unknown : SpeedGroup.

Implicit Types (keys : list RoadSegmentId)
  (M result : gmap RoadSegmentId SpeedGroup).

(** What the loop leaves in the map. *)
Lemma CombineLoop_lookup keys : forall M result c k,
  (CombineLoop Unknown keys M result c).1 !! k
  = if decide (k ∈ keys) then Some (default Unknown (M !! k))
    else result !! k.
Proof.
  induction keys as [|key keys IH]; intros M result c k.
  - cbn [CombineLoop fst]. case_decide as Hk; [|reflexivity].
    now apply not_elem_of_nil in Hk.
  - cbn [CombineLoop].
    destruct (M !! key) as [color|] eqn:EM; rewrite IH;
      destruct (decide (k ∈ keys)) as [Hin|Hnin].
    + rewrite decide_True by (rewrite elem_of_cons; tauto). reflexivity.
    + destruct (decide (k = key)) as [->|Hne].
      * rewrite decide_True by (rewrite elem_of_cons; tauto).
        rewrite lookup_insert_eq, EM. reflexivity.
      * rewrite decide_False by (rewrite elem_of_cons; tauto).
        now rewrite lookup_insert_ne.
    + rewrite decide_True by (rewrite elem_of_cons; tauto). reflexivity.
    + destruct (decide (k = key)) as [->|Hne].
      * rewrite decide_True by (rewrite elem_of_cons; tauto).
        rewrite lookup_insert_eq, EM. reflexivity.
      * rewrite decide_False by (rewrite elem_of_cons; tauto).
        now rewrite lookup_insert_ne.
Qed.

Lemma CombineLoop_known key keys M result c color :
  M !! key = Some color ->
  CombineLoop Unknown (key :: keys) M result c
  = CombineLoop Unknown keys M (<[key := color]> result) (u64 (c - 1)).
Proof. intros H. cbn [CombineLoop]. now rewrite H. Qed.

(** The keys of [keys] that [M] knows, counted as often as they occur. *)
Lemma CombineLoop_counter keys : forall M result c,
  0 <= c < 2 ^ 64 ->
  (CombineLoop Unknown keys M result c).2
  = u64 (c - Z.of_nat (length (filter (fun k => is_Some (M !! k)) keys))).
Proof.
  induction keys as [|key keys IH]; intros M result c Hc.
  - cbn [CombineLoop snd filter list_filter length].
    rewrite Z.sub_0_r. symmetry. now apply u64_small.
  - cbn [CombineLoop]. rewrite filter_cons.
    destruct (M !! key) as [color|] eqn:EM.
    + rewrite decide_True by eauto.
      rewrite IH by (unfold u64; apply Z.mod_pos_bound; reflexivity).
      cbn [length]. unfold u64.
      rewrite Zminus_mod_idemp_l. f_equal. lia.
    + rewrite decide_False by (intros [? ?]; discriminate).
      now apply IH.
Qed.

Lemma known_keys_size keys : forall M,
  NoDup keys ->
  length (filter (fun k => is_Some (M !! k)) keys)
  = size (dom M ∩ list_to_set keys).
Proof.
  induction keys as [|key keys IH]; intros M Hnd.
  - cbn. replace (dom M ∩ (∅ : gset RoadSegmentId)) with (∅ : gset RoadSegmentId)
      by set_solver.
    now rewrite size_empty.
  - apply NoDup_cons in Hnd as [Hkey Hnd].
    rewrite filter_cons, list_to_set_cons.
    replace (dom M ∩ ({[key]} ∪ list_to_set keys))
      with ((dom M ∩ {[key]}) ∪ (dom M ∩ list_to_set keys) : gset RoadSegmentId)
      by set_solver.
    rewrite size_union by set_solver.
    rewrite <- IH by assumption.
    destruct (decide (is_Some (M !! key))) as [Hs|Hn].
    + replace (dom M ∩ {[key]}) with ({[key]} : gset RoadSegmentId).
      2:{ apply elem_of_dom in Hs. set_solver. }
      rewrite size_singleton. reflexivity.
    + replace (dom M ∩ {[key]}) with (∅ : gset RoadSegmentId).
      2:{ rewrite <- elem_of_dom in Hn. set_solver. }
      rewrite size_empty. reflexivity.
Qed.

Lemma unexpected_keys_size keys M :
  NoDup keys ->
  Z.of_nat (size M)
  - Z.of_nat (length (filter (fun k => is_Some (M !! k)) keys))
  = Z.of_nat (size (dom M ∖ list_to_set keys)).
Proof.
  intros Hnd. rewrite known_keys_size by assumption.
  rewrite <- (size_dom (D := gset RoadSegmentId) M).
  assert (Hsplit : dom M
                   = (dom M ∩ list_to_set keys) ∪ (dom M ∖ list_to_set keys)).
  { apply set_eq. intros k.
    destruct (decide (k ∈ (list_to_set keys : gset RoadSegmentId)));
      set_solver. }
  rewrite Hsplit at 1. rewrite size_union by set_solver. lia.
Qed.

(** C9.  Whenever [CombineColorings] returns, the domain of its result is
    exactly the set of the keys of [keys], every key of [keys] mapped to
    its color in [knownColors] if it has one and to [Unknown] if not.  But
    a key of [knownColors] that is not among [keys] is not reported as the
    code states it with [ASSERT_EQUAL(numUnexpectedKeys, 0)].  A build
    without assertions returns on every input.  A build with assertions
    stops exactly when such a key exists, but only when no key is listed
    twice (and the map has fewer than 2^64 entries): the counter drops
    once for every position of [keys] that holds a known key. *)
Theorem CombineColorings_fill (debug : bool) keys M :
  (forall result,
     CombineColorings debug Unknown keys M = Ok result ->
     dom result = list_to_set keys
     /\ forall k, k ∈ keys -> result !! k = Some (default Unknown (M !! k)))
  /\ (exists result, CombineColorings false Unknown keys M = Ok result)
  /\ (NoDup keys -> Z.of_nat (size M) < 2 ^ 64 ->
      (CombineColorings true Unknown keys M = Err AssertFailure
       <-> exists k, k ∈ dom M /\ k ∉ keys)).
Proof.
  split; [|split].
  - intros result H. unfold CombineColorings in H.
    pose proof (CombineLoop_lookup keys M ∅ (Z.of_nat (size M))) as Hl.
    destruct (CombineLoop Unknown keys M ∅ (Z.of_nat (size M)))
      as [res n] eqn:E.
    cbn [fst] in Hl.
    destruct (ASSERT debug (n =? 0)); [|discriminate].
    injection H as <-. split.
    + apply set_eq. intros k.
      rewrite elem_of_dom, Hl, elem_of_list_to_set.
      destruct (decide (k ∈ keys)) as [Hin|Hnin].
      * split; [tauto|eauto].
      * rewrite lookup_empty. split; [intros [? ?]; discriminate|tauto].
    + intros k Hk. rewrite Hl. now rewrite decide_True.
  - unfold CombineColorings.
    destruct (CombineLoop Unknown keys M ∅ (Z.of_nat (size M))) as [res n].
    exists res. reflexivity.
  - intros Hnd Hsize. unfold CombineColorings.
    assert (Hrange : 0 <= Z.of_nat (size M) < 2 ^ 64) by lia.
    pose proof (CombineLoop_counter keys M ∅ (Z.of_nat (size M)) Hrange)
      as Hc.
    destruct (CombineLoop Unknown keys M ∅ (Z.of_nat (size M)))
      as [res n] eqn:E.
    cbn [snd] in Hc. rewrite unexpected_keys_size in Hc by assumption.
    assert (Hle : (size (dom M ∖ (list_to_set keys : gset RoadSegmentId))
                   <= size M)%nat).
    { rewrite <- (size_dom (D := gset RoadSegmentId) M).
      apply subseteq_size. set_solver. }
    rewrite u64_small in Hc by lia.
    subst n. unfold ASSERT. cbn [andb].
    split.
    + intros H.
      destruct (Z.eqb_spec
                  (Z.of_nat (size (dom M ∖ (list_to_set keys
                                              : gset RoadSegmentId)))) 0)
        as [E0|E0]; [discriminate H|].
      destruct (set_choose_or_empty
                  (dom M ∖ (list_to_set keys : gset RoadSegmentId)))
        as [[k Hk]|Hempty].
      * exists k. set_solver.
      * apply size_empty_iff in Hempty. lia.
    + intros (k & Hk & Hnk).
      assert (Hin : k ∈ dom M ∖ (list_to_set keys : gset RoadSegmentId))
        by set_solver.
      assert (Hpos : size (dom M ∖ (list_to_set keys : gset RoadSegmentId))
                     <> 0%nat).
      { intros Hz. apply size_empty_iff in Hz. set_solver. }
      destruct (Z.eqb_spec
                  (Z.of_nat (size (dom M ∖ (list_to_set keys
                                              : gset RoadSegmentId)))) 0)
        as [E0|E0]; [lia|reflexivity].
Qed.

End ColoringFill.

Section ColoringExamples.

Import traffic traffic.TrafficInfo.

Lemma CombineColorings_fill_witness :
  let a := mkRoadSegmentId 1 0 0 in
  let b := mkRoadSegmentId 2 0 0 in
  let M : gmap RoadSegmentId SpeedGroup := {[a := 3]} in
  (exists result, CombineColorings false 7 [a; b] M = Ok result)
  /\ CombineColorings true 7 [a] (<[b := 4]> M) = Err AssertFailure.
Proof.
  intros a b M. split.
  - apply (CombineColorings_fill 7 false [a; b] M).
  - apply (CombineColorings_fill 7 true [a] (<[b := 4]> M)).
    + apply NoDup_cons. split; [apply not_elem_of_nil|apply NoDup_nil_2].
    + unfold M. rewrite map_size_insert_None, map_size_singleton.
      * simpl. lia.
      * apply lookup_singleton_ne. discriminate.
    + exists b. split.
      * apply elem_of_dom. rewrite lookup_insert_eq. eauto.
      * intros Hin. apply list_elem_of_singleton in Hin. discriminate.
Defined.

(** The failing inputs of C9.  With the key [a] twice in the list, the
    counter drops twice for the one known key [a] and reaches zero
    although the key [b] of the map is not in the list: the call returns
    in either build.  And a build without assertions returns whatever the
    map holds. *)
Lemma CombineColorings_counterexample :
  let a := mkRoadSegmentId 1 0 0 in
  let b := mkRoadSegmentId 2 0 0 in
  let M : gmap RoadSegmentId SpeedGroup := (<[b := 4]> {[a := 3]}) in
  b ∈ dom M /\ b ∉ [a; a]
  /\ (forall debug, exists result,
        CombineColorings debug 7 [a; a] M = Ok result)
  /\ b ∉ [a]
  /\ exists result, CombineColorings false 7 [a] M = Ok result.
Proof.
  intros a b M.
  assert (Hsize : size M = 2%nat).
  { unfold M. rewrite map_size_insert_None, map_size_singleton; [reflexivity|].
    apply lookup_singleton_ne. discriminate. }
  assert (Ha : M !! a = Some 3).
  { unfold M. rewrite lookup_insert_ne by discriminate.
    apply lookup_singleton_eq. }
  split; [|split; [|split; [|split]]].
  - apply elem_of_dom. unfold M. rewrite lookup_insert_eq. eauto.
  - intros Hin. apply elem_of_cons in Hin as [Hin|Hin]; [discriminate|].
    apply list_elem_of_singleton in Hin. discriminate.
  - intros debug. unfold CombineColorings.
    rewrite !(CombineLoop_known 7 a _ M _ _ 3 Ha), Hsize.
    cbn [CombineLoop].
    change (u64 (u64 (Z.of_nat 2 - 1) - 1) =? 0) with true.
    rewrite ASSERT_true. eexists. reflexivity.
  - intros Hin. apply list_elem_of_singleton in Hin. discriminate.
  - unfold CombineColorings.
    destruct (CombineLoop 7 [a] M ∅ (Z.of_nat (size M))) as [result n].
    exists result. reflexivity.
Qed.

End ColoringExamples.

(** * Further properties of the code

    Properties read off the code beyond the statements of the
    specification: what the two serializers accept and write, what the
    deserializers hand back on any input, and the functions of
    [traffic_info.cpp] around the codecs. *)

(** ** The routing header, from the bytes *)

Section HeaderBytes.

Import feature feature.RoutingHeader_.

Lemma le_bytes_le_value (bs : list Z) :
  Forall (fun b => 0 <= b < 256) bs ->
  le_bytes (length bs) (le_value bs) = bs.
Proof.
  induction 1 as [|b bs Hb Hbs IH]; [reflexivity|].
  cbn [length le_bytes le_value].
  replace ((b + 256 * le_value bs) mod 256) with b
    by (Z.to_euclidean_division_equations; lia).
  replace ((b + 256 * le_value bs) / 256) with (le_value bs)
    by (Z.to_euclidean_division_equations; lia).
  now rewrite IH.
Qed.

Lemma le_value_range (bs : list Z) :
  Forall (fun b => 0 <= b < 256) bs ->
  0 <= le_value bs < 256 ^ Z.of_nat (length bs).
Proof.
  induction 1 as [|b bs Hb Hbs IH]; [simpl; lia|].
  cbn [length le_value]. rewrite Nat2Z.inj_succ, Z.pow_succ_r by lia. lia.
Qed.

(** X1.  [RoutingHeader::Deserialize] throws on a source of fewer than 12
    bytes; on a longer source of bytes it returns, takes exactly the first
    12 bytes, yields fields within their 16-bit and 32-bit types, and
    [Serialize] writes the header it read back to these 12 bytes. *)
Theorem RoutingHeader_Deserialize_bytes (src : list Z) :
  ((length src < 12)%nat -> Deserialize src = Err ReaderException)
  /\ ((12 <= length src)%nat ->
      Forall (fun b => 0 <= b < 256) src ->
      exists h,
        Deserialize src = Ok (h, skipn 12 src)
        /\ is_u16 (m_version h) /\ is_u16 (m_reserved h)
        /\ is_u32 (m_noRestrictionCount h)
        /\ is_u32 (m_onlyRestrictionCount h)
        /\ Serialize h [] = firstn 12 src).
Proof.
  split.
  - intros Hlen.
    do 12 (destruct src as [|? src]; [reflexivity|]).
    simpl in Hlen. lia.
  - intros Hlen Hbytes.
    do 12 (destruct src as [|? src]; [simpl in Hlen; lia|]).
    eexists. split; [reflexivity|].
    repeat (apply Forall_cons in Hbytes as [? Hbytes]).
    unfold is_u16, is_u32, Serialize, WriteToSink.
    cbn [m_version m_reserved m_noRestrictionCount m_onlyRestrictionCount
         firstn skipn le_value app].
    change (firstn 0 src) with (@nil Z). cbn [le_value].
    repeat split; try lia.
    assert (E2 : forall a b, 0 <= a < 256 -> 0 <= b < 256 ->
                 le_bytes 2 (a + 256 * (b + 256 * 0)) = [a; b]).
    { intros a b Ha Hb.
      apply (le_bytes_le_value [a; b]). repeat constructor; lia. }
    assert (E4 : forall a b c d, 0 <= a < 256 -> 0 <= b < 256 ->
                 0 <= c < 256 -> 0 <= d < 256 ->
                 le_bytes 4 (a + 256 * (b + 256 * (c + 256 * (d + 256 * 0))))
                 = [a; b; c; d]).
    { intros a b c d Ha Hb Hc Hd.
      apply (le_bytes_le_value [a; b; c; d]). repeat constructor; lia. }
    rewrite !E2, !E4 by assumption. reflexivity.
Qed.

Lemma RoutingHeader_Deserialize_bytes_witness :
  Deserialize [0; 0; 0] = Err ReaderException
  /\ exists h,
       Deserialize [1; 0; 0; 0; 2; 1; 0; 0; 1; 0; 0; 0; 169; 42]
       = Ok (h, [169; 42])
       /\ Serialize h [] = [1; 0; 0; 0; 2; 1; 0; 0; 1; 0; 0; 0].
Proof.
  split.
  - apply (RoutingHeader_Deserialize_bytes [0; 0; 0]). simpl. lia.
  - destruct (RoutingHeader_Deserialize_bytes
                [1; 0; 0; 0; 2; 1; 0; 0; 1; 0; 0; 0; 169; 42])
      as [_ H].
    destruct H as (h & Hd & _ & _ & _ & _ & Hs).
    + simpl. lia.
    + repeat constructor; lia.
    + exists h. split; [exact Hd|exact Hs].
Defined.

End HeaderBytes.

(** ** The restriction section, beyond the round trip *)

Section RestrictionsMore.

Import routing feature feature.RestrictionSerializer.

(** *** What [Serialize] accepts *)

Lemma type_eqb_eq (a b : RestrictionType) : type_eqb a b = true <-> a = b.
Proof. destruct a, b; unfold type_eqb; simpl; split; congruence. Qed.

Lemma IsValid_links r :
  IsValid r = true -> (1 <? length (m_featureIds r))%nat = true.
Proof.
  unfold IsValid. intros H. apply andb_true_iff in H as [H _].
  apply Nat.leb_le in H. apply Nat.ltb_lt. lia.
Qed.

Lemma CHECK_Ok cond msg u : CHECK cond msg = Ok u -> cond = true.
Proof. destruct cond; [reflexivity|discriminate]. Qed.

Lemma SerializeLoop_accepts type rs : forall prev (sink out : list Z),
  SerializeLoop type prev rs sink = Ok out
  <-> Forall (fun r => m_type r = type /\ IsValid r = true) rs
      /\ out = sink ++ concat (restriction_blocks prev rs).
Proof.
  induction rs as [|r rest IH]; intros prev sink out.
  - simpl. rewrite app_nil_r. split.
    + intros H. injection H as <-. split; [constructor|reflexivity].
    + intros [_ ->]. reflexivity.
  - cbn [SerializeLoop restriction_blocks concat]. split.
    + intros H.
      destruct (CHECK (type_eqb type (m_type r)) _) eqn:E1; [|discriminate].
      destruct (CHECK (IsValid r) _) eqn:E2; [|discriminate].
      destruct (CHECK (1 <? _)%nat _) eqn:E3; [|discriminate].
      cbn [mbind result_bind] in H.
      apply CHECK_Ok in E1, E2. apply type_eqb_eq in E1.
      apply IH in H as [Hrest ->].
      split; [constructor; [now split|exact Hrest]|].
      rewrite SerializeRestriction_block. now rewrite app_assoc.
    + intros [Hrs ->]. apply Forall_cons in Hrs as [[Ht Hv] Hrest].
      assert (Ht' : type_eqb type (m_type r) = true)
        by now apply type_eqb_eq.
      rewrite Ht', Hv, (IsValid_links r Hv), !CHECK_true, !bind_Ok.
      apply IH. split; [exact Hrest|].
      rewrite SerializeRestriction_block. now rewrite app_assoc.
Qed.

Lemma SerializeSingleType_accepts (rs : list Restriction) (sink out : list Z) :
  SerializeSingleType rs sink = Ok out
  <-> accepted rs /\ out = sink ++ concat (restriction_blocks 0 rs).
Proof.
  unfold SerializeSingleType, accepted.
  destruct rs as [|first rest].
  - simpl. rewrite app_nil_r. split.
    + intros H. injection H as <-.
      repeat split. exists No. constructor.
    + intros [_ ->]. reflexivity.
  - split.
    + intros H.
      destruct (CHECK (is_sorted (first :: rest)) _) eqn:E; [|discriminate].
      apply CHECK_Ok in E. rewrite bind_Ok in H.
      apply SerializeLoop_accepts in H as [Hrs ->].
      repeat split; [exact E|]. now exists (m_type first).
    + intros [[Hs [type Hrs]] ->].
      rewrite Hs, CHECK_true, bind_Ok.
      apply SerializeLoop_accepts. split; [|reflexivity].
      pose proof Hrs as Hrs'. apply Forall_cons in Hrs' as [[-> _] _].
      exact Hrs.
Qed.

(** X2.  [Serialize] returns exactly when each of its two ranges is sorted
    and holds valid restrictions of one type, whatever that type is.  What
    it has then appended to the sink is the blocks of the first range and
    then the blocks of the second, the chain of first links starting from 0
    in each; it does not depend on what the sink held, and a failed
    [Encode] does not stop it. *)
Theorem Serialize_accepts (rs : list Restriction) (firstOnly : nat)
  (sink out : list Z) :
  Serialize rs firstOnly sink = Ok out
  <-> accepted (firstn firstOnly rs)
      /\ accepted (skipn firstOnly rs)
      /\ out = sink
               ++ concat (restriction_blocks 0 (firstn firstOnly rs))
               ++ concat (restriction_blocks 0 (skipn firstOnly rs)).
Proof.
  unfold Serialize. split.
  - intros H.
    destruct (SerializeSingleType (firstn firstOnly rs) sink) as [mid|] eqn:E;
      [|discriminate].
    rewrite bind_Ok in H.
    apply SerializeSingleType_accepts in E as [Ha ->].
    apply SerializeSingleType_accepts in H as [Hb ->].
    split; [exact Ha|split; [exact Hb|now rewrite <- app_assoc]].
  - intros (Ha & Hb & ->).
    assert (E : SerializeSingleType (firstn firstOnly rs) sink
                = Ok (sink ++ concat (restriction_blocks 0 (firstn firstOnly rs))))
      by (apply SerializeSingleType_accepts; now split).
    rewrite E, bind_Ok.
    apply SerializeSingleType_accepts. split; [exact Hb|].
    now rewrite app_assoc.
Qed.

(** *** The type is not on the wire *)

Lemma restriction_blocks_retype type rs : forall prev,
  restriction_blocks prev
    (map (fun r => mkRestriction type (m_featureIds r)) rs)
  = restriction_blocks prev rs.
Proof.
  induction rs as [|r rest IH]; intros prev; [reflexivity|].
  cbn [map restriction_blocks m_featureIds]. now rewrite IH.
Qed.

Lemma group_fits_retype type rs : forall prev,
  group_fits prev rs ->
  group_fits prev (map (fun r => mkRestriction type (m_featureIds r)) rs).
Proof.
  induction rs as [|r rest IH]; intros prev H; [exact I|].
  destruct H as [H1 H2]. split; [exact H1|]. now apply IH.
Qed.

Lemma well_formed_retype type type' rs :
  Forall (fun r => m_type r = type' /\ well_formed r) rs ->
  Forall (fun r => m_type r = type /\ well_formed r)
         (map (fun r => mkRestriction type (m_featureIds r)) rs).
Proof.
  induction 1 as [|r rest [_ Hwf] _ IH]; constructor; [|exact IH].
  split; [reflexivity|exact Hwf].
Qed.

(** X3.  The payload carries no restriction type.  Take two sorted
    ranges of restrictions the format can carry: each restriction
    well-formed, and no feature id 2^31 away, modulo 2^32, from the one
    before it in the delta chain of its range.  Whatever the one type of
    each range is, [Serialize] takes them, and [Deserialize] with the
    matching counts hands the restrictions of the first range back as
    [No] and those of the second as [Only], feature ids unchanged. *)
Theorem Serialize_forgets_types (t1 t2 : RestrictionType)
  (g1 g2 : list Restriction) (header : RoutingHeader) :
  is_sorted g1 = true ->
  is_sorted g2 = true ->
  Forall (fun r => m_type r = t1 /\ well_formed r) g1 ->
  Forall (fun r => m_type r = t2 /\ well_formed r) g2 ->
  group_fits 0 g1 ->
  group_fits 0 g2 ->
  m_noRestrictionCount header = Z.of_nat (length g1) ->
  m_onlyRestrictionCount header = Z.of_nat (length g2) ->
  exists bytes,
    Serialize (g1 ++ g2) (length g1) [] = Ok bytes
    /\ Deserialize header [] bytes
       = Ok (map (fun r => mkRestriction No (m_featureIds r)) g1
             ++ map (fun r => mkRestriction Only (m_featureIds r)) g2, []).
Proof.
  intros Hs1 Hs2 Hg1 Hg2 Hf1 Hf2 Hn Ho.
  exists (concat (restriction_blocks 0 g1) ++ concat (restriction_blocks 0 g2)).
  split.
  - unfold Serialize.
    rewrite firstn_app, Nat.sub_diag, firstn_all, firstn_O, app_nil_r.
    rewrite skipn_app, Nat.sub_diag, skipn_all, skipn_O.
    rewrite (SerializeSingleType_ok t1 g1 [] Hs1 Hg1), bind_Ok.
    rewrite (SerializeSingleType_ok t2 g2 _ Hs2 Hg2).
    reflexivity.
  - unfold Deserialize, DeserializeSingleType.
    rewrite Hn, Ho, !Nat2Z.id.
    set (g1' := map (fun r => mkRestriction No (m_featureIds r)) g1).
    set (g2' := map (fun r => mkRestriction Only (m_featureIds r)) g2).
    rewrite <- (restriction_blocks_retype No g1 0).
    rewrite <- (restriction_blocks_retype Only g2 0).
    fold g1' g2'.
    replace (length g1) with (length g1')
      by (unfold g1'; now rewrite length_map).
    replace (length g2) with (length g2')
      by (unfold g2'; now rewrite length_map).
    rewrite (DeserializeLoop_blocks No g1' 0 []).
    2:{ apply well_formed_retype with t1. exact Hg1. }
    2:{ unfold is_u32. lia. }
    2:{ now apply group_fits_retype. }
    rewrite bind_Ok. cbn beta iota.
    rewrite <- (app_nil_r (concat (restriction_blocks 0 g2'))).
    rewrite (DeserializeLoop_blocks Only g2' 0 _ []).
    2:{ apply well_formed_retype with t2. exact Hg2. }
    2:{ unfold is_u32. lia. }
    2:{ now apply group_fits_retype. }
    reflexivity.
Qed.

Lemma Serialize_forgets_types_witness :
  exists bytes,
    Serialize ([mkRestriction Only [5; 6]] ++ [mkRestriction No [10; 11]])
      (length [mkRestriction Only [5; 6]]) [] = Ok bytes
    /\ Deserialize (mkRoutingHeader 0 0 1 1) [] bytes
       = Ok (map (fun r => mkRestriction No (m_featureIds r))
                 [mkRestriction Only [5; 6]]
             ++ map (fun r => mkRestriction Only (m_featureIds r))
                 [mkRestriction No [10; 11]], []).
Proof.
  apply (Serialize_forgets_types Only No).
  - reflexivity.
  - reflexivity.
  - unfold well_formed, kInvalidFeatureId; simpl.
    repeat constructor; simpl; lia.
  - unfold well_formed, kInvalidFeatureId; simpl.
    repeat constructor; simpl; lia.
  - vm_compute. repeat split; discriminate.
  - vm_compute. repeat split; discriminate.
  - reflexivity.
  - reflexivity.
Defined.

(** *** What [Deserialize] hands back on any source *)

(** The readers only move forward in the source, and a reader that has
    handed out a bit of a fresh byte has taken that byte. *)
Lemma read_bit_src r b r' :
  read_bit r = Ok (b, r') ->
  exists pre, br_src r = pre ++ br_src r'
    /\ (br_buf r = [] -> (1 <= length pre)%nat).
Proof.
  unfold read_bit. destruct r as [src buf]. simpl.
  destruct buf as [|b0 buf].
  - destruct src as [|x src]; [discriminate|].
    intros H. injection H as <- <-. exists [x]. simpl. split; [reflexivity|lia].
  - intros H. injection H as <- <-. exists []. simpl. split; [reflexivity|].
    discriminate.
Qed.

Lemma BitReader_Read_src k : forall r v r',
  BitReader_Read r k = Ok (v, r') ->
  exists pre, br_src r = pre ++ br_src r'
    /\ (br_buf r = [] -> (1 <= k)%nat -> (1 <= length pre)%nat).
Proof.
  induction k as [|k IH]; intros r v r' H.
  - simpl in H. injection H as <- <-. exists []. split; [reflexivity|lia].
  - cbn [BitReader_Read] in H.
    destruct (read_bit r) as [[b r1]|] eqn:E1; [|discriminate].
    cbn [mbind result_bind] in H.
    destruct (BitReader_Read r1 k) as [[v2 r2]|] eqn:E2; [|discriminate].
    cbn [mbind result_bind] in H. injection H as <- <-.
    apply read_bit_src in E1 as (pre1 & -> & S1).
    apply IH in E2 as (pre2 & -> & _).
    exists (pre1 ++ pre2). rewrite app_assoc. split; [reflexivity|].
    intros Hb _. rewrite length_app. specialize (S1 Hb). lia.
Qed.

Lemma leading_zeros_src fuel : forall z r n r',
  GammaCoder.leading_zeros fuel z r = Ok (n, r') ->
  exists pre, br_src r = pre ++ br_src r'
    /\ (br_buf r = [] -> (1 <= length pre)%nat).
Proof.
  induction fuel as [|fuel IH]; intros z r n r' H; [discriminate|].
  cbn [GammaCoder.leading_zeros] in H.
  destruct (BitReader_Read r 1) as [[v r1]|] eqn:E1; [|discriminate].
  cbn [mbind result_bind] in H.
  apply BitReader_Read_src in E1 as (pre1 & -> & S1).
  destruct (v =? 0).
  - apply IH in H as (pre2 & -> & _).
    exists (pre1 ++ pre2). rewrite app_assoc. split; [reflexivity|].
    intros Hb. rewrite length_app. specialize (S1 Hb). lia.
  - injection H as <- <-. exists pre1. split; [reflexivity|].
    intros Hb. apply S1; [exact Hb|lia].
Qed.

Lemma read_msb_src k : forall acc r v r',
  GammaCoder.read_msb k acc r = Ok (v, r') ->
  exists pre, br_src r = pre ++ br_src r'.
Proof.
  induction k as [|k IH]; intros acc r v r' H.
  - simpl in H. injection H as <- <-. now exists [].
  - cbn [GammaCoder.read_msb] in H.
    destruct (BitReader_Read r 1) as [[b r1]|] eqn:E1; [|discriminate].
    cbn [mbind result_bind] in H.
    apply BitReader_Read_src in E1 as (pre1 & -> & _).
    apply IH in H as (pre2 & ->).
    exists (pre1 ++ pre2). now rewrite app_assoc.
Qed.

Lemma GammaCoder_Decode_src r v r' :
  GammaCoder.Decode r = Ok (v, r') ->
  exists pre, br_src r = pre ++ br_src r'
    /\ (br_buf r = [] -> (1 <= length pre)%nat).
Proof.
  unfold GammaCoder.Decode. intros H.
  destruct (GammaCoder.leading_zeros 64 0 r) as [[z r1]|] eqn:E1;
    [|discriminate].
  cbn [mbind result_bind] in H.
  apply leading_zeros_src in E1 as (pre1 & -> & S1).
  apply read_msb_src in H as (pre2 & ->).
  exists (pre1 ++ pre2). rewrite app_assoc. split; [reflexivity|].
  intros Hb. rewrite length_app. specialize (S1 Hb). lia.
Qed.

Lemma DeltaCoder_Decode_src r v r' :
  DeltaCoder.Decode r = Ok (v, r') ->
  exists pre, br_src r = pre ++ br_src r'
    /\ (br_buf r = [] -> (1 <= length pre)%nat).
Proof.
  unfold DeltaCoder.Decode. intros H.
  destruct (GammaCoder.Decode r) as [[len r1]|] eqn:E1; [|discriminate].
  cbn [mbind result_bind] in H.
  apply GammaCoder_Decode_src in E1 as (pre1 & -> & S1).
  destruct (len <=? 64); [|discriminate].
  apply read_msb_src in H as (pre2 & ->).
  exists (pre1 ++ pre2). rewrite app_assoc. split; [reflexivity|].
  intros Hb. rewrite length_app. specialize (S1 Hb). lia.
Qed.

Lemma u32_is_u32 x : is_u32 (u32 x).
Proof. unfold is_u32, u32. apply Z.mod_pos_bound. lia. Qed.

Lemma DeserializeLinks_src n : forall bits prev o bits',
  DeserializeLinks n bits prev = Ok (o, bits') ->
  (exists pre, br_src bits = pre ++ br_src bits')
  /\ forall links, o = Some links ->
       length links = n /\ Forall is_u32 links.
Proof.
  induction n as [|n IH]; intros bits prev o bits' H.
  - simpl in H. injection H as <- <-. split; [now exists []|].
    intros links E. injection E as <-. split; [reflexivity|constructor].
  - cbn [DeserializeLinks] in H.
    destruct (DeltaCoder.Decode bits) as [[decoded r1]|] eqn:E1;
      [|discriminate].
    cbn [mbind result_bind] in H.
    apply DeltaCoder_Decode_src in E1 as (pre1 & Hpre1 & _).
    destruct (u32 decoded =? 0).
    + injection H as <- <-. split; [now exists pre1|]. discriminate.
    + destruct (DeserializeLinks n r1 _) as [[rest r2]|] eqn:E2;
        [|discriminate].
      cbn [mbind result_bind] in H. injection H as <- <-.
      apply IH in E2 as [(pre2 & Hpre2) Hrest].
      split.
      * exists (pre1 ++ pre2). now rewrite Hpre1, Hpre2, app_assoc.
      * intros links E. destruct rest as [rest|]; [|discriminate].
        injection E as <-.
        destruct (Hrest rest eq_refl) as [Hlen Hr].
        split; [simpl; now rewrite Hlen|].
        constructor; [apply u32_is_u32|exact Hr].
Qed.

Lemma DeserializeRestriction_src type prev (src : list Z) o rest :
  DeserializeRestriction type prev src = Ok (o, rest) ->
  (exists pre, src = pre ++ rest /\ (1 <= length pre)%nat)
  /\ forall r, o = Some r -> decoded_as type r.
Proof.
  unfold DeserializeRestriction, BitReader_drop. intros H.
  destruct (DeltaCoder.Decode (BitReader_new src)) as [[decoded r1]|] eqn:E1;
    [|discriminate].
  cbn [mbind result_bind] in H.
  apply DeltaCoder_Decode_src in E1 as (pre1 & Hpre1 & S1).
  simpl in Hpre1. specialize (S1 eq_refl).
  destruct (u32 decoded =? 0) eqn:Ez.
  - injection H as <- <-. split; [|discriminate].
    exists pre1. now split.
  - set (linkNumber := u32 (u32 decoded + 1)) in *.
    destruct (DeserializeLinks (Z.to_nat linkNumber) r1 prev)
      as [[links r2]|] eqn:E2; [|discriminate].
    cbn [mbind result_bind] in H.
    apply DeserializeLinks_src in E2 as [(pre2 & Hpre2) Hlinks].
    assert (Hsrc : exists pre, src = pre ++ br_src r2 /\ (1 <= length pre)%nat).
    { exists (pre1 ++ pre2). rewrite Hpre1, Hpre2, app_assoc.
      split; [reflexivity|]. rewrite length_app. lia. }
    destruct links as [[|fid fids]|].
    + discriminate.
    + injection H as <- <-. split; [exact Hsrc|].
      intros r E. injection E as <-.
      destruct (Hlinks _ eq_refl) as [Hlen Hr].
      unfold decoded_as. cbn [m_type m_featureIds].
      split; [reflexivity|]. split; [|exact Hr].
      apply Z.eqb_neq in Ez.
      pose proof (u32_is_u32 decoded) as Hd. unfold is_u32 in Hd.
      assert (Hn : linkNumber <> 0).
      { intros E0. rewrite E0 in Hlen. discriminate. }
      assert (2 <= linkNumber).
      { unfold linkNumber, u32 in *.
        destruct (Z.eq_dec (decoded mod 2 ^ 32 + 1) (2 ^ 32)) as [E|E].
        - rewrite E, Z.mod_same in Hn by lia. lia.
        - rewrite Z.mod_small by lia. lia. }
      lia.
    + injection H as <- <-. split; [exact Hsrc|]. discriminate.
Qed.

Lemma DeserializeLoop_src type count :
  forall prev (acc : list Restriction) (src : list Z) b rs rest,
  DeserializeLoop type count prev acc src = Ok (b, rs, rest) ->
  exists news pre,
    rs = acc ++ news
    /\ Forall (decoded_as type) news
    /\ src = pre ++ rest
    /\ (length news <= length pre)%nat
    /\ (length news <= count)%nat
    /\ (b = true <-> length news = count).
Proof.
  induction count as [|count IH]; intros prev acc src b rs rest H.
  - simpl in H. injection H as <- <- <-. exists [], [].
    rewrite app_nil_r. repeat split; simpl; try constructor; lia.
  - cbn [DeserializeLoop] in H.
    destruct (DeserializeRestriction type prev src) as [[o mid]|] eqn:E;
      [|discriminate].
    cbn [mbind result_bind] in H.
    apply DeserializeRestriction_src in E as [(pre1 & -> & Hpre1) Ho].
    destruct o as [r|].
    + apply IH in H as (news & pre2 & -> & Hnews & -> & Hl1 & Hl2 & Hb).
      exists (r :: news), (pre1 ++ pre2).
      rewrite <- !app_assoc. cbn [app length].
      split; [reflexivity|]. split; [constructor; [now apply Ho|exact Hnews]|].
      split; [reflexivity|]. rewrite length_app.
      split; [lia|]. split; [lia|]. rewrite Hb. lia.
    + injection H as <- <- <-. exists [], pre1.
      rewrite app_nil_r.
      repeat split; simpl; try constructor; try lia; try discriminate.
Qed.

(** X4.  Whenever [Deserialize] returns, the vector it was handed is still
    there, followed by the decoded [No] restrictions and then the decoded
    [Only] ones, each with two or more 32-bit feature ids; each range adds
    at most the count of the header; what is left of the source is a suffix
    of it, and every restriction added took at least one byte.  Both calls
    of [DeserializeSingleType] returned true exactly when the vector grew
    by the two counts of the header. *)
Theorem Deserialize_invariants (header : RoutingHeader)
  (acc rs : list Restriction) (src rest : list Z) :
  Deserialize header acc src = Ok (rs, rest) ->
  exists nos onlys consumed mid b1 b2,
    DeserializeSingleType No (m_noRestrictionCount header) acc src
      = Ok (b1, acc ++ nos, mid)
    /\ DeserializeSingleType Only (m_onlyRestrictionCount header)
         (acc ++ nos) mid
       = Ok (b2, rs, rest)
    /\ rs = acc ++ nos ++ onlys
    /\ Forall (decoded_as No) nos
    /\ Forall (decoded_as Only) onlys
    /\ src = consumed ++ rest
    /\ (length nos + length onlys <= length consumed)%nat
    /\ (length nos <= Z.to_nat (m_noRestrictionCount header))%nat
    /\ (length onlys <= Z.to_nat (m_onlyRestrictionCount header))%nat
    /\ (b1 = true /\ b2 = true
        <-> length nos = Z.to_nat (m_noRestrictionCount header)
            /\ length onlys = Z.to_nat (m_onlyRestrictionCount header)).
Proof.
  unfold Deserialize. intros H.
  destruct (DeserializeSingleType No _ acc src) as [[[b1 rs1] mid]|] eqn:E1;
    [|discriminate].
  cbn [mbind result_bind] in H.
  destruct (DeserializeSingleType Only _ rs1 mid) as [[[b2 rs2] rest2]|] eqn:E2;
    [|discriminate].
  cbn [mbind result_bind] in H. injection H as <- <-.
  pose proof E1 as E1'. pose proof E2 as E2'.
  unfold DeserializeSingleType in E1', E2'.
  apply DeserializeLoop_src in E1'
    as (nos & pre1 & -> & Hnos & -> & Hl1 & Hc1 & Hb1).
  apply DeserializeLoop_src in E2'
    as (onlys & pre2 & -> & Honlys & -> & Hl2 & Hc2 & Hb2).
  exists nos, onlys, (pre1 ++ pre2), (pre2 ++ rest2), b1, b2.
  rewrite <- !app_assoc, length_app.
  repeat split; try assumption; try lia.
  - rewrite <- app_assoc in E2. exact E2.
  - now apply Hb1.
  - now apply Hb2.
  - apply Hb1. lia.
  - apply Hb2. lia.
Qed.

Lemma Deserialize_invariants_witness :
  exists nos onlys consumed mid b1 b2,
    DeserializeSingleType No 1 [] [32; 4; 0; 0; 0; 0; 137; 21]
      = Ok (b1, [] ++ nos, mid)
    /\ DeserializeSingleType Only 1 ([] ++ nos) mid
       = Ok (b2, [mkRestriction Only [5; 6]], [])
    /\ [mkRestriction Only [5; 6]] = [] ++ nos ++ onlys
    /\ Forall (decoded_as No) nos
    /\ Forall (decoded_as Only) onlys
    /\ [32; 4; 0; 0; 0; 0; 137; 21] = consumed ++ []
    /\ (length nos + length onlys <= length consumed)%nat
    /\ (length nos <= Z.to_nat 1)%nat
    /\ (length onlys <= Z.to_nat 1)%nat
    /\ (b1 = true /\ b2 = true
        <-> length nos = Z.to_nat 1 /\ length onlys = Z.to_nat 1).
Proof.
  apply (Deserialize_invariants (mkRoutingHeader 0 0 1 1) []
           [mkRestriction Only [5; 6]] [32; 4; 0; 0; 0; 0; 137; 21] []).
  vm_compute. reflexivity.
Defined.

(** *** Alignment *)






(** *** An empty source *)

Lemma DeserializeLoop_empty type count prev (acc : list Restriction) :
  DeserializeLoop type (S count) prev acc [] = Err ReaderException.
Proof. reflexivity. Qed.

(** X21.  On an empty source [Deserialize] returns the vector as it was
    handed over when the header announces no restriction, and throws as
    soon as it announces one, of either type. *)
Theorem Deserialize_empty_source (header : RoutingHeader)
  (acc : list Restriction) :
  is_u32 (m_noRestrictionCount header) ->
  is_u32 (m_onlyRestrictionCount header) ->
  Deserialize header acc []
  = if (m_noRestrictionCount header =? 0)
       && (m_onlyRestrictionCount header =? 0)
    then Ok (acc, [])
    else Err ReaderException.
Proof.
  unfold is_u32, Deserialize, DeserializeSingleType. intros Hno Honly.
  destruct (Z.eqb_spec (m_noRestrictionCount header) 0) as [E1|E1].
  - rewrite E1. change (Z.to_nat 0) with 0%nat.
    cbn [DeserializeLoop andb mbind result_bind].
    destruct (Z.eqb_spec (m_onlyRestrictionCount header) 0) as [E2|E2].
    + rewrite E2. reflexivity.
    + destruct (Z.to_nat (m_onlyRestrictionCount header)) as [|n] eqn:En;
        [lia|].
      now rewrite DeserializeLoop_empty.
  - cbn [andb].
    destruct (Z.to_nat (m_noRestrictionCount header)) as [|n] eqn:En; [lia|].
    now rewrite DeserializeLoop_empty.
Qed.

Lemma Deserialize_empty_source_witness :
  Deserialize (mkRoutingHeader 0 0 0 3) [mkRestriction No [1; 2]] []
  = Err ReaderException.
Proof.
  apply (Deserialize_empty_source (mkRoutingHeader 0 0 0 3)
           [mkRestriction No [1; 2]]);
    unfold is_u32; simpl; lia.
Defined.

End RestrictionsMore.

(** ** The traffic keys, beyond the round trip *)

Section TrafficKeysMore.

Import traffic traffic.TrafficInfo.

(** *** From the three vectors to the bytes and back *)

Lemma keys_wire_roundtrip (debug : bool) (K : list RoadSegmentId)
  fids numSegs oneWay :
  key_vectors 0 fids numSegs oneWay ->
  GroupKeys (length K) K = Ok (fids, numSegs, oneWay) ->
  exists bytes,
    SerializeTrafficKeys debug K = Ok bytes
    /\ DeserializeTrafficKeys debug bytes
       = Ok (ExpandKeys fids numSegs oneWay).
Proof.
  intros HV HG.
  destruct (key_vectors_length _ _ _ _ HV) as (Hl1 & Hl2 & Hl3).
  specialize (Hl3 ltac:(lia)).
  set (n := Z.of_nat (length fids)) in *.
  set (stream := fids_bits 0 fids ++ numSegs_bits numSegs ++ oneWay).
  exists ((le_bytes 1 kLatestKeysVersion ++ varuint_bytes 10 (u64 n))
          ++ bytes_of_bits stream).
  split.
  - unfold SerializeTrafficKeys. step_bind HG.
    rewrite (EncodeFids_bits debug fids _ 0 0 numSegs oneWay) by (lia || assumption).
    rewrite bind_Ok.
    rewrite (EncodeNumSegs_bits debug numSegs _ 0 fids oneWay) by assumption.
    rewrite bind_Ok, EncodeOneWay_bits.
    rewrite <- !write_bits_app, BitWriter_drop_write_bits.
    reflexivity.
  - unfold DeserializeTrafficKeys, ReadKeyGroups.
    rewrite <- !app_assoc.
    rewrite ReadPrimitiveFromSource_le_bytes, bind_Ok. cbn beta iota.
    change (kLatestKeysVersion mod 256 ^ Z.of_nat 1 =? kLatestKeysVersion)
      with true.
    rewrite CHECK_true, bind_Ok.
    rewrite ReadVarUint_varuint_bytes by (unfold n; lia).
    rewrite bind_Ok. cbn beta iota.
    rewrite Z.mod_small by (unfold n; lia).
    unfold n. rewrite Nat2Z.id.
    pose proof (reader_at_new stream []) as Hat.
    rewrite app_nil_r in Hat. unfold stream in Hat at 2.
    destruct (DecodeFids_bits fids 0 0 numSegs oneWay _ _ _ ltac:(lia) HV Hat)
      as (r1 & Hr1 & Hat1).
    destruct (DecodeNumSegs_bits numSegs 0 fids oneWay _ _ _ HV Hat1)
      as (r2 & Hr2 & Hat2).
    rewrite <- (app_nil_r oneWay) in Hat2.
    destruct (DecodeOneWay_bits oneWay _ _ _ Hat2) as (r3 & Hr3 & Hat3).
    rewrite Hl1 in Hr2. rewrite Hl2 in Hr3.
    step_bind Hr1. step_bind Hr2. step_bind Hr3.
    rewrite bind_Ok. cbn beta iota.
    rewrite (reader_at_done _ _ Hat3).
    change (length [] =? 0)%nat with true.
    rewrite ASSERT_true, bind_Ok. reflexivity.
Qed.

(** *** Runs of a sorted vector *)

Lemma StronglySorted_app_parts {A} (R : A -> A -> Prop) (l1 l2 : list A) :
  StronglySorted R (l1 ++ l2) ->
  StronglySorted R l1 /\ StronglySorted R l2.
Proof.
  induction l1 as [|x l1 IH]; intros H; [split; [constructor|exact H]|].
  cbn [app] in H. apply StronglySorted_inv in H as [H Hx].
  destruct (IH H) as [H1 H2]. split; [|exact H2].
  constructor; [exact H1|]. apply Forall_app in Hx as [Hx _]. exact Hx.
Qed.

Lemma key_lt_fid a b : key_lt a b -> m_fid a <= m_fid b.
Proof. unfold key_lt. lia. Qed.

Lemma ascending_length (l : list Z) : forall a b,
  StronglySorted Z.lt l ->
  Forall (fun x => a <= x < b) l ->
  l = [] \/ Z.of_nat (length l) <= b - a.
Proof.
  induction l as [|x l IH]; intros a b Hs Hr; [now left|right].
  apply StronglySorted_inv in Hs as [Hs Hx].
  apply Forall_cons in Hr as [Hxr Hr].
  destruct (IH (x + 1) b Hs) as [->|Hl].
  - apply List.Forall_forall. intros y Hy.
    rewrite List.Forall_forall in Hx, Hr.
    specialize (Hx y Hy). specialize (Hr y Hy). lia.
  - simpl. lia.
  - cbn [length]. lia.
Qed.

Lemma run_code_sorted fid (run : list RoadSegmentId) :
  StronglySorted key_lt run ->
  Forall key_in_range run ->
  Forall (fun k => m_fid k = fid) run ->
  StronglySorted Z.lt (map (fun k => 2 * m_idx k + m_dir k) run).
Proof.
  induction run as [|k run IH]; intros Hs Hr Hf; [constructor|].
  apply StronglySorted_inv in Hs as [Hs Hk].
  apply Forall_cons in Hr as [Hkr Hr].
  apply Forall_cons in Hf as [Hkf Hf].
  cbn [map]. constructor; [now apply IH|].
  apply List.Forall_forall. intros x Hx. apply in_map_iff in Hx as (k' & <- & Hk').
  rewrite List.Forall_forall in Hk, Hr, Hf.
  specialize (Hk k' Hk'). specialize (Hr k' Hk'). specialize (Hf k' Hk').
  unfold key_lt in Hk. unfold key_in_range, kForwardDirection,
    kReverseDirection in *. lia.
Qed.

Lemma run_idx_sorted fid (run : list RoadSegmentId) :
  StronglySorted key_lt run ->
  Forall (fun k => m_dir k = kForwardDirection) run ->
  Forall (fun k => m_fid k = fid) run ->
  StronglySorted Z.lt (map m_idx run).
Proof.
  induction run as [|k run IH]; intros Hs Hd Hf; [constructor|].
  apply StronglySorted_inv in Hs as [Hs Hk].
  apply Forall_cons in Hd as [Hkd Hd].
  apply Forall_cons in Hf as [Hkf Hf].
  cbn [map]. constructor; [now apply IH|].
  apply List.Forall_forall. intros x Hx.
  apply in_map_iff in Hx as (k' & <- & Hk').
  rewrite List.Forall_forall in Hk, Hd, Hf.
  specialize (Hk k' Hk'). specialize (Hd k' Hk'). specialize (Hf k' Hk').
  unfold key_lt in Hk. lia.
Qed.

Lemma run_length_bound fid (run : list RoadSegmentId) :
  StronglySorted key_lt run ->
  Forall key_in_range run ->
  Forall (fun k => m_fid k = fid) run ->
  Z.of_nat (length run) <= (if is_one_way run then 2 ^ 16 else 2 ^ 17).
Proof.
  intros Hs Hr Hf.
  pose proof (run_code_sorted fid run Hs Hr Hf) as Hc.
  destruct (is_one_way run) eqn:How.
  - assert (Hd : Forall (fun k => m_dir k = kForwardDirection) run).
    { apply List.Forall_forall. intros k Hk.
      rewrite List.Forall_forall in Hr. specialize (Hr k Hk).
      unfold is_one_way in How. rewrite forallb_forall in How.
      specialize (How k Hk). apply negb_true_iff, Z.eqb_neq in How.
      unfold key_in_range in Hr. tauto. }
    pose proof (run_idx_sorted fid run Hs Hd Hf) as Hi.
    destruct (ascending_length _ 0 (2 ^ 16) Hi) as [E|Hl].
    + apply List.Forall_forall. intros x Hx.
      apply in_map_iff in Hx as (k & <- & Hk).
      rewrite List.Forall_forall in Hr. specialize (Hr k Hk).
      unfold key_in_range in Hr. lia.
    + apply map_eq_nil in E. subst run. simpl. lia.
    + rewrite length_map in Hl. lia.
  - destruct (ascending_length _ 0 (2 ^ 17) Hc) as [E|Hl].
    + apply List.Forall_forall. intros x Hx.
      apply in_map_iff in Hx as (k & <- & Hk).
      rewrite List.Forall_forall in Hr. specialize (Hr k Hk).
      unfold key_in_range, kForwardDirection, kReverseDirection in *. lia.
    + apply map_eq_nil in E. subst run. simpl. lia.
    + rewrite length_map in Hl. lia.
Qed.

Lemma map_fid_repeat fid (l : list RoadSegmentId) :
  Forall (fun k => m_fid k = fid) l ->
  map m_fid l = repeat fid (length l).
Proof.
  induction 1 as [|k l Hk Hl IH]; [reflexivity|].
  cbn [map length repeat]. now rewrite Hk, IH.
Qed.

Lemma CHECK_pass cond msg u : CHECK cond msg = Ok u -> cond = true.
Proof. destruct cond; [reflexivity|discriminate]. Qed.

Lemma GroupKeys_sorted fuel :
  forall (K : list RoadSegmentId) lo fids numSegs oneWay,
  StronglySorted key_lt K ->
  Forall key_in_range K ->
  Forall (fun k => lo <= m_fid k) K ->
  (length K <= fuel)%nat ->
  GroupKeys fuel K = Ok (fids, numSegs, oneWay) ->
  key_vectors lo fids numSegs oneWay
  /\ map m_fid (ExpandKeys fids numSegs oneWay) = map m_fid K.
Proof.
  induction fuel as [|fuel IH];
    intros K lo fids numSegs oneWay Hs Hr Hlo Hfuel HG.
  - destruct K; [|simpl in Hfuel; lia].
    simpl in HG. injection HG as <- <- <-. split; [constructor|reflexivity].
  - destruct K as [|first K'].
    { simpl in HG. injection HG as <- <- <-.
      split; [constructor|reflexivity]. }
    cbn [GroupKeys] in HG.
    destruct (same_fid_run (m_fid first) (first :: K')) as [run rest] eqn:Erun.
    destruct (same_fid_run_spec _ _ _ _ Erun) as (EK & Hrun & Hrest).
    assert (Hne : run <> []).
    { cbn [same_fid_run] in Erun. rewrite Z.eqb_refl in Erun.
      destruct (same_fid_run (m_fid first) K'). injection Erun as <- _.
      discriminate. }
    set (fid := m_fid first) in *.
    set (ow := is_one_way run) in *.
    destruct (CHECK (0 <? (if ow then 1 else 2)) _) eqn:E1; [|discriminate].
    rewrite bind_Ok in HG.
    destruct (CHECK (Z.of_nat (length run) mod (if ow then 1 else 2) =? 0) _)
      eqn:E2; [|discriminate].
    rewrite bind_Ok in HG.
    destruct (GroupKeys fuel rest) as [[[fids' numSegs'] oneWay']|] eqn:E3;
      [|discriminate].
    rewrite bind_Ok in HG. injection HG as <- <- <-.
    apply CHECK_pass in E2. apply Z.eqb_eq in E2.
    rewrite EK in Hs, Hr, Hlo, Hfuel.
    destruct (StronglySorted_app_parts _ _ _ Hs) as [Hsrun Hsrest].
    apply Forall_app in Hr as [Hrrun Hrrest].
    apply Forall_app in Hlo as [Hlorun _].
    (* every key after the run belongs to a larger feature id *)
    assert (Hafter : Forall (fun k => fid + 1 <= m_fid k) rest).
    { destruct rest as [|k0 rest']; [constructor|].
      pose proof (Hrest k0 rest' eq_refl) as Hk0.
      destruct run as [|r0 run']; [congruence|].
      cbn [app] in Hs. apply StronglySorted_inv in Hs as [_ Hr0].
      apply Forall_app in Hr0 as [_ Hr0].
      apply Forall_cons in Hrun as [Hr0f _].
      apply StronglySorted_inv in Hsrest as [_ Hk0s].
      pose proof Hr0 as Hr0'. apply Forall_cons in Hr0' as [Hk0r _].
      apply key_lt_fid in Hk0r.
      constructor; [lia|].
      eapply Forall_impl; [exact Hk0s|].
      intros k Hk. apply key_lt_fid in Hk. simpl. lia. }
    rewrite length_app in Hfuel.
    assert (Hlen : (1 <= length run)%nat).
    { destruct run; [congruence|simpl; lia]. }
    destruct (IH rest (fid + 1) fids' numSegs' oneWay' Hsrest Hrrest Hafter
                ltac:(lia) E3) as [HV HM].
    pose proof (run_length_bound fid run Hsrun Hrrun Hrun) as Hbound.
    fold ow in Hbound.
    assert (Hfid : lo <= fid < 2 ^ 32 - 1).
    { destruct run as [|r0 run']; [congruence|].
      apply Forall_cons in Hrun as [Hr0f _].
      apply Forall_cons in Hlorun as [Hr0lo _].
      apply Forall_cons in Hrrun as [Hr0r _].
      unfold key_in_range in Hr0r. lia. }
    set (s := Z.of_nat (length run) / (if ow then 1 else 2)) in *.
    assert (Hs' : 1 <= s <= 2 ^ 16
                  /\ Z.of_nat (length run) = s * (if ow then 1 else 2)).
    { unfold s. destruct ow.
      - rewrite Z.div_1_r. lia.
      - apply Z.mod_divide in E2; [|lia]. destruct E2 as [q Eq].
        rewrite Eq, Z.div_mul by lia. lia. }
    destruct Hs' as [Hsr Hsl].
    split; [constructor; assumption|].
    rewrite EK. cbn [ExpandKeys]. rewrite map_app, HM, map_app. f_equal.
    replace s with (Z.of_nat (Z.to_nat s)) by lia.
    rewrite ExpandGroup_group_keys by lia.
    rewrite (map_fid_repeat fid _ (group_keys_fid _ _ _)).
    rewrite (map_fid_repeat fid run Hrun).
    f_equal. rewrite group_keys_length.
    apply Nat2Z.inj. rewrite Nat2Z.inj_mul, Z2Nat.id by lia.
    rewrite Hsl. destruct ow; reflexivity.
Qed.

(** *** The vector the decoder expands *)

Lemma ExpandKeys_properly_grouped lo fids numSegs oneWay :
  key_vectors lo fids numSegs oneWay ->
  properly_grouped lo (ExpandKeys fids numSegs oneWay).
Proof.
  induction 1 as [|lo fid s ow fids numSegs oneWay Hfid Hs HV IH];
    [constructor|].
  cbn [ExpandKeys].
  replace s with (Z.of_nat (Z.to_nat s)) by lia.
  rewrite ExpandGroup_group_keys by lia.
  constructor; [exact Hfid|lia|exact IH].
Qed.

Lemma GroupKeys_ExpandKeys lo fids numSegs oneWay :
  key_vectors lo fids numSegs oneWay ->
  forall fuel,
  (length (ExpandKeys fids numSegs oneWay) <= fuel)%nat ->
  GroupKeys fuel (ExpandKeys fids numSegs oneWay)
  = Ok (fids, numSegs, oneWay).
Proof.
  induction 1 as [|lo fid s ow fids numSegs oneWay Hfid Hs HV IH];
    intros fuel Hfuel.
  - destruct fuel; reflexivity.
  - pose proof (ExpandKeys_properly_grouped _ _ _ _ HV) as Hrest.
    cbn [ExpandKeys] in *.
    set (n := Z.to_nat s).
    replace s with (Z.of_nat n) in * by (unfold n; lia).
    rewrite ExpandGroup_group_keys in * by lia.
    pose proof (group_keys_length fid n ow) as Hlen.
    pose proof (group_keys_fid fid n ow) as Hfids.
    pose proof (is_one_way_group fid n ow ltac:(lia)) as How.
    set (rest := ExpandKeys fids numSegs oneWay) in *.
    assert (Hrun : same_fid_run fid (group_keys fid n ow ++ rest)
                   = (group_keys fid n ow, rest)).
    { apply same_fid_run_app; [exact Hfids|].
      intros k rest' E. apply properly_grouped_lower in Hrest.
      rewrite E in Hrest. apply Forall_cons in Hrest as [Hk _]. lia. }
    rewrite length_app in Hfuel.
    destruct (group_keys fid n ow) as [|k0 g] eqn:Eg.
    { simpl in Hlen. destruct ow; lia. }
    apply Forall_cons in Hfids as [Hk0 _].
    destruct fuel as [|fuel]; [simpl in Hfuel; lia|].
    cbn [GroupKeys app]. rewrite Hk0.
    change (k0 :: g ++ rest) with ((k0 :: g) ++ rest). rewrite Hrun.
    rewrite How, Hlen.
    replace (0 <? (if ow then 1 else 2)) with true by (destruct ow; reflexivity).
    rewrite CHECK_true, bind_Ok.
    replace (Z.of_nat (n * (if ow then 1 else 2)) mod (if ow then 1 else 2) =? 0)
      with true.
    2:{ symmetry. apply Z.eqb_eq. destruct ow.
        - apply Z.mod_1_r.
        - rewrite Nat2Z.inj_mul. apply Z.mod_mul. lia. }
    rewrite CHECK_true, bind_Ok.
    rewrite (IH fuel) by (simpl in Hfuel; lia).
    rewrite bind_Ok. f_equal. f_equal. f_equal. f_equal.
    destruct ow; rewrite Nat2Z.inj_mul.
    + rewrite Z.mul_1_r. apply Z.div_1_r.
    + apply Z.div_mul. lia.
Qed.

Lemma SerializeTrafficKeys_ext (debug : bool) (K K' : list RoadSegmentId) :
  GroupKeys (length K) K = GroupKeys (length K') K' ->
  SerializeTrafficKeys debug K = SerializeTrafficKeys debug K'.
Proof. unfold SerializeTrafficKeys. now intros ->. Qed.

(** X5.  On a strictly ascending vector of keys within the ranges of their
    fields, whenever [SerializeTrafficKeys] returns, the bytes decode to a
    vector with the same feature id at every position, and so of the same
    length; it is the vector in which the segments of every feature are
    numbered from 0 and stand in both directions or in the forward one only,
    and serializing it gives the same bytes again. *)
Theorem traffic_keys_normalized (debug : bool) (K : list RoadSegmentId)
  (bytes : list Z) :
  StronglySorted key_lt K ->
  Forall key_in_range K ->
  SerializeTrafficKeys debug K = Ok bytes ->
  exists decoded,
    DeserializeTrafficKeys debug bytes = Ok decoded
    /\ map m_fid decoded = map m_fid K
    /\ properly_grouped 0 decoded
    /\ SerializeTrafficKeys debug decoded = Ok bytes.
Proof.
  intros Hs Hr HS.
  destruct (GroupKeys (length K) K) as [[[fids numSegs] oneWay]|] eqn:HG.
  2:{ unfold SerializeTrafficKeys in HS. rewrite HG in HS. discriminate. }
  assert (Hlo : Forall (fun k => 0 <= m_fid k) K).
  { eapply Forall_impl; [exact Hr|]. intros k Hk.
    unfold key_in_range in Hk. simpl. lia. }
  destruct (GroupKeys_sorted _ K 0 _ _ _ Hs Hr Hlo (le_n _) HG) as [HV HM].
  destruct (keys_wire_roundtrip debug K _ _ _ HV HG) as (bytes' & HS' & HD).
  rewrite HS in HS'. injection HS' as <-.
  exists (ExpandKeys fids numSegs oneWay).
  split; [exact HD|]. split; [exact HM|].
  split; [now apply ExpandKeys_properly_grouped|].
  rewrite <- HS. apply SerializeTrafficKeys_ext.
  rewrite HG. now apply GroupKeys_ExpandKeys with 0.
Qed.

Lemma traffic_keys_normalized_witness :
  exists decoded,
    DeserializeTrafficKeys true [0; 1; 8; 5] = Ok decoded
    /\ map m_fid decoded = map m_fid [mkRoadSegmentId 7 3 0]
    /\ properly_grouped 0 decoded
    /\ SerializeTrafficKeys true decoded = Ok [0; 1; 8; 5].
Proof.
  apply (traffic_keys_normalized true [mkRoadSegmentId 7 3 0] [0; 1; 8; 5]).
  - repeat constructor.
  - repeat constructor; simpl; lia.
  - vm_compute. reflexivity.
Defined.

(** *** The fields of decoded keys *)

Lemma DecodeFids_range n : forall r prev fids r',
  DecodeFids n r prev = Ok (fids, r') -> Forall is_u32 fids.
Proof.
  induction n as [|n IH]; intros r prev fids r' H.
  - simpl in H. injection H as <- _. constructor.
  - cbn [DecodeFids] in H.
    destruct (GammaCoder.Decode r) as [[v r1]|]; [|discriminate].
    cbn [mbind result_bind] in H.
    destruct (DecodeFids n r1 _) as [[fids' r2]|] eqn:E; [|discriminate].
    cbn [mbind result_bind] in H. injection H as <- _.
    constructor; [|now apply IH in E].
    unfold is_u32, u32. apply Z.mod_pos_bound. lia.
Qed.

Lemma In_seqZ (x m n : Z) : In x (seqZ m n) <-> m <= x < m + n.
Proof. rewrite <- list_elem_of_In. apply elem_of_seqZ. Qed.

Lemma ExpandGroup_range fid s ow :
  Forall (fun k => m_fid k = fid /\ is_u16 (m_idx k)
                   /\ (m_dir k = kForwardDirection
                       \/ m_dir k = kReverseDirection))
         (ExpandGroup fid s ow).
Proof.
  unfold ExpandGroup. apply List.Forall_forall. intros k Hk.
  apply in_flat_map in Hk as (j & _ & Hk).
  apply in_map_iff in Hk as (dir & <- & Hdir).
  apply In_seqZ in Hdir. cbn [m_fid m_idx m_dir].
  split; [reflexivity|]. split.
  - unfold is_u16, u16. apply Z.mod_pos_bound. lia.
  - unfold kForwardDirection, kReverseDirection.
    assert (dir = 0 \/ dir = 1) as [-> | ->] by (destruct ow; lia);
      [left|right]; reflexivity.
Qed.

Lemma ExpandKeys_range fids : forall numSegs oneWay,
  Forall is_u32 fids ->
  Forall (fun k => is_u32 (m_fid k) /\ is_u16 (m_idx k)
                   /\ (m_dir k = kForwardDirection
                       \/ m_dir k = kReverseDirection))
         (ExpandKeys fids numSegs oneWay).
Proof.
  induction fids as [|fid fids IH]; intros numSegs oneWay Hf; [constructor|].
  destruct numSegs as [|s numSegs]; [constructor|].
  destruct oneWay as [|ow oneWay]; [constructor|].
  apply Forall_cons in Hf as [Hfid Hf].
  cbn [ExpandKeys]. apply Forall_app. split; [|now apply IH].
  eapply Forall_impl; [apply ExpandGroup_range|].
  intros k (-> & Hi & Hd). split; [exact Hfid|split; assumption].
Qed.

(** X6.  Whatever the bytes, every key [DeserializeTrafficKeys] returns
    has a 32-bit feature id, a 16-bit segment index and the forward or the
    reverse direction. *)
Theorem DeserializeTrafficKeys_ranges (debug : bool) (data : list Z)
  (decoded : list RoadSegmentId) :
  DeserializeTrafficKeys debug data = Ok decoded ->
  Forall (fun k => is_u32 (m_fid k) /\ is_u16 (m_idx k)
                   /\ (m_dir k = kForwardDirection
                       \/ m_dir k = kReverseDirection))
         decoded.
Proof.
  unfold DeserializeTrafficKeys, ReadKeyGroups. intros H.
  destruct (ReadPrimitiveFromSource 1 data) as [[version src]|];
    [|discriminate].
  cbn [mbind result_bind] in H.
  destruct (CHECK _ _); [|discriminate].
  cbn [mbind result_bind] in H.
  destruct (ReadVarUint 64 src) as [[n src1]|]; [|discriminate].
  cbn [mbind result_bind] in H.
  destruct (DecodeFids _ _ _) as [[fids r1]|] eqn:E1; [|discriminate].
  cbn [mbind result_bind] in H.
  destruct (DecodeNumSegs _ _) as [[numSegs r2]|]; [|discriminate].
  cbn [mbind result_bind] in H.
  destruct (DecodeOneWay _ _) as [[oneWay r3]|]; [|discriminate].
  cbn [mbind result_bind] in H.
  destruct (ASSERT _ _); [|discriminate].
  cbn [mbind result_bind] in H. injection H as <-.
  apply ExpandKeys_range. now apply DecodeFids_range in E1.
Qed.

Lemma DeserializeTrafficKeys_ranges_witness :
  Forall (fun k => is_u32 (m_fid k) /\ is_u16 (m_idx k)
                   /\ (m_dir k = kForwardDirection
                       \/ m_dir k = kReverseDirection))
         [mkRoadSegmentId 1 0 0; mkRoadSegmentId 1 0 1].
Proof.
  apply (DeserializeTrafficKeys_ranges false [0; 1; 18]).
  vm_compute. reflexivity.
Defined.

End TrafficKeysMore.

(** ** [ExtractTrafficKeys] *)

Section ExtractKeys.

Import traffic traffic.TrafficInfo.

Variable FeatureType : Type.
Variable ForEachFromDat : string -> list (FeatureType * Z).
Variable IsRoad : FeatureType -> bool.
Variable IsOneWay : FeatureType -> bool.
Variable GetPointsCount : FeatureType -> Z.

#[local] Abbreviation ExtractFeatureKeys :=
  (ExtractFeatureKeys FeatureType IsRoad IsOneWay GetPointsCount).
#[local] Abbreviation ExtractTrafficKeys debug :=
  (ExtractTrafficKeys debug FeatureType ForEachFromDat IsRoad IsOneWay
     GetPointsCount).

Lemma ExtractFeatureKeys_app (result : list RoadSegmentId) visit :
  ExtractFeatureKeys result visit = result ++ ExtractFeatureKeys [] visit.
Proof.
  unfold TrafficInfo.ExtractFeatureKeys. destruct visit as [ft fid].
  destruct (IsRoad ft); cbn [negb]; [reflexivity|now rewrite app_nil_r].
Qed.

Lemma fold_ExtractFeatureKeys visits : forall result,
  fold_left ExtractFeatureKeys visits result
  = result ++ flat_map (ExtractFeatureKeys []) visits.
Proof.
  induction visits as [|visit visits IH]; intros result.
  - simpl. now rewrite app_nil_r.
  - cbn [fold_left flat_map]. rewrite IH, ExtractFeatureKeys_app.
    now rewrite app_assoc.
Qed.

Lemma ExtractFeatureKeys_group ft fid :
  IsRoad ft = true ->
  ExtractFeatureKeys [] (ft, fid)
  = group_keys fid (Z.to_nat (u16 (GetPointsCount ft) - 1)) (IsOneWay ft).
Proof.
  intros Hroad. unfold TrafficInfo.ExtractFeatureKeys. rewrite Hroad.
  cbn [negb app]. unfold group_keys, seqZ at 2.
  unfold fmap, list_fmap at 1.
  change (fix go (l : list nat) : list Z :=
            match l with
            | [] => []
            | x :: l0 => (Z.of_nat x + 0) :: go l0
            end) with (map (fun i : nat => Z.of_nat i + 0)).
  rewrite flat_map_concat_map, map_map, <- flat_map_concat_map.
  apply flat_map_seq_ext. intros i Hi.
  rewrite Z.add_0_r.
  destruct (IsOneWay ft); reflexivity.
Qed.

Lemma properly_grouped_weaken lo lo' K :
  lo <= lo' -> properly_grouped lo' K -> properly_grouped lo K.
Proof.
  intros Hlo H. destruct H as [|lo' fid n ow rest Hfid Hn Hrest];
    constructor; try assumption. lia.
Qed.

Lemma extracted_properly_grouped visits : forall lo,
  StronglySorted Z.lt (map snd visits) ->
  Forall (fun visit : FeatureType * Z => lo <= snd visit < 2 ^ 32 - 1) visits ->
  properly_grouped lo (flat_map (ExtractFeatureKeys []) visits).
Proof.
  induction visits as [|[ft fid] visits IH]; intros lo Hs Hr; [constructor|].
  cbn [map snd] in Hs. apply StronglySorted_inv in Hs as [Hs Hfid].
  apply Forall_cons in Hr as [Hv Hr]. cbn [snd] in Hv.
  assert (Hrest : properly_grouped (fid + 1)
                    (flat_map (ExtractFeatureKeys []) visits)).
  { apply IH; [exact Hs|].
    apply List.Forall_forall. intros v Hvin.
    rewrite List.Forall_forall in Hfid, Hr.
    specialize (Hr v Hvin).
    specialize (Hfid (snd v) (in_map snd _ _ Hvin)). lia. }
  cbn [flat_map].
  destruct (IsRoad ft) eqn:Hroad.
  - rewrite ExtractFeatureKeys_group by exact Hroad.
    set (n := Z.to_nat (u16 (GetPointsCount ft) - 1)).
    destruct n as [|n'] eqn:En.
    + cbn [group_keys seq flat_map app].
      apply properly_grouped_weaken with (fid + 1); [lia|exact Hrest].
    + constructor; [exact Hv| |exact Hrest].
      assert (0 <= u16 (GetPointsCount ft) < 2 ^ 16)
        by (unfold u16; apply Z.mod_pos_bound; lia).
      lia.
  - unfold TrafficInfo.ExtractFeatureKeys at 1. rewrite Hroad. cbn [negb app].
    apply properly_grouped_weaken with (fid + 1); [lia|exact Hrest].
Qed.

Lemma key_lt_not_lt a b : key_lt a b -> RoadSegmentId_lt b a = false.
Proof.
  unfold key_lt, RoadSegmentId_lt. intros H.
  destruct (Z.eqb_spec (m_fid b) (m_fid a)); cbn [negb].
  - destruct (Z.eqb_spec (m_idx b) (m_idx a)); cbn [negb];
      apply Z.ltb_ge; lia.
  - apply Z.ltb_ge. lia.
Qed.

Lemma is_sorted_of_sorted (K : list RoadSegmentId) :
  StronglySorted key_lt K -> TrafficInfo.is_sorted K = true.
Proof.
  induction K as [|k K IH]; intros Hs; [reflexivity|].
  apply StronglySorted_inv in Hs as [Hs Hk].
  destruct K as [|k' K]; [reflexivity|].
  cbn [TrafficInfo.is_sorted].
  apply Forall_cons in Hk as [Hk _].
  rewrite (key_lt_not_lt _ _ Hk). cbn [negb andb]. now apply IH.
Qed.

(** X7.  When the features are visited in strictly ascending order of
    their feature ids, all below [2^32 - 1], [ExtractTrafficKeys] returns
    in a build with assertions as in one without, the vector it returns is
    strictly ascending, [SerializeTrafficKeys] takes it, and
    [DeserializeTrafficKeys] reads these bytes back to the same vector. *)
Theorem ExtractTrafficKeys_roundtrip (debug : bool) (mwmPath : string) :
  StronglySorted Z.lt (map snd (ForEachFromDat mwmPath)) ->
  Forall (fun visit : FeatureType * Z => 0 <= snd visit < 2 ^ 32 - 1)
         (ForEachFromDat mwmPath) ->
  exists keys bytes,
    ExtractTrafficKeys debug mwmPath = Ok keys
    /\ StronglySorted key_lt keys
    /\ SerializeTrafficKeys debug keys = Ok bytes
    /\ DeserializeTrafficKeys debug bytes = Ok keys.
Proof.
  intros Hs Hr.
  pose proof (extracted_properly_grouped _ 0 Hs Hr) as HK.
  set (keys := flat_map (ExtractFeatureKeys []) (ForEachFromDat mwmPath)) in *.
  pose proof (properly_grouped_sorted _ _ HK) as Hsorted.
  destruct (GroupKeys_properly_grouped 0 keys HK (length keys) (le_n _))
    as (fids & numSegs & oneWay & HG & HE & HV).
  destruct (keys_wire_roundtrip debug keys _ _ _ HV HG) as (bytes & HS & HD).
  exists keys, bytes.
  split; [|split; [exact Hsorted|split; [exact HS|now rewrite HD, HE]]].
  unfold TrafficInfo.ExtractTrafficKeys.
  rewrite fold_ExtractFeatureKeys. cbn [app]. fold keys.
  rewrite (is_sorted_of_sorted _ Hsorted), ASSERT_true. reflexivity.
Qed.

(** X8.  Whenever [ExtractTrafficKeys] returns, and without assertions it
    always does, the keys it returns are those of the road features and of
    no other: for a road whose number of points is [n] as a [uint16_t], the
    segment indices from 0 to [n - 2], each in forward direction, and in
    reverse direction as well unless the road is one-way. *)
Theorem ExtractTrafficKeys_keys (mwmPath : string) :
  (exists keys, ExtractTrafficKeys false mwmPath = Ok keys)
  /\ forall debug keys,
       ExtractTrafficKeys debug mwmPath = Ok keys ->
       forall k,
         In k keys <->
         exists ft,
           In (ft, m_fid k) (ForEachFromDat mwmPath)
           /\ IsRoad ft = true
           /\ 0 <= m_idx k < u16 (GetPointsCount ft) - 1
           /\ (m_dir k = kForwardDirection
               \/ (m_dir k = kReverseDirection /\ IsOneWay ft = false)).
Proof.
  split; [eexists; reflexivity|].
  intros debug keys H k. unfold TrafficInfo.ExtractTrafficKeys in H.
  destruct (ASSERT debug _); [|discriminate].
  cbn [mbind result_bind] in H. injection H as <-.
  rewrite fold_ExtractFeatureKeys. cbn [app].
  rewrite in_flat_map. split.
  - intros ([ft fid] & Hin & Hk).
    unfold TrafficInfo.ExtractFeatureKeys in Hk.
    destruct (IsRoad ft) eqn:Hroad; cbn [negb app] in Hk; [|destruct Hk].
    apply in_flat_map in Hk as (i & Hi & Hk).
    apply in_map_iff in Hk as (dir & <- & Hdir).
    apply In_seqZ in Hi, Hdir. cbn [m_fid m_idx m_dir].
    exists ft. split; [exact Hin|]. split; [exact Hroad|]. split; [lia|].
    unfold kForwardDirection, kReverseDirection.
    destruct (IsOneWay ft); [left; lia|].
    destruct (Z.eq_dec dir 0); [now left|right; split; [lia|reflexivity]].
  - intros (ft & Hin & Hroad & Hidx & Hdir).
    exists (ft, m_fid k). split; [exact Hin|].
    unfold TrafficInfo.ExtractFeatureKeys. rewrite Hroad. cbn [negb app].
    apply in_flat_map. exists (m_idx k). split; [apply In_seqZ; lia|].
    apply in_map_iff. exists (m_dir k). split; [now destruct k|].
    apply In_seqZ. unfold kForwardDirection, kReverseDirection in Hdir.
    destruct Hdir as [->|[-> ->]]; [destruct (IsOneWay ft)|]; lia.
Qed.

End ExtractKeys.

Section ExtractExamples.

Import traffic traffic.TrafficInfo.

(** A feature here is whether it is a road, whether it is one-way, and its
    number of points. *)
Lemma ExtractTrafficKeys_roundtrip_witness :
  let visits : list (bool * bool * Z * Z) :=
    [((true, false, 3), 1); ((false, false, 9), 2); ((true, true, 65539), 4)] in
  exists keys bytes,
    ExtractTrafficKeys true (bool * bool * Z) (fun _ => visits)
      (fun ft => ft.1.1) (fun ft => ft.1.2) (fun ft => ft.2) "mwm" = Ok keys
    /\ StronglySorted key_lt keys
    /\ SerializeTrafficKeys true keys = Ok bytes
    /\ DeserializeTrafficKeys true bytes = Ok keys.
Proof.
  intros visits.
  apply (ExtractTrafficKeys_roundtrip (bool * bool * Z) (fun _ => visits)
           (fun ft => ft.1.1) (fun ft => ft.1.2) (fun ft => ft.2) true "mwm").
  - unfold visits. simpl. repeat constructor.
  - unfold visits. repeat constructor; simpl; lia.
Defined.

Lemma ExtractTrafficKeys_keys_witness :
  let visits : list (bool * bool * Z * Z) :=
    [((true, false, 3), 1); ((false, false, 9), 2); ((true, true, 65539), 4)] in
  (exists keys,
     ExtractTrafficKeys false (bool * bool * Z) (fun _ => visits)
       (fun ft => ft.1.1) (fun ft => ft.1.2) (fun ft => ft.2) "mwm" = Ok keys)
  /\ (In (mkRoadSegmentId 4 1 0)
         [mkRoadSegmentId 1 0 0; mkRoadSegmentId 1 0 1;
          mkRoadSegmentId 1 1 0; mkRoadSegmentId 1 1 1;
          mkRoadSegmentId 4 0 0; mkRoadSegmentId 4 1 0]
      <-> exists ft,
            In (ft, 4) visits /\ ft.1.1 = true
            /\ 0 <= 1 < u16 ft.2 - 1
            /\ (0 = kForwardDirection
                \/ (0 = kReverseDirection /\ ft.1.2 = false))).
Proof.
  intros visits.
  destruct (ExtractTrafficKeys_keys (bool * bool * Z) (fun _ => visits)
              (fun ft => ft.1.1) (fun ft => ft.1.2) (fun ft => ft.2) "mwm")
    as [H1 H2].
  split; [exact H1|].
  apply (H2 true _ eq_refl (mkRoadSegmentId 4 1 0)).
Defined.

End ExtractExamples.

(** ** The traffic values, beyond the round trip *)

Section TrafficValuesMore.

Import traffic traffic.TrafficInfo.

(** *** The size of the buffer handed to [Deflate] *)

Lemma values_bits_length (values : list SpeedGroup) :
  length (values_bits values) = (3 * length values)%nat.
Proof.
  unfold values_bits. induction values as [|v values IH]; [reflexivity|].
  cbn [flat_map]. rewrite length_app, IH. cbn [length lsb_bits seq map]. lia.
Qed.

Lemma bytes_of_bits_length (bs : list bool) :
  length (bytes_of_bits bs) = ((length bs + 7) / 8)%nat.
Proof.
  destruct (bits_of_bytes_of_bits bs) as (pad & k & Hpad & Hk & Hlen & _).
  rewrite Hlen.
  apply Nat.div_unique with (7 - pad)%nat; lia.
Qed.

(** X9.  Before compression the values take one byte for the version, the
    bytes of the count as a variable-length integer, and three bits each,
    rounded up to whole bytes. *)
Theorem SerializeTrafficValues_size (values : list SpeedGroup) :
  length (SerializeTrafficValues (fun buf => buf) values)
  = (1 + length (varuint_bytes 10 (u64 (Z.of_nat (length values))))
     + (3 * length values + 7) / 8)%nat.
Proof.
  rewrite SerializeTrafficValues_layout.
  rewrite !length_app, bytes_of_bits_length, values_bits_length.
  reflexivity.
Qed.

(** *** What the decoder hands back on any input *)

Lemma BitReader_Read_range k : forall r v r',
  BitReader_Read r k = Ok (v, r') -> 0 <= v < 2 ^ Z.of_nat k.
Proof.
  induction k as [|k IH]; intros r v r' H.
  - simpl in H. injection H as <- _. simpl. lia.
  - cbn [BitReader_Read] in H.
    destruct (read_bit r) as [[b r1]|]; [|discriminate].
    cbn [mbind result_bind] in H.
    destruct (BitReader_Read r1 k) as [[v2 r2]|] eqn:E; [|discriminate].
    cbn [mbind result_bind] in H. injection H as <- _.
    apply IH in E. rewrite Nat2Z.inj_succ, Z.pow_succ_r by lia.
    destruct b; simpl; lia.
Qed.

Lemma ReadValues_range n : forall r values r',
  ReadValues n r = Ok (values, r') ->
  length values = n /\ Forall (fun v => 0 <= v < 8) values.
Proof.
  induction n as [|n IH]; intros r values r' H.
  - simpl in H. injection H as <- _. split; [reflexivity|constructor].
  - cbn [ReadValues] in H.
    destruct (BitReader_Read r 3) as [[v r1]|] eqn:E1; [|discriminate].
    cbn [mbind result_bind] in H.
    destruct (ReadValues n r1) as [[vs r2]|] eqn:E2; [|discriminate].
    cbn [mbind result_bind] in H. injection H as <- _.
    apply BitReader_Read_range in E1. apply IH in E2 as [Hl Hr].
    split; [simpl; now rewrite Hl|]. constructor; [|exact Hr].
    change (2 ^ Z.of_nat 3) with 8 in E1. exact E1.
Qed.

Lemma ReadVarUint_range width (src : list Z) v rest :
  0 <= width ->
  ReadVarUint width src = Ok (v, rest) -> 0 <= v < 2 ^ width.
Proof.
  unfold ReadVarUint. intros Hw H.
  destruct (read_varuint src 0 0) as [[x src']|]; [|discriminate].
  cbn [mbind result_bind] in H. injection H as <- _.
  apply Z.mod_pos_bound. apply Z.pow_pos_nonneg; lia.
Qed.

(** X10.  Whatever the bytes and whatever [Inflate] makes of them, the
    values [DeserializeTrafficValues] returns are three-bit codes, and
    there are fewer than 2^32 of them. *)
Theorem DeserializeTrafficValues_ranges (debug : bool)
  (Inflate : list Z -> list Z) (data : list Z) (values : list SpeedGroup) :
  DeserializeTrafficValues debug Inflate data = Ok values ->
  Forall (fun v => 0 <= v < 8) values
  /\ Z.of_nat (length values) < 2 ^ 32.
Proof.
  unfold DeserializeTrafficValues, ReadValueStream. intros H.
  destruct (ReadPrimitiveFromSource 1 (Inflate data)) as [[version src]|];
    [|discriminate].
  cbn [mbind result_bind] in H.
  destruct (CHECK _ _); [|discriminate].
  cbn [mbind result_bind] in H.
  destruct (ReadVarUint 32 src) as [[n src1]|] eqn:En; [|discriminate].
  cbn [mbind result_bind] in H.
  destruct (ReadValues _ _) as [[vs r]|] eqn:E; [|discriminate].
  cbn [mbind result_bind] in H.
  destruct (ASSERT _ _); [|discriminate].
  cbn [mbind result_bind] in H. injection H as <-.
  apply ReadValues_range in E as [Hl Hr]. split; [exact Hr|].
  apply ReadVarUint_range in En; [|lia]. rewrite Hl. lia.
Qed.

Lemma DeserializeTrafficValues_ranges_witness :
  Forall (fun v => 0 <= v < 8) [0; 3; 7; 0; 1]
  /\ Z.of_nat (length [0; 3; 7; 0; 1]) < 2 ^ 32.
Proof.
  apply (DeserializeTrafficValues_ranges true (fun buf => buf)
           (SerializeTrafficValues (fun buf => buf) [0; 3; 7; 0; 1])).
  vm_compute. reflexivity.
Defined.

(** *** How much payload the decoder needs *)

Lemma bits_of_byte_length x : length (bits_of_byte x) = 8%nat.
Proof. reflexivity. Qed.

Lemma read_bit_left r :
  (length (br_buf r) <= 7)%nat ->
  match read_bit r with
  | Ok (_, r') =>
      (1 <= bits_left r)%nat /\ bits_left r' = (bits_left r - 1)%nat
      /\ (length (br_buf r') <= 7)%nat
  | Err e => bits_left r = 0%nat /\ e = ReaderException
  end.
Proof.
  destruct r as [src buf]. unfold read_bit, bits_left. simpl. intros Hb.
  destruct buf as [|b buf].
  - destruct src as [|x src]; [now split|].
    pose proof (bits_of_byte_length x) as Hx.
    destruct (bits_of_byte x) as [|b0 bs]; [discriminate|].
    simpl in *. lia.
  - simpl in *. lia.
Qed.

Lemma BitReader_Read_left k : forall r,
  (length (br_buf r) <= 7)%nat ->
  match BitReader_Read r k with
  | Ok (_, r') =>
      (k <= bits_left r)%nat /\ bits_left r' = (bits_left r - k)%nat
      /\ (length (br_buf r') <= 7)%nat
  | Err e => (bits_left r < k)%nat /\ e = ReaderException
  end.
Proof.
  induction k as [|k IH]; intros r Hb.
  - simpl. lia.
  - cbn [BitReader_Read].
    pose proof (read_bit_left r Hb) as H1.
    destruct (read_bit r) as [[b r1]|e].
    + destruct H1 as (H1 & H2 & H3). cbn [mbind result_bind].
      specialize (IH r1 H3).
      destruct (BitReader_Read r1 k) as [[v r2]|e].
      * cbn [mbind result_bind]. lia.
      * cbn [mbind result_bind]. destruct IH as [IH ->]. split; [lia|reflexivity].
    + cbn [mbind result_bind]. destruct H1 as [H1 ->]. split; [lia|reflexivity].
Qed.

Lemma ReadValues_left n : forall r,
  (length (br_buf r) <= 7)%nat ->
  match ReadValues n r with
  | Ok (values, r') =>
      (3 * n <= bits_left r)%nat /\ bits_left r' = (bits_left r - 3 * n)%nat
      /\ (length (br_buf r') <= 7)%nat
  | Err e => (bits_left r < 3 * n)%nat /\ e = ReaderException
  end.
Proof.
  induction n as [|n IH]; intros r Hb.
  - simpl. lia.
  - cbn [ReadValues].
    pose proof (BitReader_Read_left 3 r Hb) as H1.
    destruct (BitReader_Read r 3) as [[v r1]|e].
    + destruct H1 as (H1 & H2 & H3). cbn [mbind result_bind].
      specialize (IH r1 H3).
      destruct (ReadValues n r1) as [[vs r2]|e].
      * cbn [mbind result_bind]. lia.
      * cbn [mbind result_bind]. destruct IH as [IH ->]. split; [lia|reflexivity].
    + cbn [mbind result_bind]. destruct H1 as [H1 ->]. split; [lia|reflexivity].
Qed.

(** X11.  Once the version byte and the count [n] are read, the decoder
    needs three bits for each of the [n] values: a payload of fewer than
    [3n] bits makes it throw, in every build.  On a longer payload a build
    without assertions returns [n] values, and a build with assertions
    returns them when the payload ends within the byte of the last value
    and trips the assertion when a whole byte is left over. *)
Theorem DeserializeTrafficValues_payload (Inflate : list Z -> list Z)
  (data src payload : list Z) (n : Z) :
  Inflate data = kLatestValuesVersion :: src ->
  ReadVarUint 32 src = Ok (n, payload) ->
  (8 * Z.of_nat (length payload) < 3 * n ->
   forall debug,
     DeserializeTrafficValues debug Inflate data = Err ReaderException)
  /\ (3 * n <= 8 * Z.of_nat (length payload) ->
      exists values,
        Z.of_nat (length values) = n
        /\ DeserializeTrafficValues false Inflate data = Ok values
        /\ DeserializeTrafficValues true Inflate data
           = if 8 * Z.of_nat (length payload) <? 3 * n + 8
             then Ok values else Err AssertFailure).
Proof.
  intros HI Hn.
  pose proof (ReadVarUint_range 32 _ _ _ ltac:(lia) Hn) as Hrange.
  assert (Hstream : ReadValueStream (Inflate data)
                    = '(values, bitReader) ←
                        ReadValues (Z.to_nat n) (BitReader_new payload);
                      Ok (values, br_src bitReader)).
  { unfold ReadValueStream. rewrite HI.
    change (ReadPrimitiveFromSource 1 (kLatestValuesVersion :: src))
      with (Ok (kLatestValuesVersion + 256 * 0, src)).
    rewrite bind_Ok. cbn beta iota.
    change (kLatestValuesVersion + 256 * 0 =? kLatestValuesVersion) with true.
    rewrite CHECK_true, bind_Ok, Hn, bind_Ok. reflexivity. }
  pose proof (ReadValues_left (Z.to_nat n) (BitReader_new payload)) as HL.
  specialize (HL ltac:(simpl; lia)).
  unfold bits_left in HL. cbn [BitReader_new br_buf br_src length] in HL.
  unfold DeserializeTrafficValues. rewrite Hstream.
  destruct (ReadValues (Z.to_nat n) (BitReader_new payload))
    as [[values r]|e] eqn:E.
  - destruct HL as (H1 & H2 & H3). split; [lia|].
    intros _. exists values.
    apply ReadValues_range in E as [Hlen _].
    split; [lia|]. cbn [mbind result_bind]. split; [reflexivity|].
    unfold ASSERT. cbn [andb].
    destruct (Z.ltb_spec (8 * Z.of_nat (length payload)) (3 * n + 8)).
    + replace (length (br_src r) =? 0)%nat with true; [reflexivity|].
      symmetry. apply Nat.eqb_eq. lia.
    + replace (length (br_src r) =? 0)%nat with false; [reflexivity|].
      symmetry. apply Nat.eqb_neq. lia.
  - destruct HL as [H1 ->]. split; [reflexivity|]. lia.
Qed.

Lemma DeserializeTrafficValues_payload_witness :
  (forall debug,
     DeserializeTrafficValues debug (fun buf => buf) [0; 5; 24]
     = Err ReaderException)
  /\ exists values,
       Z.of_nat (length values) = 2
       /\ DeserializeTrafficValues false (fun buf => buf) [0; 2; 24; 170]
          = Ok values
       /\ DeserializeTrafficValues true (fun buf => buf) [0; 2; 24; 170]
          = Err AssertFailure.
Proof.
  split.
  - apply (DeserializeTrafficValues_payload (fun buf => buf)
             [0; 5; 24] [5; 24] [24] 5); [reflexivity|reflexivity|].
    simpl. lia.
  - apply (DeserializeTrafficValues_payload (fun buf => buf)
             [0; 2; 24; 170] [2; 24; 170] [24; 170] 2);
      [reflexivity|reflexivity|].
    simpl. lia.
Defined.

End TrafficValuesMore.

(** ** The colorings, beyond the fill *)

Section ColoringsMore.

Import traffic traffic.TrafficInfo.

Variable Unknown : SpeedGroup.

Implicit Types (keys : list RoadSegmentId)
  (M result : gmap RoadSegmentId SpeedGroup).

Lemma CombineColorings_lookup debug keys M result :
  CombineColorings debug Unknown keys M = Ok result ->
  forall k,
    result !! k
    = if decide (k ∈ keys) then Some (default Unknown (M !! k)) else None.
Proof.
  unfold CombineColorings. intros H k.
  pose proof (CombineLoop_lookup Unknown keys M ∅ (Z.of_nat (size M)) k) as Hl.
  destruct (CombineLoop Unknown keys M ∅ (Z.of_nat (size M))) as [res n].
  cbn [fst] in Hl.
  destruct (ASSERT debug (n =? 0)); [|discriminate].
  injection H as <-. rewrite Hl. now rewrite lookup_empty.
Qed.

Lemma CombineColorings_release keys M :
  exists result, CombineColorings false Unknown keys M = Ok result.
Proof.
  unfold CombineColorings.
  destruct (CombineLoop Unknown keys M ∅ (Z.of_nat (size M))) as [res n].
  now exists res.
Qed.

Lemma filter_length_le keys (P : RoadSegmentId -> Prop)
  `{forall k, Decision (P k)} :
  (length (filter P keys) <= length keys)%nat.
Proof.
  induction keys as [|k keys IH]; [reflexivity|].
  rewrite filter_cons. destruct (decide (P k)); simpl; lia.
Qed.

(** X12.  With assertions [CombineColorings] stops exactly when the
    number of positions of [keys] that hold a key of [knownColors] differs
    from the size of [knownColors]; a key counts as often as it is listed.
    So it stops when a key of [knownColors] is missing from a vector
    without repetition, and also when nothing is missing and a known key
    is listed twice. *)
Theorem CombineColorings_assert_counts keys M :
  Z.of_nat (size M) < 2 ^ 64 ->
  Z.of_nat (length keys) < 2 ^ 64 ->
  (CombineColorings true Unknown keys M = Err AssertFailure
   <-> size M <> length (filter (fun k => is_Some (M !! k)) keys))
  /\ (size M = length (filter (fun k => is_Some (M !! k)) keys)
      -> exists result, CombineColorings true Unknown keys M = Ok result).
Proof.
  intros Hsize Hkeys. unfold CombineColorings.
  assert (Hrange : 0 <= Z.of_nat (size M) < 2 ^ 64) by lia.
  pose proof (CombineLoop_counter Unknown keys M ∅ (Z.of_nat (size M)) Hrange)
    as Hc.
  pose proof (filter_length_le keys (fun k => is_Some (M !! k))) as Hle.
  destruct (CombineLoop Unknown keys M ∅ (Z.of_nat (size M))) as [res n].
  cbn [snd] in Hc. subst n.
  set (count := length (filter (fun k => is_Some (M !! k)) keys)) in *.
  unfold ASSERT, u64. cbn [andb].
  destruct (Z.eqb_spec ((Z.of_nat (size M) - Z.of_nat count) mod 2 ^ 64) 0)
    as [E|E]; cbn [negb].
  - assert (size M = count).
    { destruct (Z_lt_le_dec (Z.of_nat (size M)) (Z.of_nat count)).
      - replace (Z.of_nat (size M) - Z.of_nat count)
          with (Z.of_nat (size M) - Z.of_nat count + 2 ^ 64
                + (-1) * 2 ^ 64) in E by lia.
        rewrite Z.mod_add, Z.mod_small in E by lia. lia.
      - rewrite Z.mod_small in E by lia. lia. }
    split; [split; [discriminate|congruence]|].
    intros _. now exists res.
  - assert (size M <> count).
    { intros Eq. apply E. rewrite Eq, Z.sub_diag. reflexivity. }
    split; [split; [tauto|reflexivity]|]. tauto.
Qed.

(** X13.  Whenever [CombineColorings] returns, a [TrafficInfo] holding the
    result answers [GetSpeedGroup] for every listed key as one holding
    [knownColors] does, and with [Unknown] for every other key; when every
    key of [knownColors] is listed, the two answer alike for every key. *)
Theorem CombineColorings_GetSpeedGroup (debug : bool) keys M result
  (this this' : TrafficInfo) :
  CombineColorings debug Unknown keys M = Ok result ->
  m_coloring this = M ->
  m_coloring this' = result ->
  (forall id, id ∈ keys ->
     GetSpeedGroup Unknown this' id = GetSpeedGroup Unknown this id)
  /\ (forall id, id ∉ keys -> GetSpeedGroup Unknown this' id = Unknown)
  /\ ((forall id, is_Some (M !! id) -> id ∈ keys) ->
      forall id,
        GetSpeedGroup Unknown this' id = GetSpeedGroup Unknown this id).
Proof.
  intros H HM Hres.
  pose proof (CombineColorings_lookup debug keys M result H) as Hl.
  assert (Hin : forall id, id ∈ keys ->
            GetSpeedGroup Unknown this' id = GetSpeedGroup Unknown this id).
  { intros id Hid. unfold GetSpeedGroup. rewrite HM, Hres, Hl.
    rewrite decide_True by exact Hid.
    destruct (M !! id); reflexivity. }
  assert (Hout : forall id, id ∉ keys ->
            GetSpeedGroup Unknown this' id = Unknown).
  { intros id Hid. unfold GetSpeedGroup. rewrite Hres, Hl.
    now rewrite decide_False by exact Hid. }
  split; [exact Hin|]. split; [exact Hout|].
  intros Hall id. destruct (decide (id ∈ keys)) as [Hid|Hid].
  - now apply Hin.
  - rewrite (Hout id Hid). unfold GetSpeedGroup. rewrite HM.
    destruct (M !! id) as [c|] eqn:E; [|reflexivity].
    exfalso. apply Hid, Hall. rewrite E. eauto.
Qed.

(** X14.  [CombineColorings] changes nothing when it is run again on its
    own result with the same keys: a build without assertions returns the
    same map, and so does a build with assertions when no key is listed
    twice. *)
Theorem CombineColorings_idempotent (debug : bool) keys M result :
  CombineColorings debug Unknown keys M = Ok result ->
  CombineColorings false Unknown keys result = Ok result
  /\ (NoDup keys -> Z.of_nat (length keys) < 2 ^ 64 ->
      CombineColorings true Unknown keys result = Ok result).
Proof.
  intros H.
  pose proof (CombineColorings_lookup debug keys M result H) as Hl.
  assert (Hfix : forall c,
            (CombineLoop Unknown keys result ∅ c).1 = result).
  { intros c. apply map_eq. intros k.
    rewrite CombineLoop_lookup, lookup_empty, (Hl k).
    destruct (decide (k ∈ keys)); reflexivity. }
  assert (Hdom : dom result = (list_to_set keys : gset RoadSegmentId)).
  { apply set_eq. intros k.
    rewrite elem_of_dom, Hl, elem_of_list_to_set.
    destruct (decide (k ∈ keys)) as [Hin|Hnin].
    - split; [tauto|eauto].
    - split; [intros [? ?]; discriminate|tauto]. }
  split.
  - unfold CombineColorings.
    specialize (Hfix (Z.of_nat (size result))).
    destruct (CombineLoop Unknown keys result ∅ (Z.of_nat (size result)))
      as [res n].
    cbn [fst] in Hfix. subst res. reflexivity.
  - intros Hnd Hlen. unfold CombineColorings.
    assert (Hsize : size result = length keys).
    { rewrite <- (size_dom (D := gset RoadSegmentId) result), Hdom.
      now apply size_list_to_set. }
    assert (Hrange : 0 <= Z.of_nat (size result) < 2 ^ 64) by lia.
    pose proof (CombineLoop_counter Unknown keys result ∅
                  (Z.of_nat (size result)) Hrange) as Hc.
    rewrite unexpected_keys_size in Hc by assumption.
    replace (dom result ∖ (list_to_set keys : gset RoadSegmentId))
      with (∅ : gset RoadSegmentId) in Hc by (rewrite Hdom; set_solver).
    rewrite size_empty in Hc.
    specialize (Hfix (Z.of_nat (size result))).
    destruct (CombineLoop Unknown keys result ∅ (Z.of_nat (size result)))
      as [res n].
    cbn [fst] in Hfix. cbn [snd] in Hc. subst res n. reflexivity.
Qed.

End ColoringsMore.

Section ColoringsMoreExamples.

Import traffic traffic.TrafficInfo.

(** No key of [knownColors] is missing, the one it has is listed twice:
    the assertion trips. *)
Lemma CombineColorings_assert_counts_witness :
  let a := mkRoadSegmentId 1 0 0 in
  let M : gmap RoadSegmentId SpeedGroup := {[a := 3]} in
  (forall k, is_Some (M !! k) -> k ∈ [a; a])
  /\ CombineColorings true 7 [a; a] M = Err AssertFailure.
Proof.
  intros a M. split.
  - intros k [c Hk]. apply lookup_singleton_Some in Hk as [<- _].
    apply elem_of_cons. now left.
  - destruct (CombineColorings_assert_counts 7 [a; a] M) as [[_ H] _].
    + unfold M. rewrite map_size_singleton. simpl. lia.
    + simpl. lia.
    + apply H. unfold M. rewrite map_size_singleton.
      rewrite !filter_cons, !decide_True
        by (rewrite lookup_singleton_eq; eauto).
      discriminate.
Defined.

Lemma CombineColorings_GetSpeedGroup_witness :
  let a := mkRoadSegmentId 1 0 0 in
  let b := mkRoadSegmentId 2 0 0 in
  let M : gmap RoadSegmentId SpeedGroup := {[a := 3]} in
  exists result,
    CombineColorings false 7 [a; b] M = Ok result
    /\ GetSpeedGroup 7 (mkTrafficInfo result [] Availability.Unknown 0 None) a
       = GetSpeedGroup 7 (mkTrafficInfo M [] Availability.Unknown 0 None) a.
Proof.
  intros a b M.
  destruct (CombineColorings_release 7 [a; b] M) as [result H].
  exists result. split; [exact H|].
  destruct (CombineColorings_GetSpeedGroup 7 false [a; b] M result
              (mkTrafficInfo M [] Availability.Unknown 0 None)
              (mkTrafficInfo result [] Availability.Unknown 0 None)
              H eq_refl eq_refl) as [Hin _].
  apply Hin. apply elem_of_cons. now left.
Defined.

Lemma CombineColorings_idempotent_witness :
  let a := mkRoadSegmentId 1 0 0 in
  let b := mkRoadSegmentId 2 0 0 in
  let M : gmap RoadSegmentId SpeedGroup := {[a := 3]} in
  exists result,
    CombineColorings false 7 [a; b] M = Ok result
    /\ CombineColorings false 7 [a; b] result = Ok result.
Proof.
  intros a b M.
  destruct (CombineColorings_release 7 [a; b] M) as [result H].
  exists result. split; [exact H|].
  apply (CombineColorings_idempotent 7 false [a; b] M result H).
Defined.

End ColoringsMoreExamples.

(** ** The [TrafficInfo] object and the traffic server *)

Section Server.

Import traffic traffic.TrafficInfo.

Variable debug : bool.
Variable Unknown : SpeedGroup.
Variable Inflate : list Z -> list Z.
Variable request_for : string -> HttpClient.
Variable TRAFFIC_DATA_BASE_URL : string.
Variable TRAFFIC_FILE_EXTENSION : string.
Variable UrlEncode : string -> string.
Variable to_int64 : list Z -> Z -> bool * Z.

#[local] Abbreviation MakeRemoteURL :=
  (MakeRemoteURL TRAFFIC_DATA_BASE_URL TRAFFIC_FILE_EXTENSION UrlEncode).
#[local] Abbreviation ReceiveTrafficKeys :=
  (ReceiveTrafficKeys debug request_for TRAFFIC_DATA_BASE_URL
     TRAFFIC_FILE_EXTENSION UrlEncode).
#[local] Abbreviation ReceiveTrafficValues :=
  (ReceiveTrafficValues debug Inflate request_for TRAFFIC_DATA_BASE_URL
     TRAFFIC_FILE_EXTENSION UrlEncode to_int64).
#[local] Abbreviation ReceiveTrafficData :=
  (ReceiveTrafficData debug Inflate request_for TRAFFIC_DATA_BASE_URL
     TRAFFIC_FILE_EXTENSION UrlEncode to_int64).
#[local] Abbreviation GetSpeedGroup := (GetSpeedGroup Unknown).

(** *** The URL *)

Lemma string_empty_append (a b : string) :
  string_empty (String.append a b) = string_empty a && string_empty b.
Proof. destruct a; reflexivity. Qed.

Lemma MakeRemoteURL_empty name version :
  string_empty (MakeRemoteURL name version)
  = string_empty TRAFFIC_DATA_BASE_URL.
Proof.
  unfold traffic.MakeRemoteURL.
  destruct (string_empty TRAFFIC_DATA_BASE_URL) eqn:E; [reflexivity|].
  rewrite !string_empty_append.
  destruct (negb (version =? 0)).
  - now rewrite !string_empty_append, E.
  - now rewrite E.
Qed.

(** *** [ReceiveTrafficKeys] *)

(** X15.  [ReceiveTrafficKeys] returns true exactly when the mwm is
    known, a base URL is configured, the request for the keys file ran
    and was answered with the status 200, and the body decodes; the keys
    of the object are then the decoded ones and nothing else has changed.
    When it returns false the object is as it was.  It never lets a
    [Reader::Exception] out. *)
Theorem ReceiveTrafficKeys_outcome (this : TrafficInfo) :
  (forall this', ReceiveTrafficKeys this = Ok (false, this') -> this' = this)
  /\ (forall this',
        ReceiveTrafficKeys this = Ok (true, this')
        <-> exists info keys,
              m_mwmId this = Some info
              /\ string_empty TRAFFIC_DATA_BASE_URL = false
              /\ let request :=
                   request_for
                     (String.append
                        (MakeRemoteURL (GetCountryName info)
                           (u64 (GetVersion info))) ".keys") in
                 RunHttpRequest request = true
                 /\ ErrorCode request = 200
                 /\ DeserializeTrafficKeys debug (ServerResponse request)
                    = Ok keys
                 /\ this' = with_keys this keys)
  /\ ReceiveTrafficKeys this <> Err ReaderException.
Proof.
  unfold TrafficInfo.ReceiveTrafficKeys, ReadRemoteFile.
  destruct (m_mwmId this) as [info|].
  2:{ split; [intros ? [=]; congruence|].
      split; [|discriminate].
      intros this'. split; [discriminate|].
      intros (? & ? & [=] & _). }
  rewrite MakeRemoteURL_empty.
  set (url := MakeRemoteURL (GetCountryName info) (u64 (GetVersion info))).
  destruct (string_empty TRAFFIC_DATA_BASE_URL) eqn:Ebase.
  { split; [intros ? [=]; congruence|].
    split; [|discriminate].
    intros this'. split; [discriminate|].
    intros (? & ? & _ & [=] & _). }
  set (request := request_for (String.append url ".keys")).
  destruct (RunHttpRequest request) eqn:Erun; cbn [negb].
  2:{ split; [intros ? [=]; congruence|].
      split; [|discriminate].
      intros this'. split; [discriminate|].
      intros (info' & keys & [= <-] & _ & Hr & _).
      fold url in Hr. fold request in Hr. congruence. }
  destruct (Z.eqb_spec (ErrorCode request) 200) as [Ecode|Ecode]; cbn [negb].
  2:{ split; [intros ? [=]; congruence|].
      split; [|discriminate].
      intros this'. split; [discriminate|].
      intros (info' & keys & [= <-] & _ & _ & Hc & _).
      fold url in Hc. fold request in Hc. congruence. }
  rewrite Ecode. cbn [Z.eqb Pos.eqb negb].
  destruct (DeserializeTrafficKeys debug (ServerResponse request))
    as [keys|e] eqn:Edec.
  - split; [intros ? [=]|].
    split; [|discriminate].
    intros this'. split.
    + intros [= <-]. exists info, keys.
      repeat split; assumption.
    + intros (info' & keys' & [= <-] & _ & _ & _ & Hd & ->).
      fold url in Hd. fold request in Hd.
      rewrite Edec in Hd. now injection Hd as <-.
  - assert (Hno : forall this',
              ~ exists info' keys,
                  Some info = Some info'
                  /\ false = false
                  /\ let request :=
                       request_for
                         (String.append
                            (MakeRemoteURL (GetCountryName info')
                               (u64 (GetVersion info'))) ".keys") in
                     RunHttpRequest request = true
                     /\ ErrorCode request = 200
                     /\ DeserializeTrafficKeys debug (ServerResponse request)
                        = Ok keys
                     /\ this' = with_keys this keys).
    { intros this' (info' & keys' & [= <-] & _ & _ & _ & Hd & _).
      fold url in Hd. fold request in Hd. congruence. }
    destruct e; (split; [intros ? [=]; congruence|]);
      (split; [|discriminate]); intros this';
      (split; [discriminate|intros H; destruct (Hno this' H)]).
Qed.

(** *** [ReceiveTrafficValues] *)

Lemma with_availability_same (this : TrafficInfo) :
  with_availability this (m_availability this) = this.
Proof. now destruct this. Qed.

Lemma ReceiveTrafficValues_cases (this : TrafficInfo) :
  (ReceiveTrafficValues this = Ok (None, this)
   /\ (m_mwmId this = None \/ string_empty TRAFFIC_DATA_BASE_URL = true))
  \/ exists info,
       m_mwmId this = Some info
       /\ string_empty TRAFFIC_DATA_BASE_URL = false
       /\ let request :=
            request_for
              (MakeRemoteURL (GetCountryName info) (u64 (GetVersion info))) in
          (exists availability,
             ReceiveTrafficValues this
             = Ok (None, with_availability this availability)
             /\ availability <> Availability.IsAvailable
             /\ (RunHttpRequest request = false
                 \/ ErrorCode request <> 200
                 \/ DeserializeTrafficValues debug Inflate
                      (ServerResponse request) = Err ReaderException))
          \/ (exists values,
                ReceiveTrafficValues this
                = Ok (Some values,
                      with_availability this Availability.IsAvailable)
                /\ RunHttpRequest request = true
                /\ ErrorCode request = 200
                /\ DeserializeTrafficValues debug Inflate
                     (ServerResponse request) = Ok values)
          \/ (exists e,
                ReceiveTrafficValues this = Err e
                /\ e <> ReaderException
                /\ DeserializeTrafficValues debug Inflate
                     (ServerResponse request) = Err e).
Proof.
  unfold TrafficInfo.ReceiveTrafficValues, ReadRemoteFile.
  destruct (m_mwmId this) as [info|]; [|left; split; [reflexivity|now left]].
  rewrite MakeRemoteURL_empty.
  destruct (string_empty TRAFFIC_DATA_BASE_URL) eqn:Ebase;
    [left; split; [reflexivity|now right]|].
  right. exists info. split; [reflexivity|]. split; [reflexivity|].
  set (request := request_for _). cbv zeta.
  destruct (RunHttpRequest request) eqn:Erun; cbn [negb].
  - destruct (Z.eqb_spec (ErrorCode request) 200) as [Ecode|Ecode];
      cbn [negb].
    + destruct (DeserializeTrafficValues debug Inflate (ServerResponse request))
        as [values|e] eqn:Edec.
      * right. left. exists values. now repeat split.
      * destruct e.
        -- left. exists Availability.NoData.
           split; [reflexivity|]. split; [discriminate|]. right. now right.
        -- right. right. eexists. split; [reflexivity|]. now split.
        -- right. right. eexists. split; [reflexivity|]. now split.
        -- right. right. eexists. split; [reflexivity|]. now split.
        -- right. right. eexists. split; [reflexivity|]. now split.
    + left.
      destruct (ErrorCode request =? 404).
      * destruct (to_int64 (ServerResponse request) 0) as [ok version].
        destruct ((GetVersion info <? version)
                  && (version <=? m_currentDataVersion this));
          [|destruct (m_currentDataVersion this <? version)];
          eexists; (split; [reflexivity|]); (split; [discriminate|]);
          right; now left.
      * eexists. split; [reflexivity|]. split; [discriminate|].
        right. now left.
  - left.
    destruct (ErrorCode request =? 404).
    + destruct (to_int64 [] 0) as [ok version].
      destruct ((GetVersion info <? version)
                && (version <=? m_currentDataVersion this));
        [|destruct (m_currentDataVersion this <? version)];
        eexists; (split; [reflexivity|]); (split; [discriminate|]);
        now left.
    + eexists. split; [reflexivity|]. split; [discriminate|]. now left.
Qed.

(** X16.  [ReceiveTrafficValues] changes nothing of the object but
    [m_availability].  It returns true exactly when the mwm is known, a
    base URL is configured, the request ran and was answered with the
    status 200, and the body decodes; [m_availability] is then
    [IsAvailable].  When it returns false, either no request was made and
    the object is as it was, or [m_availability] is not [IsAvailable].  It
    never lets a [Reader::Exception] out. *)
Theorem ReceiveTrafficValues_outcome (this : TrafficInfo) :
  (forall received this',
     ReceiveTrafficValues this = Ok (received, this') ->
     this' = with_availability this (m_availability this'))
  /\ (forall values this',
        ReceiveTrafficValues this = Ok (Some values, this')
        <-> exists info,
              m_mwmId this = Some info
              /\ string_empty TRAFFIC_DATA_BASE_URL = false
              /\ let request :=
                   request_for
                     (MakeRemoteURL (GetCountryName info)
                        (u64 (GetVersion info))) in
                 RunHttpRequest request = true
                 /\ ErrorCode request = 200
                 /\ DeserializeTrafficValues debug Inflate
                      (ServerResponse request) = Ok values
                 /\ this' = with_availability this Availability.IsAvailable)
  /\ (forall this',
        ReceiveTrafficValues this = Ok (None, this') ->
        this' = this \/ m_availability this' <> Availability.IsAvailable)
  /\ ReceiveTrafficValues this <> Err ReaderException.
Proof.
  destruct (ReceiveTrafficValues_cases this)
    as [[H Hwhy]|(info & Hinfo & Hbase & Hcases)].
  - rewrite H. split; [|split; [|split]].
    + intros ? ? [= <- <-]. symmetry. apply with_availability_same.
    + intros values this'. split; [discriminate|].
      intros (info & Hinfo & Hbase & _).
      destruct Hwhy; congruence.
    + intros ? [= <-]. now left.
    + discriminate.
  - cbv zeta in Hcases.
    destruct Hcases as [(a & H & Ha & Hwhy)|[(values & H & Hr & Hc & Hd)
                                            |(e & H & He & Hd)]];
      rewrite H; (split; [|split; [|split]]).
    + intros ? ? [= <- <-]. reflexivity.
    + intros values this'. split; [discriminate|].
      intros (info' & Hinfo' & _ & Hr & Hc & Hd & _).
      rewrite Hinfo in Hinfo'. injection Hinfo' as <-.
      destruct Hwhy as [Hw|[Hw|Hw]]; congruence.
    + intros ? [= <-]. right. exact Ha.
    + discriminate.
    + intros ? ? [= <- <-]. reflexivity.
    + intros values' this'. split.
      * intros [= <- <-]. exists info. now repeat split.
      * intros (info' & Hinfo' & _ & _ & _ & Hd' & ->).
        rewrite Hinfo in Hinfo'. injection Hinfo' as <-.
        rewrite Hd in Hd'. now injection Hd' as <-.
    + discriminate.
    + discriminate.
    + discriminate.
    + intros values this'. split; [discriminate|].
      intros (info' & Hinfo' & _ & _ & _ & Hd' & _).
      rewrite Hinfo in Hinfo'. injection Hinfo' as <-. congruence.
    + discriminate.
    + congruence.
Qed.

(** *** [ReceiveTrafficData] *)

Lemma emplace_lookup (coloring : gmap RoadSegmentId SpeedGroup) key value id :
  emplace coloring key value !! id
  = match coloring !! id with
    | Some color => Some color
    | None => if decide (id = key) then Some value else None
    end.
Proof.
  unfold emplace. destruct (coloring !! key) as [c|] eqn:E.
  - destruct (coloring !! id) as [c'|] eqn:E'; [reflexivity|].
    destruct (decide (id = key)) as [->|]; [congruence|reflexivity].
  - destruct (decide (id = key)) as [->|Hne].
    + now rewrite lookup_insert_eq, E.
    + rewrite lookup_insert_ne by congruence.
      destruct (coloring !! id); reflexivity.
Qed.

Lemma EmplaceLoop_keeps keys : forall values coloring id color,
  coloring !! id = Some color ->
  EmplaceLoop keys values coloring !! id = Some color.
Proof.
  induction keys as [|key keys IH]; intros values coloring id color H;
    [exact H|].
  destruct values as [|value values]; [exact H|].
  cbn [EmplaceLoop]. apply IH. now rewrite emplace_lookup, H.
Qed.

Lemma EmplaceLoop_others keys : forall values coloring id,
  id ∉ keys ->
  EmplaceLoop keys values coloring !! id = coloring !! id.
Proof.
  induction keys as [|key keys IH]; intros values coloring id H;
    [reflexivity|].
  destruct values as [|value values]; [reflexivity|].
  cbn [EmplaceLoop]. rewrite not_elem_of_cons in H. destruct H as [Hne Hin].
  rewrite IH by exact Hin. rewrite emplace_lookup.
  destruct (coloring !! id); [reflexivity|].
  now rewrite decide_False.
Qed.

Lemma EmplaceLoop_first keys : forall values coloring i id,
  length values = length keys ->
  NoDup keys ->
  keys !! i = Some id ->
  coloring !! id = None ->
  EmplaceLoop keys values coloring !! id = values !! i.
Proof.
  induction keys as [|key keys IH]; intros values coloring i id Hl Hnd Hi Hc;
    [discriminate|].
  destruct values as [|value values]; [discriminate|].
  apply NoDup_cons in Hnd as [Hkey Hnd].
  cbn [EmplaceLoop]. destruct i as [|i].
  - injection Hi as ->. cbn [lookup list_lookup].
    apply EmplaceLoop_keeps. rewrite emplace_lookup, Hc.
    now rewrite decide_True.
  - cbn [lookup list_lookup] in *. apply IH.
    + simpl in Hl. lia.
    + exact Hnd.
    + exact Hi.
    + rewrite emplace_lookup, Hc. rewrite decide_False; [reflexivity|].
      intros ->. apply Hkey. now apply list_elem_of_lookup_2 in Hi.
Qed.

Lemma ReceiveTrafficValues_some (this : TrafficInfo) values this1 :
  ReceiveTrafficValues this = Ok (Some values, this1) ->
  this1 = with_availability this Availability.IsAvailable.
Proof.
  intros H.
  destruct (ReceiveTrafficValues_cases this)
    as [[H' _]|(info & _ & _ & Hcases)]; [congruence|].
  cbv zeta in Hcases.
  destruct Hcases as [(a & H' & _)|[(values' & H' & _)|(e & H' & _)]];
    congruence.
Qed.

Lemma ReceiveTrafficValues_frame (this : TrafficInfo) received this1 :
  ReceiveTrafficValues this = Ok (received, this1) ->
  m_keys this1 = m_keys this /\ m_coloring this1 = m_coloring this.
Proof.
  intros H.
  destruct (ReceiveTrafficValues_cases this)
    as [[H' _]|(info & _ & _ & Hcases)].
  - rewrite H' in H. injection H as _ <-. now split.
  - cbv zeta in Hcases.
    destruct Hcases as [(a & H' & _)|[(values' & H' & _)|(e & H' & _)]];
      rewrite H' in H; [| |discriminate]; injection H as _ <-; now split.
Qed.

(** X17.  When [ReceiveTrafficData] returns true, as many values were
    received as the object has keys, and a color stored before the call is
    never replaced: [emplace] leaves it.  A key that had no color gets the
    value at its position, the first one when the key is listed more than
    once; every other key answers as before. *)
Theorem ReceiveTrafficData_colors (this this' : TrafficInfo) :
  ReceiveTrafficData this = Ok (true, this') ->
  exists values,
    ReceiveTrafficValues this
    = Ok (Some values, with_availability this Availability.IsAvailable)
    /\ length values = length (m_keys this)
    /\ m_keys this' = m_keys this
    /\ m_availability this' = Availability.IsAvailable
    /\ (forall id color,
          m_coloring this !! id = Some color ->
          GetSpeedGroup this' id = color)
    /\ (forall id,
          id ∉ m_keys this ->
          GetSpeedGroup this' id = GetSpeedGroup this id)
    /\ (NoDup (m_keys this) ->
        forall i id,
          m_keys this !! i = Some id ->
          m_coloring this !! id = None ->
          m_coloring this' !! id = values !! i).
Proof.
  unfold TrafficInfo.ReceiveTrafficData. intros H.
  destruct (ReceiveTrafficValues this) as [[received this1]|] eqn:E;
    [|discriminate].
  cbn [mbind result_bind] in H.
  destruct received as [values|]; [|discriminate].
  pose proof (ReceiveTrafficValues_some _ _ _ E) as ->.
  cbn [with_availability m_keys m_coloring] in H.
  destruct (Nat.eqb_spec (length (m_keys this)) (length values)) as [Hl|Hl];
    cbn [negb] in H; [|discriminate].
  injection H as <-. exists values.
  cbn [with_coloring with_availability m_keys m_coloring m_availability].
  split; [reflexivity|]. split; [now symmetry|].
  split; [reflexivity|]. split; [reflexivity|].
  unfold TrafficInfo.GetSpeedGroup.
  cbn [m_coloring with_coloring with_availability].
  split; [|split].
  - intros id color Hc. now rewrite (EmplaceLoop_keeps _ _ _ _ _ Hc).
  - intros id Hid. now rewrite EmplaceLoop_others.
  - intros Hnd i id Hi Hc. apply EmplaceLoop_first; try assumption.
    now symmetry.
Qed.

(** X18.  When [ReceiveTrafficData] returns false, the keys are as they
    were, and either [ReceiveTrafficValues] had returned false and the
    coloring is untouched, or values were received in another number than
    there are keys: the coloring is then empty and [m_availability] is
    [NoData]. *)
Theorem ReceiveTrafficData_failure (this this' : TrafficInfo) :
  ReceiveTrafficData this = Ok (false, this') ->
  m_keys this' = m_keys this
  /\ ((ReceiveTrafficValues this = Ok (None, this')
       /\ m_coloring this' = m_coloring this)
      \/ exists values,
           ReceiveTrafficValues this
           = Ok (Some values, with_availability this Availability.IsAvailable)
           /\ length values <> length (m_keys this)
           /\ m_coloring this' = ∅
           /\ m_availability this' = Availability.NoData).
Proof.
  unfold TrafficInfo.ReceiveTrafficData. intros H.
  destruct (ReceiveTrafficValues this) as [[received this1]|] eqn:E;
    [|discriminate].
  cbn [mbind result_bind] in H.
  destruct (ReceiveTrafficValues_frame _ _ _ E) as [Hk Hc].
  destruct received as [values|].
  - pose proof (ReceiveTrafficValues_some _ _ _ E) as ->.
    cbn [with_availability m_keys m_coloring] in H.
    destruct (Nat.eqb_spec (length (m_keys this)) (length values)) as [Hl|Hl];
      cbn [negb] in H; [discriminate|].
    injection H as <-.
    split; [reflexivity|]. right. exists values.
    split; [reflexivity|]. split; [congruence|]. now split.
  - injection H as <-. split; [exact Hk|]. left. now split.
Qed.

(** *** Without a base URL *)

(** X19.  [MakeRemoteURL] returns the empty string exactly when
    [TRAFFIC_DATA_BASE_URL] is empty.  Then [ReceiveTrafficKeys] and
    [ReceiveTrafficData] return false and leave the object as it was,
    whatever the server would answer. *)
Theorem no_base_url_no_request (this : TrafficInfo) name version :
  string_empty (MakeRemoteURL name version)
  = string_empty TRAFFIC_DATA_BASE_URL
  /\ (string_empty TRAFFIC_DATA_BASE_URL = true ->
      ReceiveTrafficKeys this = Ok (false, this)
      /\ ReceiveTrafficData this = Ok (false, this)).
Proof.
  split; [apply MakeRemoteURL_empty|]. intros Hbase.
  unfold TrafficInfo.ReceiveTrafficData, TrafficInfo.ReceiveTrafficValues,
    TrafficInfo.ReceiveTrafficKeys.
  destruct (m_mwmId this) as [info|]; [|now split].
  rewrite !MakeRemoteURL_empty, Hbase. now split.
Qed.

(** *** Colors are kept *)

Lemma EmplaceLoop_noop keys : forall values coloring,
  (forall key, key ∈ keys -> is_Some (coloring !! key)) ->
  EmplaceLoop keys values coloring = coloring.
Proof.
  induction keys as [|key keys IH]; intros values coloring H; [reflexivity|].
  destruct values as [|value values]; [reflexivity|].
  cbn [EmplaceLoop].
  assert (E : emplace coloring key value = coloring).
  { unfold emplace. destruct (H key) as [c ->]; [|reflexivity].
    apply elem_of_cons. now left. }
  rewrite E. apply IH. intros k Hk. apply H. apply elem_of_cons. now right.
Qed.

Lemma EmplaceLoop_covers keys : forall values coloring key,
  length values = length keys ->
  key ∈ keys ->
  is_Some (EmplaceLoop keys values coloring !! key).
Proof.
  induction keys as [|k keys IH]; intros values coloring key Hl Hin.
  - now apply not_elem_of_nil in Hin.
  - destruct values as [|value values]; [discriminate|].
    cbn [EmplaceLoop]. apply elem_of_cons in Hin as [->|Hin].
    + assert (Hk : is_Some (emplace coloring k value !! k)).
      { rewrite emplace_lookup. destruct (coloring !! k); [eauto|].
        rewrite decide_True by reflexivity. eauto. }
      destruct Hk as [c Hc]. rewrite (EmplaceLoop_keeps _ _ _ _ _ Hc). eauto.
    + apply IH; [simpl in Hl; lia|exact Hin].
Qed.

Lemma ReceiveTrafficData_true (Inflate0 : list Z -> list Z)
  (request_for0 : string -> HttpClient) (this this' : TrafficInfo) :
  TrafficInfo.ReceiveTrafficData debug Inflate0 request_for0
    TRAFFIC_DATA_BASE_URL TRAFFIC_FILE_EXTENSION UrlEncode to_int64 this
  = Ok (true, this') ->
  exists values,
    length values = length (m_keys this)
    /\ m_keys this' = m_keys this
    /\ m_coloring this'
       = EmplaceLoop (m_keys this) values (m_coloring this).
Proof.
  unfold TrafficInfo.ReceiveTrafficData. intros H.
  destruct (TrafficInfo.ReceiveTrafficValues debug Inflate0 request_for0 _ _ _ _ _)
    as [[received thisA]|] eqn:E; [|discriminate].
  cbn [mbind result_bind] in H.
  destruct received as [values|]; [|discriminate].
  destruct (Nat.eqb_spec (length (m_keys thisA)) (length values)) as [Hl|Hl];
    cbn [negb] in H; [|discriminate].
  injection H as <-.
  assert (Hframe : m_keys thisA = m_keys this
                   /\ m_coloring thisA = m_coloring this).
  { unfold TrafficInfo.ReceiveTrafficValues, ReadRemoteFile in E.
    destruct (m_mwmId this); [|injection E as _ <-; now split].
    destruct (string_empty _); [injection E as _ <-; now split|].
    destruct (RunHttpRequest _); cbn [negb] in E.
    - destruct (negb _).
      + destruct (_ =? 404).
        * destruct (to_int64 _ _).
          destruct (_ && _); [|destruct (_ <? _)];
            injection E as _ <-; now split.
        * injection E as _ <-; now split.
      + destruct (DeserializeTrafficValues debug Inflate0 _) as [v|[]];
          try discriminate; injection E as _ <-; now split.
    - destruct (_ =? 404).
      + destruct (to_int64 _ _).
        destruct (_ && _); [|destruct (_ <? _)];
          injection E as _ <-; now split.
      + injection E as _ <-; now split. }
  destruct Hframe as [Hk Hc]. exists values.
  cbn [with_coloring m_keys m_coloring]. rewrite Hk, Hc in *.
  now repeat split.
Qed.

(** X23.  A call of [ReceiveTrafficData] that returns true leaves every
    key of [m_keys] with a color.  When every key had a color before the
    call, it leaves the coloring exactly as it was, whatever values were
    received: [emplace] stores nothing for a key that is there.  So a call
    that returns true on the object as a call that returned true has left
    it, no other call in between, changes no color, whatever the server,
    the same or another, answers then. *)
Theorem ReceiveTrafficData_never_refreshes (this this1 : TrafficInfo) :
  ReceiveTrafficData this = Ok (true, this1) ->
  (forall key, key ∈ m_keys this1 -> is_Some (m_coloring this1 !! key))
  /\ ((forall key, key ∈ m_keys this -> is_Some (m_coloring this !! key)) ->
      m_coloring this1 = m_coloring this)
  /\ forall (Inflate' : list Z -> list Z)
       (request_for' : string -> HttpClient) (this2 : TrafficInfo),
       TrafficInfo.ReceiveTrafficData debug Inflate' request_for'
         TRAFFIC_DATA_BASE_URL TRAFFIC_FILE_EXTENSION UrlEncode to_int64 this1
       = Ok (true, this2) ->
       m_coloring this2 = m_coloring this1.
Proof.
  intros H1.
  destruct (ReceiveTrafficData_true _ _ _ _ H1) as (values & Hl & Hk & Hc).
  assert (Hcover : forall key,
            key ∈ m_keys this1 -> is_Some (m_coloring this1 !! key)).
  { intros key Hkey. rewrite Hc. rewrite Hk in Hkey.
    now apply EmplaceLoop_covers. }
  split; [exact Hcover|]. split.
  - intros Hall. rewrite Hc. now apply EmplaceLoop_noop.
  - intros Inflate' request_for' this2 H2.
    destruct (ReceiveTrafficData_true _ _ _ _ H2)
      as (values' & _ & _ & Hc').
    rewrite Hc'. now apply EmplaceLoop_noop.
Qed.

(** *** What the server can do to the caller *)

(** X22.  Four answers of the server, each with the status 200, to an
    object whose mwm is known and with a base URL configured.  A keys file
    of no byte at all: the read of the version throws, the exception is
    caught, [ReceiveTrafficKeys] returns false and the object is as it
    was.  A keys file whose first byte is not the version 0: the
    [CHECK_EQUAL] of [DeserializeTrafficKeys] fails and
    [ReceiveTrafficKeys], which catches [Reader::Exception] only, does not
    return.  A values file that inflates to no byte at all:
    [ReceiveTrafficData] returns false and only [m_availability] has
    changed, to [NoData].  A values file that inflates to a first byte
    other than the version 0: the [CHECK_EQUAL] of
    [DeserializeTrafficValues] fails and [ReceiveTrafficData] does not
    return. *)
Theorem server_files_failures (this : TrafficInfo) (info : MwmInfo)
  (body : list Z) (version : Z) (rest : list Z) :
  m_mwmId this = Some info ->
  string_empty TRAFFIC_DATA_BASE_URL = false ->
  version <> 0 ->
  let url := MakeRemoteURL (GetCountryName info) (u64 (GetVersion info)) in
  (request_for (String.append url ".keys") = mkHttpClient true 200 [] ->
   ReceiveTrafficKeys this = Ok (false, this))
  /\ (request_for (String.append url ".keys")
      = mkHttpClient true 200 (version :: rest) ->
      ReceiveTrafficKeys this
      = Err (CheckFailure "Unsupported version of traffic values."))
  /\ (request_for url = mkHttpClient true 200 body ->
      Inflate body = [] ->
      ReceiveTrafficData this
      = Ok (false, with_availability this Availability.NoData))
  /\ (request_for url = mkHttpClient true 200 body ->
      Inflate body = version :: rest ->
      ReceiveTrafficData this
      = Err (CheckFailure "Unsupported version of traffic keys.")).
Proof.
  intros Hinfo Hbase Hversion url.
  assert (Hcheck : forall msg,
            CHECK (version + 256 * 0 =? 0) msg = Err (CheckFailure msg)).
  { intros msg. unfold CHECK.
    destruct (Z.eqb_spec (version + 256 * 0) 0) as [E|E]; [lia|reflexivity]. }
  unfold TrafficInfo.ReceiveTrafficData, TrafficInfo.ReceiveTrafficValues,
    TrafficInfo.ReceiveTrafficKeys, ReadRemoteFile.
  rewrite Hinfo, !MakeRemoteURL_empty, Hbase. fold url.
  split; [|split; [|split]].
  - intros ->. reflexivity.
  - intros ->.
    cbn [RunHttpRequest ErrorCode ServerResponse negb Z.eqb Pos.eqb].
    unfold DeserializeTrafficKeys, ReadKeyGroups.
    change (ReadPrimitiveFromSource 1 (version :: rest))
      with (Ok (version + 256 * 0, rest)).
    rewrite bind_Ok. cbn beta iota. unfold kLatestKeysVersion.
    rewrite Hcheck. reflexivity.
  - intros -> HI.
    cbn [RunHttpRequest ErrorCode ServerResponse negb Z.eqb Pos.eqb].
    unfold DeserializeTrafficValues. rewrite HI. reflexivity.
  - intros -> HI.
    cbn [RunHttpRequest ErrorCode ServerResponse negb Z.eqb Pos.eqb].
    unfold DeserializeTrafficValues, ReadValueStream. rewrite HI.
    change (ReadPrimitiveFromSource 1 (version :: rest))
      with (Ok (version + 256 * 0, rest)).
    rewrite bind_Ok. cbn beta iota. unfold kLatestValuesVersion.
    rewrite Hcheck. reflexivity.
Qed.

(** *** From the published files to the colors *)

Lemma values_wire_roundtrip (Deflate : list Z -> list Z)
  (values : list SpeedGroup) :
  (forall buf, Inflate (Deflate buf) = buf) ->
  Forall (fun v => 0 <= v < 8) values ->
  Z.of_nat (length values) < 2 ^ 32 ->
  DeserializeTrafficValues debug Inflate
    (SerializeTrafficValues Deflate values)
  = Ok values.
Proof.
  intros Hzlib Hv Hlen.
  set (n := Z.of_nat (length values)) in *.
  assert (Hn : 0 <= n < 2 ^ 64).
  { split; [unfold n; lia|]. apply Z.lt_trans with (2 ^ 32); [lia|reflexivity]. }
  unfold DeserializeTrafficValues.
  rewrite SerializeTrafficValues_layout, Hzlib. fold n.
  rewrite ReadValueStream_layout by assumption.
  rewrite Z.mod_small by lia. unfold n. rewrite Nat2Z.id.
  pose proof (reader_at_new (values_bits values) []) as Hat.
  rewrite app_nil_r in Hat.
  rewrite <- (app_nil_r (values_bits values)) in Hat at 2.
  destruct (ReadValues_bits values _ _ _ Hv Hat) as (r1 & Hr1 & Hat1).
  step_bind Hr1. rewrite bind_Ok. cbn beta iota.
  change (br_src r1) with (BitReader_drop r1).
  rewrite (reader_at_done _ _ Hat1).
  change (length [] =? 0)%nat with true.
  rewrite ASSERT_true, bind_Ok. reflexivity.
Qed.

Lemma sorted_keys_NoDup (K : list RoadSegmentId) :
  StronglySorted key_lt K -> NoDup K.
Proof.
  induction 1 as [|k K Hs IH Hk]; [constructor|].
  apply NoDup_cons. split; [|exact IH].
  intros Hin. rewrite List.Forall_forall in Hk.
  apply list_elem_of_In in Hin. specialize (Hk k Hin).
  unfold key_lt in Hk. lia.
Qed.

(** X20.  The keys file and the values file of a publisher are received
    as published.  Let the server answer the request for the keys with the
    bytes [SerializeTrafficKeys] made of a canonical key vector [K], and
    the request for the values with the bytes [SerializeTrafficValues]
    made of as many three-bit values [V], fewer than 2^32.  Then on an
    object without colors [ReceiveTrafficKeys] and then
    [ReceiveTrafficData] return true, the keys of the object are [K], the
    data is marked available, and [GetSpeedGroup] answers for the key at
    every position of [K] with the value at that position of [V]. *)
Theorem published_traffic_is_received (Deflate : list Z -> list Z)
  (this : TrafficInfo) (info : MwmInfo)
  (K : list RoadSegmentId) (V : list SpeedGroup) (keysFile : list Z) :
  (forall buf, Inflate (Deflate buf) = buf) ->
  properly_grouped 0 K ->
  Forall (fun v => 0 <= v < 8) V ->
  length V = length K ->
  Z.of_nat (length V) < 2 ^ 32 ->
  SerializeTrafficKeys debug K = Ok keysFile ->
  m_mwmId this = Some info ->
  string_empty TRAFFIC_DATA_BASE_URL = false ->
  m_coloring this = ∅ ->
  request_for
    (String.append
       (MakeRemoteURL (GetCountryName info) (u64 (GetVersion info))) ".keys")
  = mkHttpClient true 200 keysFile ->
  request_for (MakeRemoteURL (GetCountryName info) (u64 (GetVersion info)))
  = mkHttpClient true 200 (SerializeTrafficValues Deflate V) ->
  exists this1 this2,
    ReceiveTrafficKeys this = Ok (true, this1)
    /\ ReceiveTrafficData this1 = Ok (true, this2)
    /\ m_keys this2 = K
    /\ m_availability this2 = Availability.IsAvailable
    /\ forall i id,
         K !! i = Some id -> V !! i = Some (GetSpeedGroup this2 id).
Proof.
  intros Hzlib HK HV Hlen Hsize HS Hinfo Hbase Hcol Hkeys Hvalues.
  destruct (GroupKeys_properly_grouped 0 K HK (length K) (le_n _))
    as (fids & numSegs & oneWay & HG & HE & HVec).
  destruct (keys_wire_roundtrip debug K _ _ _ HVec HG) as (bytes & HS' & HD).
  rewrite HS in HS'. injection HS' as <-. rewrite HE in HD.
  pose proof (sorted_keys_NoDup K (properly_grouped_sorted _ _ HK)) as Hnd.
  exists (with_keys this K).
  exists (with_coloring
            (with_availability (with_keys this K) Availability.IsAvailable)
            (EmplaceLoop K V ∅)).
  split; [|split; [|split; [reflexivity|split; [reflexivity|]]]].
  - unfold TrafficInfo.ReceiveTrafficKeys, ReadRemoteFile.
    rewrite Hinfo, MakeRemoteURL_empty, Hbase, Hkeys.
    cbn [RunHttpRequest ErrorCode ServerResponse negb Z.eqb Pos.eqb].
    now rewrite HD.
  - unfold TrafficInfo.ReceiveTrafficData, TrafficInfo.ReceiveTrafficValues,
      ReadRemoteFile.
    cbn [with_keys m_mwmId m_keys m_coloring m_currentDataVersion].
    rewrite Hinfo, MakeRemoteURL_empty, Hbase, Hvalues.
    cbn [RunHttpRequest ErrorCode ServerResponse negb Z.eqb Pos.eqb].
    rewrite (values_wire_roundtrip Deflate V Hzlib HV Hsize).
    rewrite bind_Ok. cbn beta iota.
    cbn [with_availability m_keys m_coloring].
    rewrite Hlen, Nat.eqb_refl. cbn [negb].
    cbn [with_keys m_keys m_coloring]. now rewrite Hcol.
  - intros i id Hi.
    unfold TrafficInfo.GetSpeedGroup.
    cbn [m_coloring with_coloring with_availability].
    rewrite (EmplaceLoop_first K V ∅ i id Hlen Hnd Hi (lookup_empty id)).
    destruct (V !! i) as [v|] eqn:Ev; [reflexivity|].
    apply lookup_ge_None in Ev. apply lookup_lt_Some in Hi. lia.
Qed.

End Server.

Section ServerExamples.

Import traffic traffic.TrafficInfo.

(** A server for the base URL "t/" and the extension ".traffic" that
    answers the keys file of one two-way feature of one segment and two
    values, and an object of the mwm "A" of version 0. *)
Lemma ReceiveTrafficKeys_outcome_witness :
  let request_for := fun url : string =>
    if String.eqb url "t/A.traffic.keys"
    then mkHttpClient true 200 [0; 1; 18]
    else mkHttpClient true 404 [] in
  let this :=
    mkTrafficInfo ∅ [] Availability.Unknown 0 (Some (mkMwmInfo "A" 0)) in
  ReceiveTrafficKeys true request_for "t/" ".traffic" (fun s => s) this
  = Ok (true,
        with_keys this [mkRoadSegmentId 1 0 0; mkRoadSegmentId 1 0 1]).
Proof.
  intros request_for this.
  destruct (ReceiveTrafficKeys_outcome true request_for "t/" ".traffic"
              (fun s => s) this) as (_ & H & _).
  apply H. exists (mkMwmInfo "A" 0).
  exists [mkRoadSegmentId 1 0 0; mkRoadSegmentId 1 0 1].
  repeat split.
Defined.

Lemma ReceiveTrafficValues_outcome_witness :
  let request_for := fun url : string =>
    if String.eqb url "t/A.traffic"
    then mkHttpClient true 200 [0; 2; 24]
    else mkHttpClient true 404 [] in
  let this :=
    mkTrafficInfo ∅ [] Availability.Unknown 0 (Some (mkMwmInfo "A" 0)) in
  ReceiveTrafficValues true (fun buf => buf) request_for "t/" ".traffic"
    (fun s => s) (fun _ version => (false, version)) this
  = Ok (Some [0; 3], with_availability this Availability.IsAvailable).
Proof.
  intros request_for this.
  destruct (ReceiveTrafficValues_outcome true (fun buf => buf) request_for
              "t/" ".traffic" (fun s => s) (fun _ version => (false, version))
              this) as (_ & H & _).
  apply H. exists (mkMwmInfo "A" 0). repeat split.
Defined.

Lemma ReceiveTrafficData_colors_witness :
  let request_for := fun url : string =>
    if String.eqb url "t/A.traffic"
    then mkHttpClient true 200 [0; 2; 24]
    else mkHttpClient true 404 [] in
  let a := mkRoadSegmentId 1 0 0 in
  let b := mkRoadSegmentId 1 0 1 in
  let this :=
    mkTrafficInfo {[a := 5]} [a; b] Availability.Unknown 0
      (Some (mkMwmInfo "A" 0)) in
  exists this',
    ReceiveTrafficData true (fun buf => buf) request_for "t/" ".traffic"
      (fun s => s) (fun _ version => (false, version)) this
    = Ok (true, this')
    /\ GetSpeedGroup 7 this' a = 5
    /\ m_coloring this' !! b = Some 3.
Proof.
  intros request_for a b this.
  eexists. split; [reflexivity|].
  match goal with
  | |- GetSpeedGroup _ ?t _ = _ /\ _ =>
      destruct (ReceiveTrafficData_colors true 7 (fun buf => buf) request_for
                  "t/" ".traffic" (fun s => s)
                  (fun _ version => (false, version)) this t eq_refl)
        as (values & Hv & _ & _ & _ & Hkeep & _ & Hfirst)
  end.
  split.
  - apply Hkeep. apply lookup_singleton_eq.
  - injection Hv as <-.
    apply (Hfirst ltac:(repeat constructor; set_solver) 1%nat b eq_refl).
    apply lookup_singleton_ne. discriminate.
Defined.

Lemma ReceiveTrafficData_failure_witness :
  let request_for := fun url : string =>
    if String.eqb url "t/A.traffic"
    then mkHttpClient true 200 [0; 2; 24]
    else mkHttpClient true 404 [] in
  let a := mkRoadSegmentId 1 0 0 in
  let this :=
    mkTrafficInfo {[a := 5]} [a] Availability.Unknown 0
      (Some (mkMwmInfo "A" 0)) in
  exists this',
    ReceiveTrafficData true (fun buf => buf) request_for "t/" ".traffic"
      (fun s => s) (fun _ version => (false, version)) this
    = Ok (false, this')
    /\ m_keys this' = [a]
    /\ m_coloring this' = ∅.
Proof.
  intros request_for a this.
  eexists. split; [reflexivity|].
  match goal with
  | |- m_keys ?t = _ /\ _ =>
      destruct (ReceiveTrafficData_failure true (fun buf => buf) request_for
                  "t/" ".traffic" (fun s => s)
                  (fun _ version => (false, version)) this t eq_refl)
        as (Hk & Hc)
  end.
  split; [exact Hk|reflexivity].
Defined.

Lemma no_base_url_no_request_witness :
  let request_for := fun url : string => mkHttpClient true 200 [0; 0] in
  let this :=
    mkTrafficInfo ∅ [] Availability.Unknown 0 (Some (mkMwmInfo "A" 0)) in
  ReceiveTrafficKeys true request_for "" ".traffic" (fun s => s) this
  = Ok (false, this)
  /\ ReceiveTrafficData true (fun buf => buf) request_for "" ".traffic"
       (fun s => s) (fun _ version => (false, version)) this
     = Ok (false, this).
Proof.
  intros request_for this.
  apply (no_base_url_no_request true (fun buf => buf) request_for ""
           ".traffic" (fun s => s) (fun _ version => (false, version))
           this "A" 0).
  reflexivity.
Defined.

Lemma ReceiveTrafficData_never_refreshes_witness :
  let first := fun url : string => mkHttpClient true 200 [0; 1; 3] in
  let second := fun url : string => mkHttpClient true 200 [0; 1; 5] in
  let a := mkRoadSegmentId 1 0 0 in
  let this :=
    mkTrafficInfo ∅ [a] Availability.Unknown 0 (Some (mkMwmInfo "A" 0)) in
  exists this1 this2,
    ReceiveTrafficData true (fun buf => buf) first "t/" ".traffic"
      (fun s => s) (fun _ version => (false, version)) this
    = Ok (true, this1)
    /\ ReceiveTrafficData true (fun buf => buf) second "t/" ".traffic"
         (fun s => s) (fun _ version => (false, version)) this1
       = Ok (true, this2)
    /\ GetSpeedGroup 7 this1 a = 3
    /\ m_coloring this2 = m_coloring this1.
Proof.
  intros first second a this.
  eexists. eexists.
  split; [reflexivity|]. split; [reflexivity|]. split; [reflexivity|].
  match goal with
  | |- m_coloring ?t2 = m_coloring ?t1 =>
      destruct (ReceiveTrafficData_never_refreshes true (fun buf => buf)
                  first "t/" ".traffic" (fun s => s)
                  (fun _ version => (false, version)) this t1 eq_refl)
        as (_ & _ & H);
      apply (H (fun buf => buf) second t2 eq_refl)
  end.
Defined.

Lemma server_files_failures_witness :
  let request_for := fun url : string =>
    if String.eqb url "t/A.traffic.keys"
    then mkHttpClient true 200 [3; 0]
    else mkHttpClient true 200 [] in
  let this :=
    mkTrafficInfo ∅ [] Availability.Unknown 0 (Some (mkMwmInfo "A" 0)) in
  ReceiveTrafficKeys true request_for "t/" ".traffic" (fun s => s) this
  = Err (CheckFailure "Unsupported version of traffic values.")
  /\ ReceiveTrafficData true (fun buf => buf) request_for "t/" ".traffic"
       (fun s => s) (fun _ version => (false, version)) this
     = Ok (false, with_availability this Availability.NoData).
Proof.
  intros request_for this.
  destruct (server_files_failures true (fun buf => buf) request_for "t/"
              ".traffic" (fun s => s) (fun _ version => (false, version))
              this (mkMwmInfo "A" 0) [] 3 [0] eq_refl eq_refl
              ltac:(discriminate))
    as (_ & Hk & Hv & _).
  split; [apply Hk; reflexivity|apply Hv; reflexivity].
Defined.

Lemma published_traffic_is_received_witness :
  let request_for := fun url : string =>
    if String.eqb url "t/A.traffic.keys"
    then mkHttpClient true 200 [0; 1; 18]
    else mkHttpClient true 200
           (SerializeTrafficValues (fun buf => buf) [0; 3]) in
  let this :=
    mkTrafficInfo ∅ [] Availability.Unknown 0 (Some (mkMwmInfo "A" 0)) in
  let K := [mkRoadSegmentId 1 0 0; mkRoadSegmentId 1 0 1] in
  exists this1 this2,
    ReceiveTrafficKeys true request_for "t/" ".traffic" (fun s => s) this
    = Ok (true, this1)
    /\ ReceiveTrafficData true (fun buf => buf) request_for "t/" ".traffic"
         (fun s => s) (fun _ version => (false, version)) this1
       = Ok (true, this2)
    /\ m_keys this2 = K
    /\ m_availability this2 = Availability.IsAvailable
    /\ forall i id,
         K !! i = Some id -> [0; 3] !! i = Some (GetSpeedGroup 7 this2 id).
Proof.
  intros request_for this K.
  apply (published_traffic_is_received true 7 (fun buf => buf) request_for
           "t/" ".traffic" (fun s => s) (fun _ version => (false, version))
           (fun buf => buf) this (mkMwmInfo "A" 0) K [0; 3] [0; 1; 18]).
  - reflexivity.
  - apply (properly_grouped_cons 0 1 1 false []); [lia|lia|constructor].
  - repeat constructor; lia.
  - reflexivity.
  - simpl. lia.
  - vm_compute. reflexivity.
  - reflexivity.
  - reflexivity.
  - reflexivity.
  - reflexivity.
  - reflexivity.
Defined.

End ServerExamples.

